(** * Peak fitting and cut extraction of [analysis/fitting.py]

    A shallow embedding of the cut extractor [get_cut], the two-stage fitter
    [fit_odr], the Gaussian wrapper [fit_mca_gaussian], the spectrum fits
    [fit_am], [fit_fe], [fit_manual] and the two HV-scan loops.

    Numbers.  A float64 that the module computes with (counts, thresholds,
    multipliers) is an exact rational [Q]; a float64 that comes back from a
    solver (parameters, covariance entries) is an [fnum], which also has the
    two infinities and NaN, because [np.isinf] and the truth value of an
    entry are what [fit_odr] looks at.  Python integers are [Z].

    Effects.  Arrays live in a store ([heap]); a function that may print,
    draw, call a solver, raise or write an array is a computation in the
    monad [M]: it takes the store and gives the new store, the events it
    emitted and either an exception or a value. *)

From Stdlib Require Import ZArith QArith Qround Lqa String.
From stdpp Require Import base list gmap.

Local Open Scope Z_scope.

(** ** Exceptions and fallible pure code *)

Inductive exn : Type :=
| ValueError (msg : string)
| IndexError (msg : string)
| TypeError (msg : string)
| ZeroDivisionError
| LibraryError (msg : string)   (* raised inside scipy or matplotlib *)
| UnboundArray.                 (* a reference outside the store *)

Definition res (A : Type) : Type := exn + A.

Definition res_ret {A} (a : A) : res A := inr a.
Definition res_bind {A B} (f : A → res B) (r : res A) : res B :=
  match r with inl e => inl e | inr a => f a end.

#[global] Instance res_mret : MRet res := @res_ret.
#[global] Instance res_mbind : MBind res := @res_bind.

(** ** Python and numpy primitives on values *)

Definition Qltb (x y : Q) : bool := negb (Qle_bool y x).

(** [l[i]] for a Python integer [i]: a negative index counts from the end. *)
Definition py_index {A} (l : list A) (i : Z) : res A :=
  let n := Z.of_nat (length l) in
  let j := if i <? 0 then n + i else i in
  match (if 0 <=? j then l !! Z.to_nat j else None) with
  | Some v => inr v
  | None => inl (IndexError "index out of bounds")
  end.

(** [l[:k]]: a negative stop counts from the end, and the slice is clipped. *)
Definition py_slice_to {A} (l : list A) (k : Z) : list A :=
  let n := Z.of_nat (length l) in
  let stop := if k <? 0 then Z.max 0 (n + k) else k in
  take (Z.to_nat stop) l.

(** [l[k:]] *)
Definition py_slice_from {A} (l : list A) (k : Z) : list A :=
  let n := Z.of_nat (length l) in
  let start := if k <? 0 then Z.max 0 (n + k) else k in
  drop (Z.to_nat start) l.

(** [max(0, x)] and [min(n, x)] as Python evaluates them: the first argument
    is kept unless the second is strictly better. *)
Definition py_max0 (x : Q) : Q := if Qltb 0 x then x else 0%Q.
Definition py_min (n : Z) (x : Q) : Q := if Qltb x (inject_Z n) then x else inject_Z n.

(** [round(x)]: to the nearest integer, ties to the even one. *)
Definition py_round (x : Q) : Z :=
  let f := Qfloor x in
  match ((x - inject_Z f) ?= (1 # 2))%Q with
  | Lt => f
  | Gt => f + 1
  | Eq => if Z.even f then f else f + 1
  end.

(** [np.arange(a, b)] *)
Definition np_arange (a b : Z) : list Z := seqZ a (b - a).

(** [np.argmax]: the first index of the maximum. *)
Fixpoint argmax_from (l : list Q) (i best_i : Z) (best : Q) : Z :=
  match l with
  | [] => best_i
  | v :: l' =>
      if Qltb best v then argmax_from l' (i + 1) i v
      else argmax_from l' (i + 1) best_i best
  end.

Definition np_argmax (data : list Q) : res Z :=
  match data with
  | [] => inl (ValueError "attempt to get argmax of an empty sequence")
  | v :: l => inr (argmax_from l 1 0 v)
  end.

(** [np.max] *)
Definition np_max (data : list Q) : res Q :=
  match data with
  | [] => inl (ValueError "zero-size array to reduction operation maximum which has no identity")
  | v :: l => inr (foldl (λ best w, if Qltb best w then w else best) v l)
  end.

(** [np.where(cond)[0]]: the indices at which [cond] holds, ascending. *)
Fixpoint where_from (f : Q → bool) (l : list Q) (i : Z) : list Z :=
  match l with
  | [] => []
  | v :: l' => if f v then i :: where_from f l' (i + 1) else where_from f l' (i + 1)
  end.

Definition np_where (f : Q → bool) (data : list Q) : list Z := where_from f data 0.

(** [data[inds]] with an index array: a fresh array. *)
Fixpoint np_take (data : list Q) (inds : list Z) : res (list Q) :=
  match inds with
  | [] => inr []
  | i :: inds' =>
      v ← py_index data i;
      vs ← np_take data inds';
      mret (v :: vs)
  end.

(** [a * b] on one-dimensional arrays, with numpy's broadcasting. *)
Definition np_mul (a b : list Q) : res (list Q) :=
  if decide (length a = length b) then inr (zip_with Qmult a b)
  else match a, b with
       | [x], _ => inr (map (Qmult x) b)
       | _, [y] => inr (map (λ x, Qmult x y) a)
       | _, _ => inl (ValueError "operands could not be broadcast together")
       end.

(** ** The cut extractor (fitting.py, lines 61-74) *)

Definition THRESHOLD_LEVEL : Q := 5 # 10.
Definition CUT_WIDTH_MULT : Q := 17 # 10.

Definition cut_ind_min (peak_ind first : Z) (cut_width_mult : Q) : Z :=
  py_round (py_max0 (inject_Z peak_ind - cut_width_mult * inject_Z (peak_ind - first))).

Definition cut_ind_max (size peak_ind last : Z) (cut_width_mult : Q) : Z :=
  py_round (py_min size (inject_Z peak_ind + cut_width_mult * inject_Z (last - peak_ind) + 1)).

Definition get_cut (data : list Q) (threshold_level cut_width_mult : Q)
  : res (list Z * Z * Z * Q) :=
  peak_ind ← np_argmax data;
  peak ← py_index data peak_ind;
  let threshold_inds := np_where (λ v, Qltb (peak * threshold_level) v) data in
  last ← py_index threshold_inds (-1);
  first ← py_index threshold_inds 0;
  let threshold_width := last - first in
  let cut_inds :=
    np_arange (cut_ind_min peak_ind first cut_width_mult)
      (cut_ind_max (Z.of_nat (length data)) peak_ind last cut_width_mult) in
  mret (cut_inds, threshold_width, peak_ind, peak).

(** ** Values returned by the solvers *)

Inductive fnum : Type := Fin (q : Q) | PosInf | NegInf | NaN.

Definition matrix : Type := list (list fnum).

(** [CURVE_FIT]: the parameter vector and its covariance matrix. *)
Definition fit_result : Type := list fnum * matrix.

(** The part of scipy's ODR output that [fit_odr] reads. *)
Record odr_output : Type := { beta : list fnum; cov_beta : matrix }.

Definition isinf (x : fnum) : bool :=
  match x with PosInf | NegInf => true | _ => false end.

(** The truth value of a float: everything but zero, NaN included. *)
Definition truthy (x : fnum) : bool :=
  match x with Fin q => negb (Qeq_bool q 0) | _ => true end.

Definition np_isinf (m : matrix) : list (list bool) := map (map isinf) m.
Definition np_any_bool (m : list (list bool)) : bool := existsb (existsb id) m.
Definition np_any (m : matrix) : bool := np_any_bool (map (map truthy) m).

(** ** The store and the spectrum *)

Abbreviation loc := positive.
Abbreviation heap := (gmap positive (list Q)).

(** Modelled from the spec: the class [MeasMCA] of [devices.mca], which is
    not part of the sources.  Section 6 gives what a spectrum exposes:
    ordered counts, ordered channel labels, and a differential and an
    integral nonlinearity array, each of which may be absent.  The arrays
    are references into the store. *)
Record MeasMCA : Type := {
  counts : loc;
  channels : loc;
  diff_nonlin : option loc;
  int_nonlin : option loc
}.

(** What [plt.subplots(nrows, ncols)] returns with its default squeeze: one
    Axes, a row of Axes, or a grid. *)
Inductive subplots_result (Axes : Type) : Type :=
| OneAxes (a : Axes)
| AxesRow (row : list Axes)
| AxesGrid (rows : list (list Axes)).
Arguments OneAxes {Axes} a.
Arguments AxesRow {Axes} row.
Arguments AxesGrid {Axes} rows.

(** What [fit_fe] returns: one fit, or the primary and the secondary one. *)
Inductive fe_result : Type :=
| Single (fit : fit_result)
| Dual (fit fit2 : fit_result).

Definition nonlin_error : exn :=
  ValueError "The MCA measurement should have nonlinearities configured".

Definition lsq_warning : string :=
  "Warning! Least squares covariances could not be estimated. This may indicate a failed fit!".

Definition odr_warning : string :=
  "Warning! The ODR covariances could not be estimated, so reverting back to curve_fit results (both parameters and covariances).".

(** [filtered[:k] = 0] on the contents of an array. *)
Definition zero_to (a : list Q) (k : Z) : list Q :=
  let n := length (py_slice_to a k) in
  replicate n 0%Q ++ drop n a.

(** [counts[:cut_inds[0]-10]], the window of the secondary peak search
    (fitting.py, line 178). *)
Definition secondary_window (c : list Q) (cut_inds : list Z) : res (list Q) :=
  c0 ← py_index cut_inds 0;
  mret (py_slice_to c (c0 - 10)).

(** ** Sample data: a spectrum with two peaks, and solvers that answer *)

(** A peak given by its table of heights at the distances 0, 1, 2, ... from
    the centre. *)
Definition bump (heights : list Z) (centre i : Z) : Z :=
  nth (Z.abs_nat (i - centre)) heights 0.

(** 100 channels: a peak of height 100 at channel 80 and one of height 40
    at channel 20, each about 5 channels wide. *)
Definition two_peaks : list Q :=
  (λ i, inject_Z (bump [100; 98; 92; 84; 73; 61; 49; 38; 28; 20; 14; 9; 6; 3; 2; 1] 80 i +
                  bump [40; 39; 37; 33; 29; 24; 19; 15; 11; 8; 5; 4; 2; 1; 1] 20 i))
    <$> seqZ 0 100.

Definition sample_heap : heap :=
  <[1%positive := two_peaks]>
    (<[2%positive := inject_Z <$> seqZ 0 100]>
       (<[3%positive := [6 # 1000]%Q]> (<[4%positive := [2 # 10000]%Q]> ∅))).

Definition sample_mca : MeasMCA :=
  {| counts := 1; channels := 2; diff_nonlin := Some 3%positive; int_nonlin := Some 4%positive |}.

Definition bare_mca : MeasMCA :=
  {| counts := 1; channels := 2; diff_nonlin := None; int_nonlin := Some 4%positive |}.

Definition sample_seed : fit_result :=
  ([Fin 100; Fin 80; Fin 5], [[Fin 1; Fin 0; Fin 0]; [Fin 0; Fin 1; Fin 0]; [Fin 0; Fin 0; Fin 1]]).

Definition sample_curve_fit (func : unit) (x y : list Q) (p0 sigma : option (list Q))
  : string + fit_result := inr sample_seed.

(** A seed fit whose covariance has a NaN and no infinity. *)
Definition nan_curve_fit (func : unit) (x y : list Q) (p0 sigma : option (list Q))
  : string + fit_result := inr ([Fin 100; Fin 80; Fin 5], [[NaN]]).

(** A seed fit whose covariance could not be estimated. *)
Definition inf_curve_fit (func : unit) (x y : list Q) (p0 sigma : option (list Q))
  : string + fit_result := inr ([Fin 100; Fin 80; Fin 5], [[PosInf]]).

Definition sample_odr (func : unit) (x y : list Q) (sx sy : option (list Q))
    (beta0 : list fnum) : string + odr_output :=
  inr {| beta := [Fin 99; Fin 80; Fin 5]; cov_beta := [[Fin 1]] |}.

(** A refinement that gives no covariance. *)
Definition zero_odr (func : unit) (x y : list Q) (sx sy : option (list Q))
    (beta0 : list fnum) : string + odr_output :=
  inr {| beta := [Fin 99; Fin 80; Fin 5]; cov_beta := [[Fin 0; Fin 0]; [Fin 0; Fin 0]] |}.

Definition sample_subplots (nrows ncols : Z) : string + subplots_result unit :=
  inr (AxesGrid (replicate (Z.to_nat nrows) (replicate (Z.to_nat ncols) tt))).

(** 100 channels: the peak of height 100 at channel 8, close to the left
    end, and the one of height 40 at channel 80. *)
Definition low_primary : list Q :=
  (λ i, inject_Z (bump [100; 98; 92; 84; 73; 61; 49; 38; 28; 20; 14; 9; 6; 3; 2; 1] 8 i +
                  bump [40; 39; 37; 33; 29; 24; 19; 15; 11; 8; 5; 4; 2; 1; 1] 80 i))
    <$> seqZ 0 100.

(** 100 channels with one peak of height 60. *)
Definition peak_at (centre : Z) : list Q :=
  (λ i, inject_Z (bump [60; 55; 45; 30; 18; 9; 4; 1] centre i)) <$> seqZ 0 100.

(** Four spectra that differ, with the channels and nonlinearities of the
    sample. *)
Definition scan_heap : heap :=
  <[5%positive := peak_at 50]>
    (<[6%positive := peak_at 30]> (<[7%positive := peak_at 65]> sample_heap)).

Definition mca_at (l : positive) : MeasMCA :=
  {| counts := l; channels := 2; diff_nonlin := Some 3%positive; int_nonlin := Some 4%positive |}.

Definition scan_mcas : list MeasMCA :=
  [sample_mca; mca_at 5; mca_at 6; mca_at 7].

(** Solvers whose answer depends on what they are given: the seed fit
    answers its initial guess, the refinement answers the parameters it
    starts from, with the number of points as its covariance. *)
Definition echo_curve_fit (func : unit) (x y : list Q) (p0 sigma : option (list Q))
  : string + fit_result := inr (Fin <$> default [] p0, [[Fin 1]]).

Definition echo_odr (func : unit) (x y : list Q) (sx sy : option (list Q))
    (beta0 : list fnum) : string + odr_output :=
  inr {| beta := beta0; cov_beta := [[Fin (inject_Z (Z.of_nat (length x)))]] |}.

(** The fits of the four spectra with these solvers: by [fit_am], and by
    the single-peak [fit_fe]. *)
Definition scan_am_fits : list fit_result :=
  [([Fin 100; Fin 80; Fin ((4 # 10) * 5)], [[Fin 10]]);
   ([Fin 60; Fin 50; Fin ((4 # 10) * 2)], [[Fin 4]]);
   ([Fin 60; Fin 30; Fin ((4 # 10) * 2)], [[Fin 4]]);
   ([Fin 60; Fin 65; Fin ((4 # 10) * 2)], [[Fin 4]])].

Definition scan_fe_fits : list fe_result :=
  [Single ([Fin 100; Fin 80; Fin ((4 # 10) * 10)], [[Fin 18]]);
   Single ([Fin 60; Fin 50; Fin ((4 # 10) * 4)], [[Fin 7]]);
   Single ([Fin 60; Fin 30; Fin ((4 # 10) * 4)], [[Fin 7]]);
   Single ([Fin 60; Fin 65; Fin ((4 # 10) * 4)], [[Fin 7]])].

(** 20 channels with one narrow peak at channel 12: the primary cut starts
    at channel 10. *)
Definition near_left : list Q :=
  (λ i, inject_Z (bump [10; 6] 12 i)) <$> seqZ 0 20.

(** [plt.subplots] with its squeeze: a single Axes for one subplot, a row
    for one row or one column, a grid otherwise. *)
Definition squeezed_subplots (nrows ncols : Z) : string + subplots_result unit :=
  inr (if (nrows =? 1) && (ncols =? 1) then OneAxes tt
       else if (nrows =? 1) || (ncols =? 1)
            then AxesRow (replicate (Z.to_nat (nrows * ncols)) tt)
            else AxesGrid (replicate (Z.to_nat nrows) (replicate (Z.to_nat ncols) tt))).

Section Fitting.

(** The external collaborators: the models of [stats], matplotlib's Axes
    and [plt.subplots], and the two scipy solvers.  A solver is a function
    of its arguments that returns or raises. *)
Variable model : Type.
Variable gaussian_scaled : model.
Variable Axes : Type.
Variable subplots : Z → Z → string + subplots_result Axes.
Variable curve_fit :
  model → list Q → list Q → option (list Q) → option (list Q) → string + fit_result.
Variable odr_run :
  model → list Q → list Q → option (list Q) → option (list Q) → list fnum →
  string + odr_output.

Inductive event : Type :=
| Printed (s : string)
| CurveFit (func : model) (x y : list Q) (p0 sigma : option (list Q))
| OdrRun (func : model) (x y : list Q) (sx sy : option (list Q)) (beta0 : list fnum)
| OdrPPrint
| Vlines (ax : Axes) (x0 x1 : Z) (ymax : Q)
| PlotFit (ax : Axes) (chan : list Q) (params : list (list fnum))
| PlotCounts (ax : Axes) (c : list Q)
| AxLimits (ax : Axes) (xmax ymax : Q)
| AxText (ax : Axes) (v g : Q)
| AxLabel (ax : Axes) (what : string)
| DelAxes (ax : Axes)
| Suptitle (s : string)
| SaveFig (name : string).

(** *** The monad *)

Definition M (A : Type) : Type := heap → heap * list event * res A.

Definition M_ret {A} (a : A) : M A := λ h, (h, [], inr a).

Definition M_bind {A B} (f : A → M B) (m : M A) : M B := λ h,
  match m h with
  | (h1, ev1, inl e) => (h1, ev1, inl e)
  | (h1, ev1, inr a) =>
      match f a h1 with
      | (h2, ev2, r) => (h2, ev1 ++ ev2, r)
      end
  end.

#[local] Instance M_mret : MRet M := @M_ret.
#[local] Instance M_mbind : MBind M := @M_bind.

Definition raise {A} (e : exn) : M A := λ h, (h, [], inl e).
Definition lift {A} (r : res A) : M A := λ h, (h, [], r).
Definition emit (ev : event) : M unit := λ h, (h, [ev], inr tt).

Definition read (l : loc) : M (list Q) := λ h,
  match h !! l with
  | Some a => (h, [], inr a)
  | None => (h, [], inl UnboundArray)
  end.

(** A new array: a reference that the store does not have yet. *)
Definition alloc (a : list Q) : M loc := λ h,
  let l := fresh (dom h) in (<[l := a]> h, [], inr l).

Definition write (l : loc) (a : list Q) : M unit := λ h,
  match h !! l with
  | Some _ => (<[l := a]> h, [], inr tt)
  | None => (h, [], inl UnboundArray)
  end.

Definition when (b : bool) (m : M unit) : M unit := if b then m else mret tt.

(** [a.copy()] and [a[:k] = 0] *)
Definition np_copy (l : loc) : M loc := a ← read l; alloc a.
Definition np_zero_to (l : loc) (k : Z) : M unit := a ← read l; write l (zero_to a k).

Definition library {A} (r : string + A) : res A :=
  match r with inl msg => inl (LibraryError msg) | inr a => inr a end.

(** *** The two-stage fitter (fitting.py, lines 284-318) *)

Definition fit_odr (func : model) (x y : list Q) (std_x std_y p0 : option (list Q))
    (debug : bool) : M fit_result :=
  emit (CurveFit func x y p0 std_y);;
  fit ← lift (library (curve_fit func x y p0 std_y));
  when (np_any_bool (np_isinf fit.2)) (emit (Printed lsq_warning));;
  emit (OdrRun func x y std_x std_y fit.1);;
  out ← lift (library (odr_run func x y std_x std_y fit.1));
  when debug (emit OdrPPrint);;
  let coeff := beta out in
  let coeff_covar := cov_beta out in
  if negb (np_any coeff_covar) then
    emit (Printed odr_warning);;
    mret (fit.1, fit.2)
  else mret (coeff, coeff_covar).

(** *** The Gaussian fit of a window (fitting.py, lines 321-337) *)

Definition fit_mca_gaussian (mca : MeasMCA) (inds : list Z) (cnts : list Q)
    (peak : Q) (peak_ind threshold_width : Z) : M fit_result :=
  match diff_nonlin mca, int_nonlin mca with
  | Some ldx, Some liy =>
      dx ← read ldx;
      iy ← read liy;
      sy ← lift (np_mul iy cnts);
      fit_odr gaussian_scaled (inject_Z <$> inds) cnts (Some dx) (Some sy)
        (Some [peak; inject_Z peak_ind; ((4 # 10) * inject_Z threshold_width)%Q]) false
  | _, _ => raise nonlin_error
  end.

Definition source (mca : MeasMCA) (subtracted : option loc) : loc :=
  match subtracted with Some s => s | None => counts mca end.

(** [ax.vlines((cut_inds[0], cut_inds[-1]), ymin=0, ymax=peak, ...)] *)
Definition draw_cut (ax : Axes) (cut_inds : list Z) (peak : Q) : M unit :=
  c0 ← lift (py_index cut_inds 0);
  c1 ← lift (py_index cut_inds (-1));
  emit (Vlines ax c0 c1 peak).

(** [ax.plot(mca.channels, fit[0][0] * stats.gaussian(mca.channels, *fit[0][1:]))] *)
Definition plot_gaussians (mca : MeasMCA) (ax : Axes) (fits : list fit_result) : M unit :=
  ch ← read (channels mca);
  _ ← lift (mapM (λ fit : fit_result, py_index fit.1 0) fits);
  emit (PlotFit ax ch (fst <$> fits)).

(** *** The spectrum fits (fitting.py, lines 77-113, 147-192, 252-281) *)

Definition fit_am (mca : MeasMCA) (ax : Axes) (threshold_level cut_width_mult : Q)
    (subtracted : option loc) (vlines : bool) : M fit_result :=
  let cnts := source mca subtracted in
  c ← read cnts;
  peak ← lift (np_max c);
  let above_threshold := np_where (λ v, Qltb (threshold_level * peak) v) c in
  a0 ← lift (py_index above_threshold 0);
  a1 ← lift (py_index above_threshold (-1));
  let half_ind := (a0 + a1) `div` 2 in
  filtered ← np_copy cnts;
  np_zero_to filtered half_ind;;
  f ← read filtered;
  '(cut_inds, threshold_width, peak_ind, peak) ← lift (get_cut f threshold_level cut_width_mult);
  when vlines (draw_cut ax cut_inds peak);;
  c ← read cnts;
  window ← lift (np_take c cut_inds);
  fit ← fit_mca_gaussian mca cut_inds window peak peak_ind threshold_width;
  ch ← read (channels mca);
  emit (PlotFit ax ch [fit.1]);;
  mret fit.

Definition fit_fe (mca : MeasMCA) (ax : Axes) (threshold_level cut_width_mult : Q)
    (secondary : bool) (subtracted : option loc) (vlines : bool) : M fe_result :=
  let cnts := source mca subtracted in
  c ← read cnts;
  '(cut_inds, threshold_width, peak_ind, peak) ← lift (get_cut c threshold_level cut_width_mult);
  window ← lift (np_take c cut_inds);
  fit ← fit_mca_gaussian mca cut_inds window peak peak_ind threshold_width;
  if negb secondary then
    plot_gaussians mca ax [fit];;
    mret (Single fit)
  else
    c ← read cnts;
    left ← lift (secondary_window c cut_inds);
    '(cut_inds2, threshold_width2, peak_ind2, peak2) ←
      lift (get_cut left threshold_level cut_width_mult);
    when vlines (draw_cut ax cut_inds2 peak);;
    window2 ← lift (np_take c cut_inds2);
    fit2 ← fit_mca_gaussian mca cut_inds2 window2 peak2 peak_ind2 threshold_width2;
    plot_gaussians mca ax [fit; fit2];;
    mret (Dual fit fit2).

Definition fit_manual (mca : MeasMCA) (ax : Axes) (min_ind max_ind : Z)
    (subtracted : option loc) (vlines : bool) : M fit_result :=
  let cnts := source mca subtracted in
  c ← read cnts;
  let cut_inds := np_arange min_ind max_ind in
  window ← lift (np_take c cut_inds);
  am ← lift (np_argmax window);
  let peak_ind := min_ind + am in
  peak ← lift (py_index c peak_ind);
  let threshold_width := max_ind - min_ind in
  when vlines (draw_cut ax cut_inds peak);;
  window ← lift (np_take c cut_inds);
  fit ← fit_mca_gaussian mca cut_inds window peak peak_ind threshold_width;
  plot_gaussians mca ax [fit];;
  mret fit.

(** *** The subplot grid (fitting.py, lines 30-58), with the default
    aspect ratio 1 and the axis labels that the scans pass *)

Definition flatten_axes (axes : subplots_result Axes) : res (list Axes) :=
  match axes with
  | AxesGrid rows => inr (concat rows)
  | AxesRow [] => inr []
  | _ => inl (TypeError "'Axes' object is not iterable")
  end.

Fixpoint label_axes (num_plots num_plots_x i : Z) (axes_flat : list Axes) : M unit :=
  match axes_flat with
  | [] => mret tt
  | ax :: rest =>
      emit (AxLabel ax (if num_plots - i <=? num_plots_x then "xlabel" else "no xticks"));;
      emit (AxLabel ax (if i `mod` num_plots_x =? 0 then "ylabel" else "no yticks"));;
      label_axes num_plots num_plots_x (i + 1) rest
  end.

Definition create_subplot_grid (num_plots : Z) : M (list Axes * Z * Z) :=
  let num_plots_x := Z.sqrt num_plots in
  if num_plots_x =? 0 then raise ZeroDivisionError
  else
    let num_plots_y := (num_plots + num_plots_x - 1) `div` num_plots_x in
    axes ← lift (library (subplots num_plots_y num_plots_x));
    axes_flat ← lift (flatten_axes axes);
    mapM (λ ax, emit (DelAxes ax)) (py_slice_from axes_flat num_plots);;
    label_axes num_plots num_plots_x 0 axes_flat;;
    mret (axes_flat, num_plots_x, num_plots_y).

(** *** The HV scans (fitting.py, lines 116-144 and 195-249) *)

(** The common vertical and horizontal limits of the subplots. *)
Definition scan_limits (mcas : list MeasMCA) : M (Q * Q) :=
  heights ← mapM (λ mca, c ← read (counts mca); lift (np_max c)) mcas;
  max_peak_height ← lift (np_max heights);
  lasts ← mapM (λ mca, ch ← read (channels mca); lift (py_index ch (-1))) mcas;
  max_ch ← lift (np_max lasts);
  let y_adjust_step := 50%Q in
  let max_peak_height_round :=
    (y_adjust_step * inject_Z (Qceiling (max_peak_height / y_adjust_step)))%Q in
  mret (max_ch, max_peak_height_round).

(** The head of the loop body: the subplot of spectrum [i]. *)
Definition scan_axes (axes : list Axes) (voltages gains : list Q) (max_ch ymax : Q)
    (i : Z) (mca : MeasMCA) : M Axes :=
  ax ← lift (py_index axes i);
  c ← read (counts mca);
  emit (PlotCounts ax c);;
  emit (AxLimits ax max_ch ymax);;
  v ← lift (py_index voltages i);
  g ← lift (py_index gains i);
  emit (AxText ax v g);;
  mret ax.

(** [for i, mca in enumerate(mcas): ... fits.append(fit)] *)
Fixpoint scan_loop {A} (body : Z → MeasMCA → M A) (i : Z) (mcas : list MeasMCA)
    (fits : list A) : M (list A) :=
  match mcas with
  | [] => mret fits
  | mca :: rest =>
      fit ← body i mca;
      scan_loop body (i + 1) rest (fits ++ [fit])
  end.

Definition fit_am_hv_scan (mcas : list MeasMCA) (voltages gains : list Q)
    (fig_titles vlines : bool) : M (list fit_result) :=
  emit (Printed "Fitting Am HV scan");;
  '(axes, _, _) ← create_subplot_grid (Z.of_nat (length mcas));
  when fig_titles (emit (Suptitle "Am fits"));;
  '(max_ch, ymax) ← scan_limits mcas;
  fits ← scan_loop
    (λ i mca,
       ax ← scan_axes axes voltages gains max_ch ymax i mca;
       fit_am mca ax THRESHOLD_LEVEL CUT_WIDTH_MULT None vlines)
    0 mcas [];
  emit (SaveFig "am_scan_fits");;
  mret fits.

Definition fit_fe_hv_scan (mcas : list MeasMCA) (voltages gains : list Q)
    (threshold_level cut_width_mult : Q) (fig_titles vlines : bool) : M (list fe_result) :=
  emit (Printed "Fitting Fe HV scan");;
  '(axes, _, _) ← create_subplot_grid (Z.of_nat (length mcas));
  when fig_titles (emit (Suptitle "Fe fits"));;
  '(max_ch, ymax) ← scan_limits mcas;
  fits ← scan_loop
    (λ i mca,
       ax ← scan_axes axes voltages gains max_ch ymax i mca;
       fit_fe mca ax threshold_level cut_width_mult false None vlines)
    0 mcas [];
  emit (SaveFig "fe_scan_fits");;
  mret fits.


(** *** Observing a run *)

Definition heap_of {A} (x : heap * list event * res A) : heap := x.1.1.
Definition events_of {A} (x : heap * list event * res A) : list event := x.1.2.
Definition result_of {A} (x : heap * list event * res A) : res A := x.2.

(** The computation leaves the store as it found it. *)
Definition readonly {A} (m : M A) : Prop := ∀ h, heap_of (m h) = h.

(** The computation leaves every array of the store it is given as it is:
    the store it returns has at least the same arrays, each with the same
    contents. *)
Definition frame {A} (m : M A) : Prop := ∀ h, h ⊆ heap_of (m h).

(** A Hoare triple over the stores that extend [h0]: the computation keeps
    every array of [h0] as it is, emits only events that satisfy [Ev], and
    a value it returns satisfies [Post]. *)
Definition triple {A} (h0 : heap) (m : M A) (Ev : event → Prop) (Post : A → Prop) : Prop :=
  ∀ h, h0 ⊆ h →
    h0 ⊆ heap_of (m h) ∧
    Forall Ev (events_of (m h)) ∧
    ∀ a, result_of (m h) = inr a → Post a.

Definition is_curve_fit (ev : event) : Prop :=
  match ev with CurveFit _ _ _ _ _ => True | _ => False end.

(** Every seed fit is made on a window of the array [cnts] as the store
    [h0] has it: its [x] is an index array and its [y] is that array at
    those indices. *)
Definition window_of (h0 : heap) (cnts : loc) (ev : event) : Prop :=
  match ev with
  | CurveFit _ x y _ _ =>
      ∀ c, h0 !! cnts = Some c → ∃ cut, x = inject_Z <$> cut ∧ np_take c cut = inr y
  | _ => True
  end.

(** Two stores hold the arrays [L], with the same contents. *)
Definition same_on (L : list loc) (h1 h2 : heap) : Prop :=
  ∀ l, l ∈ L → is_Some (h1 !! l) ∧ h1 !! l = h2 !! l.

(** Two computations give the same result (value or exception) whenever
    they are run on stores that agree on [L], and leave stores that agree
    on [L]. *)
Definition agree {A} (L : list loc) (m1 m2 : M A) : Prop :=
  ∀ h1 h2, same_on L h1 h2 →
    result_of (m1 h1) = result_of (m2 h2) ∧
    same_on L (heap_of (m1 h1)) (heap_of (m2 h2)).

(** The arrays of a spectrum. *)
Definition mca_locs (mca : MeasMCA) : list loc :=
  counts mca :: channels mca ::
  option_list (diff_nonlin mca) ++ option_list (int_nonlin mca).

(** The spectrum is in the store: each of its arrays is. *)
Definition stored (h : heap) (mca : MeasMCA) : Prop :=
  ∀ l, l ∈ mca_locs mca → is_Some (h !! l).

(** The shape that the two scans share: the banner, the grid of subplots,
    the common limits, the loop over the spectra with the single fit [fit],
    the saved figure. *)
Definition hv_scan {A} (banner title name : string) (fit : MeasMCA → Axes → M A)
    (mcas : list MeasMCA) (voltages gains : list Q) (fig_titles : bool) : M (list A) :=
  emit (Printed banner);;
  '(axes, _, _) ← create_subplot_grid (Z.of_nat (length mcas));
  when fig_titles (emit (Suptitle title));;
  '(max_ch, ymax) ← scan_limits mcas;
  fits ← scan_loop
    (λ i mca,
       ax ← scan_axes axes voltages gains max_ch ymax i mca;
       fit mca ax)
    0 mcas [];
  emit (SaveFig name);;
  mret fits.

(** What the head of the loop body looks up for spectrum [j]: its subplot,
    its voltage and its gain. *)
Definition scan_index (axes : list Axes) (voltages gains : list Q) (j : Z) : res Axes :=
  ax ← py_index axes j;
  _ ← py_index voltages j;
  _ ← py_index gains j;
  mret ax.

(** [a] is what the single fit of [mca] returns, on every subplot and on
    every store that has the arrays of [mca] as [h] has them, whatever else
    that store holds. *)
Definition fit_of {A} (fit : MeasMCA → Axes → M A) (h : heap) (mca : MeasMCA) (a : A) : Prop :=
  ∀ ax h', same_on (mca_locs mca) h h' → result_of (fit mca ax h') = inr a.

Definition am_fit_of (h : heap) (vlines : bool) : MeasMCA → fit_result → Prop :=
  fit_of (λ mca ax, fit_am mca ax THRESHOLD_LEVEL CUT_WIDTH_MULT None vlines) h.

Definition fe_fit_of (h : heap) (vlines : bool) (t m : Q) : MeasMCA → fe_result → Prop :=
  fit_of (λ mca ax, fit_fe mca ax t m false None vlines) h.

(** Some entry of the matrix is infinite; every entry is a zero. *)
Definition any_inf (cov : matrix) : Prop :=
  ∃ row e, row ∈ cov ∧ e ∈ row ∧ (e = PosInf ∨ e = NegInf).

Definition all_zero (cov : matrix) : Prop :=
  ∀ row e, row ∈ cov → e ∈ row → ∃ q, e = Fin q ∧ (q == 0)%Q.

(** *** What the seed fits are given *)

(** A seed fit of [fit_manual] on the counts [c]: the scaled Gaussian on
    the channels [min_ind .. max_ind - 1], with the counts of those channels,
    started at the highest count of the range, at its channel, and at 0.4
    times the width of the range. *)
Definition manual_seed (c : list Q) (min_ind max_ind : Z) (ev : event) : Prop :=
  match ev with
  | CurveFit func x y p0 _ =>
      func = gaussian_scaled ∧
      x = inject_Z <$> np_arange min_ind max_ind ∧
      y = take (Z.to_nat (max_ind - min_ind)) (drop (Z.to_nat min_ind) c) ∧
      ∃ peak peak_ind,
        p0 = Some [peak; inject_Z peak_ind; ((4 # 10) * inject_Z (max_ind - min_ind))%Q] ∧
        min_ind ≤ peak_ind < max_ind ∧
        c !! Z.to_nat peak_ind = Some peak ∧
        ∀ v, v ∈ y → (v <= peak)%Q
  | _ => True
  end.

(** A seed fit of [fit_am] on the counts [c]: its centre is not to the left
    of the midpoint of the first and the last channel above the threshold. *)
Definition am_seed (c : list Q) (t : Q) (ev : event) : Prop :=
  match ev with
  | CurveFit _ _ _ p0 _ =>
      ∃ peak a0 a1 pk peak_ind w,
        np_max c = inr peak ∧
        head (np_where (λ v, Qltb (t * peak) v) c) = Some a0 ∧
        last (np_where (λ v, Qltb (t * peak) v) c) = Some a1 ∧
        p0 = Some [pk; inject_Z peak_ind; w] ∧
        (a0 + a1) `div` 2 ≤ peak_ind
  | _ => True
  end.

(** A call of a solver. *)
Definition is_solver_call (ev : event) : Prop :=
  match ev with CurveFit _ _ _ _ _ | OdrRun _ _ _ _ _ _ => True | _ => False end.

(** ** Comparisons, indexing and rounding *)

Lemma Qltb_lt (x y : Q) : Qltb x y = true ↔ (x < y)%Q.
Proof.
  unfold Qltb. rewrite negb_true_iff, <- not_true_iff_false, Qle_bool_iff.
  split; [apply Qnot_le_lt | apply Qlt_not_le].
Qed.

Lemma Qltb_ge (x y : Q) : Qltb x y = false ↔ (y <= x)%Q.
Proof.
  unfold Qltb. rewrite negb_false_iff. apply Qle_bool_iff.
Qed.

Lemma py_index_nonneg {A} (l : list A) (i : Z) (v : A) :
  0 ≤ i → py_index l i = inr v ↔ l !! Z.to_nat i = Some v.
Proof.
  intros Hi. unfold py_index.
  destruct (Z.ltb_spec i 0); [lia|].
  destruct (Z.leb_spec 0 i); [|lia].
  destruct (l !! Z.to_nat i); split; intros; simplify_eq; done.
Qed.

Lemma py_index_first {A} (l : list A) (v : A) :
  py_index l 0 = inr v ↔ head l = Some v.
Proof. rewrite py_index_nonneg by lia. by rewrite head_lookup. Qed.

Lemma py_index_last {A} (l : list A) (v : A) :
  py_index l (-1) = inr v ↔ last l = Some v.
Proof.
  unfold py_index. rewrite last_lookup. cbn [Z.ltb Z.compare].
  destruct l as [|a l].
  - cbn. split; intros; simplify_eq.
  - destruct (Z.leb_spec 0 (Z.of_nat (length (a :: l)) + -1)) as [_|H];
      [|cbn [length] in H; lia].
    replace (Z.to_nat (Z.of_nat (length (a :: l)) + -1)) with (pred (length (a :: l)))
      by (cbn [length]; lia).
    destruct ((a :: l) !! pred (length (a :: l))); split; intros; simplify_eq; done.
Qed.

Lemma py_index_empty {A} (i : Z) :
  py_index (@nil A) i = inl (IndexError "index out of bounds").
Proof.
  unfold py_index. rewrite lookup_nil. by destruct (0 <=? _).
Qed.

Lemma py_round_cases (x : Q) :
  let f := Qfloor x in
  (py_round x = f ∧ (x - inject_Z f <= 1 # 2)%Q) ∨
  (py_round x = f + 1 ∧ (1 # 2 <= x - inject_Z f)%Q).
Proof.
  intros f. unfold py_round. fold f.
  destruct (Qcompare_spec (x - inject_Z f) (1 # 2)) as [He|Hl|Hg].
  - destruct (Z.even f); [left|right]; split; try done; rewrite He; lra.
  - left. split; [done|lra].
  - right. split; [done|lra].
Qed.

Lemma py_round_Z (z : Z) : py_round (inject_Z z) = z.
Proof.
  unfold py_round. rewrite Qfloor_Z.
  destruct (Qcompare_spec (inject_Z z - inject_Z z) (1 # 2)) as [He|Hl|Hg];
    [lra|done|lra].
Qed.

Lemma py_round_mono (x y : Q) : (x <= y)%Q → py_round x ≤ py_round y.
Proof.
  intros Hxy.
  pose proof (Qfloor_resp_le _ _ Hxy) as Hf.
  destruct (decide (Qfloor x = Qfloor y)) as [Heq|Hne].
  - unfold py_round. rewrite <- Heq.
    destruct (Qcompare_spec (x - inject_Z (Qfloor x)) (1 # 2)) as [He|Hl|Hg];
      destruct (Qcompare_spec (y - inject_Z (Qfloor x)) (1 # 2)) as [He'|Hl'|Hg'];
      try destruct (Z.even (Qfloor x)); try lia; lra.
  - destruct (py_round_cases x) as [[-> _]|[-> _]], (py_round_cases y) as [[-> _]|[-> _]];
      lia.
Qed.

Lemma py_max0_spec (x : Q) : (0 <= py_max0 x)%Q ∧ (x <= py_max0 x)%Q ∧
  (py_max0 x = x ∨ py_max0 x = 0%Q).
Proof.
  unfold py_max0. destruct (Qltb 0 x) eqn:E.
  - apply Qltb_lt in E. repeat split; [lra|lra|by left].
  - apply Qltb_ge in E. repeat split; [lra|lra|by right].
Qed.

Lemma py_max0_mono (x y : Q) : (x <= y)%Q → (py_max0 x <= py_max0 y)%Q.
Proof.
  intros H. unfold py_max0.
  destruct (Qltb 0 x) eqn:E1, (Qltb 0 y) eqn:E2;
    rewrite ?Qltb_lt, ?Qltb_ge in *; lra.
Qed.

Lemma py_min_spec (n : Z) (x : Q) : (py_min n x <= inject_Z n)%Q ∧ (py_min n x <= x)%Q ∧
  (py_min n x = x ∨ py_min n x = inject_Z n).
Proof.
  unfold py_min. destruct (Qltb x (inject_Z n)) eqn:E.
  - apply Qltb_lt in E. repeat split; [lra|lra|by left].
  - apply Qltb_ge in E. repeat split; [lra|lra|by right].
Qed.

Lemma py_min_mono (n : Z) (x y : Q) : (x <= y)%Q → (py_min n x <= py_min n y)%Q.
Proof.
  intros H. unfold py_min.
  destruct (Qltb x (inject_Z n)) eqn:E1, (Qltb y (inject_Z n)) eqn:E2;
    rewrite ?Qltb_lt, ?Qltb_ge in *; lra.
Qed.

(** ** [np.argmax] and [np.where] *)

Lemma argmax_from_spec (l : list Q) (i best_i : Z) (best : Q) :
  ∃ pk, (best <= pk)%Q ∧ (∀ w, w ∈ l → (w <= pk)%Q) ∧
    ((argmax_from l i best_i best = best_i ∧ pk = best) ∨
     (∃ k, argmax_from l i best_i best = i + Z.of_nat k ∧ l !! k = Some pk ∧
           (best < pk)%Q ∧ ∀ j w, (j < k)%nat → l !! j = Some w → (w < pk)%Q)).
Proof.
  revert i best_i best. induction l as [|v l IH]; intros i best_i best.
  - exists best. split; [lra|]. split; [intros w Hw; inversion Hw|by left].
  - cbn [argmax_from]. destruct (Qltb best v) eqn:E.
    + apply Qltb_lt in E.
      destruct (IH (i + 1) i v) as (pk & Hb & Hall & Hcase).
      exists pk. split; [lra|]. split.
      { intros w [->|Hw]%elem_of_cons; [done|by apply Hall]. }
      right. destruct Hcase as [[-> ->]|(k & -> & Hk & Hlt & Hfirst)].
      * exists 0%nat. split; [lia|]. split; [done|]. split; [done|]. intros; lia.
      * exists (S k). split; [lia|]. split; [done|]. split; [lra|].
        intros [|j] w Hj Hw; cbn in Hw; simplify_eq; [lra|]. eapply Hfirst; [|done]. lia.
    + apply Qltb_ge in E.
      destruct (IH (i + 1) best_i best) as (pk & Hb & Hall & Hcase).
      exists pk. split; [done|]. split.
      { intros w [->|Hw]%elem_of_cons; [lra|by apply Hall]. }
      destruct Hcase as [[-> ->]|(k & -> & Hk & Hlt & Hfirst)]; [by left|right].
      exists (S k). split; [lia|]. split; [done|]. split; [done|].
      intros [|j] w Hj Hw; cbn in Hw; simplify_eq; [lra|]. eapply Hfirst; [|done]. lia.
Qed.

(** [np.argmax] gives the first index at which the maximum is attained. *)
Lemma np_argmax_spec (data : list Q) (p : Z) :
  np_argmax data = inr p →
  ∃ k pk, p = Z.of_nat k ∧ data !! k = Some pk ∧
    (∀ w, w ∈ data → (w <= pk)%Q) ∧
    (∀ j w, (j < k)%nat → data !! j = Some w → (w < pk)%Q).
Proof.
  destruct data as [|v l]; [done|]. cbn [np_argmax]. intros [= <-].
  destruct (argmax_from_spec l 1 0 v) as (pk & Hb & Hall & Hcase).
  destruct Hcase as [[-> ->]|(k & -> & Hk & Hlt & Hfirst)].
  - exists 0%nat, v. split; [done|]. split; [done|]. split.
    + intros w [->|Hw]%elem_of_cons; [lra|by apply Hall].
    + intros; lia.
  - exists (S k), pk. split; [lia|]. split; [done|]. split.
    + intros w [->|Hw]%elem_of_cons; [lra|by apply Hall].
    + intros [|j] w Hj Hw; cbn in Hw; simplify_eq; [done|]. eapply Hfirst; [|done]. lia.
Qed.

Lemma np_argmax_nonempty (data : list Q) :
  data ≠ [] → ∃ p, np_argmax data = inr p.
Proof. destruct data; [done|]. intros _. eexists. reflexivity. Qed.

Lemma where_from_spec (f : Q → bool) (l : list Q) (i x : Z) :
  x ∈ where_from f l i ↔ ∃ k v, x = i + Z.of_nat k ∧ l !! k = Some v ∧ f v = true.
Proof.
  revert i. induction l as [|v l IH]; intros i; cbn [where_from].
  - split; [intros H; inversion H|intros (k & w & _ & H & _); by rewrite lookup_nil in H].
  - assert (x ∈ where_from f l (i + 1) ↔
            ∃ k w, x = i + Z.of_nat (S k) ∧ (v :: l) !! S k = Some w ∧ f w = true) as Htl.
    { rewrite IH. split; intros (k & w & -> & ? & ?); exists k, w; split_and!; try done; lia. }
    destruct (f v) eqn:E.
    + rewrite elem_of_cons, Htl. split.
      * intros [->|(k & w & ? & ? & ?)]; [exists 0%nat, v|exists (S k), w];
          split_and!; try done; lia.
      * intros ([|k] & w & -> & Hk & Hw); [left; lia|right; by exists k, w].
    + rewrite Htl. split.
      * intros (k & w & ? & ? & ?). by exists (S k), w.
      * intros ([|k] & w & -> & Hk & Hw); [cbn in Hk; congruence|by exists k, w].
Qed.

Lemma where_from_head (f : Q → bool) (l : list Q) (i a : Z) :
  head (where_from f l i) = Some a →
  a ∈ where_from f l i ∧ ∀ x, x ∈ where_from f l i → a ≤ x.
Proof.
  revert i. induction l as [|v l IH]; intros i; cbn [where_from]; [done|].
  destruct (f v).
  - cbn. intros [= ->]. split; [by left|].
    intros x [->|Hx]%elem_of_cons; [lia|].
    apply where_from_spec in Hx as (k & _ & -> & _). lia.
  - apply IH.
Qed.

Lemma where_from_last (f : Q → bool) (l : list Q) (i z : Z) :
  last (where_from f l i) = Some z →
  z ∈ where_from f l i ∧ ∀ x, x ∈ where_from f l i → x ≤ z.
Proof.
  revert i. induction l as [|v l IH]; intros i; cbn [where_from]; [done|].
  destruct (f v); [|apply IH].
  destruct (where_from f l (i + 1)) as [|b r] eqn:E.
  - cbn. intros [= ->]. split; [by left|]. by intros x ->%list_elem_of_singleton.
  - rewrite last_cons_cons. rewrite <- E. intros Hz.
    destruct (IH _ Hz) as [Hin Hmax]. split; [by right|].
    intros x [->|Hx]%elem_of_cons; [|by apply Hmax].
    apply where_from_spec in Hin as (k & _ & -> & _). lia.
Qed.

(** ** The cut extractor *)

(** What a returned cut is made of. *)
Lemma get_cut_inv (data : list Q) (t m : Q) cut tw p peak :
  get_cut data t m = inr (cut, tw, p, peak) →
  ∃ first last_,
    np_argmax data = inr p ∧ data !! Z.to_nat p = Some peak ∧
    0 ≤ p < Z.of_nat (length data) ∧
    head (np_where (λ v, Qltb (peak * t) v) data) = Some first ∧
    last (np_where (λ v, Qltb (peak * t) v) data) = Some last_ ∧
    tw = last_ - first ∧
    cut = np_arange (cut_ind_min p first m) (cut_ind_max (Z.of_nat (length data)) p last_ m).
Proof.
  unfold get_cut. intros H.
  destruct (np_argmax data) as [e|p'] eqn:Hp; [done|]. cbn in H.
  destruct (np_argmax_spec _ _ Hp) as (k & pk & -> & Hk & _).
  assert (py_index data (Z.of_nat k) = inr pk) as Hpk.
  { apply py_index_nonneg; [lia|]. by rewrite Nat2Z.id. }
  rewrite Hpk in H. cbn in H.
  destruct (py_index _ (-1)) as [e|z] eqn:Hz; [done|]. cbn in H.
  destruct (py_index _ 0) as [e|a] eqn:Ha; [done|]. cbn in H.
  injection H as <- <- <- <-.
  exists a, z. rewrite Nat2Z.id.
  apply py_index_last in Hz. apply py_index_first in Ha.
  apply lookup_lt_Some in Hk as Hlt.
  split_and!; try done; lia.
Qed.

(** A cut is returned as soon as some channel is above the threshold. *)
Lemma get_cut_returns (data : list Q) (t m : Q) p peak x :
  np_argmax data = inr p → data !! Z.to_nat p = Some peak →
  x ∈ np_where (λ v, Qltb (peak * t) v) data →
  ∃ cut tw, get_cut data t m = inr (cut, tw, p, peak).
Proof.
  intros Hp Hpk Hx. unfold get_cut. rewrite Hp. cbn.
  destruct (np_argmax_spec _ _ Hp) as (k & pk & -> & Hk & _).
  rewrite Nat2Z.id in Hpk.
  assert (py_index data (Z.of_nat k) = inr peak) as ->.
  { apply py_index_nonneg; [lia|]. by rewrite Nat2Z.id. }
  cbn.
  destruct (np_where _ data) as [|a r] eqn:E; [inversion Hx|].
  assert (∃ z, last (a :: r) = Some z) as [z Hz].
  { destruct (last (a :: r)) eqn:El; [by eexists|]. by apply last_None in El. }
  apply py_index_last in Hz. rewrite Hz. cbn.
  assert (py_index (a :: r) 0 = inr a) as -> by (by apply py_index_first).
  cbn. by eexists _, _.
Qed.

(** The peak is above the threshold whenever any channel is, so it lies
    between the first and the last threshold crossing. *)
Lemma threshold_inds_around_peak (data : list Q) (t : Q) p peak first last_ :
  np_argmax data = inr p → data !! Z.to_nat p = Some peak →
  head (np_where (λ v, Qltb (peak * t) v) data) = Some first →
  last (np_where (λ v, Qltb (peak * t) v) data) = Some last_ →
  0 ≤ first ∧ first ≤ p ∧ p ≤ last_ ∧ last_ < Z.of_nat (length data).
Proof.
  intros Hp Hpk Hfirst Hlast.
  destruct (np_argmax_spec _ _ Hp) as (k & pk & -> & Hk & Hmax & _).
  rewrite Nat2Z.id in Hpk. assert (peak = pk) as -> by congruence. clear Hpk.
  apply where_from_head in Hfirst as [Hin1 Hmin].
  apply where_from_last in Hlast as [Hin2 Hmax2].
  assert (Z.of_nat k ∈ np_where (λ v, Qltb (pk * t) v) data) as Hin.
  { apply where_from_spec in Hin1 as (j & v & _ & Hj & Hv).
    apply where_from_spec. exists k, pk. split; [lia|]. split; [done|].
    apply Qltb_lt. apply Qltb_lt in Hv.
    assert (v <= pk)%Q by (apply Hmax; by eapply list_elem_of_lookup_2). lra. }
  apply where_from_spec in Hin1 as (j1 & _ & -> & _ & _).
  apply where_from_spec in Hin2 as (j2 & v2 & -> & Hj2 & _).
  apply lookup_lt_Some in Hj2.
  specialize (Hmin _ Hin). specialize (Hmax2 _ Hin). lia.
Qed.

Lemma cut_bounds (size p first last_ : Z) (m : Q) :
  first ≤ p → p ≤ last_ → 0 ≤ p < size → (0 <= m)%Q →
  0 ≤ cut_ind_min p first m ≤ p ∧ p + 1 ≤ cut_ind_max size p last_ m ≤ size.
Proof.
  intros Hf Hl Hp Hm. unfold cut_ind_min, cut_ind_max.
  assert (0 <= inject_Z (p - first))%Q as H1 by (rewrite <- (Zle_Qle 0); lia).
  assert (0 <= inject_Z (last_ - p))%Q as H2 by (rewrite <- (Zle_Qle 0); lia).
  assert (0 <= inject_Z p)%Q as H3 by (rewrite <- (Zle_Qle 0); lia).
  assert (inject_Z (p + 1) <= inject_Z size)%Q as H4 by (rewrite <- Zle_Qle; lia).
  rewrite inject_Z_plus in H4.
  pose proof (Qmult_le_0_compat _ _ Hm H1) as H5.
  pose proof (Qmult_le_0_compat _ _ Hm H2) as H6.
  split; split.
  - rewrite <- (py_round_Z 0). apply py_round_mono, py_max0_spec.
  - apply Z.le_trans with (py_round (inject_Z p)); [|by rewrite py_round_Z].
    apply py_round_mono.
    destruct (py_max0_spec (inject_Z p - m * inject_Z (p - first))) as (_ & _ & [->| ->]);
      lra.
  - rewrite <- (py_round_Z (p + 1)). apply py_round_mono. rewrite inject_Z_plus.
    destruct (py_min_spec size (inject_Z p + m * inject_Z (last_ - p) + 1))
      as (_ & _ & [->| ->]); [|done].
    change (inject_Z 1) with 1%Q. lra.
  - apply Z.le_trans with (py_round (inject_Z size)); [|by rewrite py_round_Z].
    apply py_round_mono, py_min_spec.
Qed.

Lemma cut_widening (size p first last_ : Z) (m1 m2 : Q) :
  first ≤ p → p ≤ last_ → (m1 <= m2)%Q →
  cut_ind_min p first m2 ≤ cut_ind_min p first m1 ∧
  cut_ind_max size p last_ m1 ≤ cut_ind_max size p last_ m2.
Proof.
  intros Hf Hl Hm. unfold cut_ind_min, cut_ind_max.
  assert (0 <= inject_Z (p - first))%Q as H1 by (rewrite <- (Zle_Qle 0); lia).
  assert (0 <= inject_Z (last_ - p))%Q as H2 by (rewrite <- (Zle_Qle 0); lia).
  split; apply py_round_mono; [apply py_max0_mono|apply py_min_mono]; nra.
Qed.

(** The bounds of a cut are inside the array, whatever the multiplier. *)
Lemma cut_within (size p first last_ : Z) (m : Q) :
  0 ≤ size → 0 ≤ cut_ind_min p first m ∧ cut_ind_max size p last_ m ≤ size.
Proof.
  intros Hsize. unfold cut_ind_min, cut_ind_max. split.
  - rewrite <- (py_round_Z 0). apply py_round_mono, py_max0_spec.
  - apply Z.le_trans with (py_round (inject_Z size)); [|by rewrite py_round_Z].
    apply py_round_mono, py_min_spec.
Qed.

Lemma get_cut_within (data : list Q) (t m : Q) cut tw p peak :
  get_cut data t m = inr (cut, tw, p, peak) →
  ∃ lo hi, cut = np_arange lo hi ∧ 0 ≤ lo ∧ hi ≤ Z.of_nat (length data).
Proof.
  intros Hcut.
  destruct (get_cut_inv _ _ _ _ _ _ _ Hcut) as (first & last_ & _ & _ & _ & _ & _ & _ & ->).
  eexists _, _. split; [done|]. apply cut_within. lia.
Qed.

Lemma np_arange_elem (a b i : Z) : i ∈ np_arange a b ↔ a ≤ i < b.
Proof. unfold np_arange. rewrite elem_of_seqZ. lia. Qed.

Lemma positive_peak (data : list Q) (peak : Q) :
  (∃ v, v ∈ data ∧ (0 < v)%Q) → (∀ v, v ∈ data → (v <= peak)%Q) → (0 < peak)%Q.
Proof. intros (v & Hv & Hpos) Hmax. specialize (Hmax _ Hv). lra. Qed.

(** With a positive maximum and a threshold level below 1 the peak channel
    is above the threshold, and the cut is returned. *)
Lemma get_cut_positive (data : list Q) (t m : Q) :
  data ≠ [] → (∃ v, v ∈ data ∧ (0 < v)%Q) → (t < 1)%Q →
  ∃ cut tw p peak,
    get_cut data t m = inr (cut, tw, p, peak) ∧
    np_argmax data = inr p ∧ data !! Z.to_nat p = Some peak ∧
    (∀ v, v ∈ data → (v <= peak)%Q) ∧
    p ∈ np_where (λ v, Qltb (peak * t) v) data.
Proof.
  intros Hne Hpos Ht.
  destruct (np_argmax_nonempty _ Hne) as [p Hp].
  destruct (np_argmax_spec _ _ Hp) as (k & peak & -> & Hk & Hmax & _).
  pose proof (positive_peak _ _ Hpos Hmax) as Hpeak.
  assert (Z.of_nat k ∈ np_where (λ v, Qltb (peak * t) v) data) as Hin.
  { apply where_from_spec. exists k, peak. split; [lia|]. split; [done|].
    apply Qltb_lt. nra. }
  assert (data !! Z.to_nat (Z.of_nat k) = Some peak) as Hk' by (by rewrite Nat2Z.id).
  destruct (get_cut_returns data t m _ _ _ Hp Hk' Hin) as (cut & tw & Hcut).
  exists cut, tw, (Z.of_nat k), peak. by split_and!.
Qed.

(** C1.  For a non-empty array with a strictly positive maximum, a
    threshold level in (0,1) and a positive width multiplier, [get_cut]
    returns a cut that is the range of a non-empty interval [lo, hi) inside
    [0, len(data)), and the cut contains the peak index, which is the index
    [np.argmax] gives: the first one at which the maximum is attained. *)
Theorem get_cut_containment (data : list Q) (t m : Q) :
  data ≠ [] → (∃ v, v ∈ data ∧ (0 < v)%Q) →
  (0 < t)%Q → (t < 1)%Q → (0 < m)%Q →
  ∃ cut tw p peak lo hi,
    get_cut data t m = inr (cut, tw, p, peak) ∧
    np_argmax data = inr p ∧ data !! Z.to_nat p = Some peak ∧
    (∀ v, v ∈ data → (v <= peak)%Q) ∧
    cut = np_arange lo hi ∧ 0 ≤ lo ∧ lo < hi ∧ hi ≤ Z.of_nat (length data) ∧
    cut ≠ [] ∧
    (∀ i, i ∈ cut → 0 ≤ i < Z.of_nat (length data)) ∧
    p ∈ cut.
Proof.
  intros Hne Hpos Ht0 Ht1 Hm.
  destruct (get_cut_positive data t m Hne Hpos Ht1)
    as (cut & tw & p & peak & Hcut & Hp & Hpk & Hmax & _).
  destruct (get_cut_inv _ _ _ _ _ _ _ Hcut)
    as (first & last_ & _ & _ & Hrange & Hfirst & Hlast & -> & ->).
  destruct (threshold_inds_around_peak _ _ _ _ _ _ Hp Hpk Hfirst Hlast)
    as (Hf0 & Hfp & Hpl & Hln).
  assert (0 <= m)%Q as Hm' by lra.
  destruct (cut_bounds (Z.of_nat (length data)) p first last_ m Hfp Hpl Hrange Hm')
    as [[Hlo0 Hlop] [Hphi Hhin]].
  eexists _, _, p, peak, _, _. split; [exact Hcut|].
  assert (p ∈ np_arange (cut_ind_min p first m)
                (cut_ind_max (Z.of_nat (length data)) p last_ m)) as Hin
    by (apply np_arange_elem; lia).
  split_and!; try done; try lia.
  - intros Hnil. rewrite Hnil in Hin. inversion Hin.
  - intros i Hi%np_arange_elem. lia.
Qed.

(** C5.  With the data and the threshold level fixed, a larger width
    multiplier gives a cut that contains the cut of the smaller one: when
    [get_cut] returns for [m1] it returns for [m2], with the same peak and
    threshold width, and every index of the first cut is in the second. *)
Theorem get_cut_widening (data : list Q) (t m1 m2 : Q) cut1 tw p peak :
  (m1 <= m2)%Q →
  get_cut data t m1 = inr (cut1, tw, p, peak) →
  ∃ cut2, get_cut data t m2 = inr (cut2, tw, p, peak) ∧
          ∀ i, i ∈ cut1 → i ∈ cut2.
Proof.
  intros Hm Hcut.
  destruct (get_cut_inv _ _ _ _ _ _ _ Hcut)
    as (first & last_ & Hp & Hpk & Hrange & Hfirst & Hlast & -> & ->).
  destruct (threshold_inds_around_peak _ _ _ _ _ _ Hp Hpk Hfirst Hlast)
    as (Hf0 & Hfp & Hpl & Hln).
  destruct (where_from_head _ _ _ _ Hfirst) as [Hin _].
  destruct (get_cut_returns data t m2 _ _ _ Hp Hpk Hin) as (cut2 & tw2 & Hcut2).
  destruct (get_cut_inv _ _ _ _ _ _ _ Hcut2)
    as (first' & last' & _ & _ & _ & Hfirst' & Hlast' & -> & ->).
  assert (first' = first) as -> by congruence.
  assert (last' = last_) as -> by congruence.
  eexists. split; [exact Hcut2|].
  destruct (cut_widening (Z.of_nat (length data)) p first last_ m1 m2 Hfp Hpl Hm).
  intros i Hi%np_arange_elem. apply np_arange_elem. lia.
Qed.

(** C2, as the code has it.  For a non-empty array with a strictly
    positive maximum and a threshold level in (0,1), the peak index is among
    the indices above the threshold and [get_cut] returns, whatever the
    multiplier.  When the array is flat, [n + 1] channels holding one
    (positive) value, the threshold width is [n], not 0, and for a
    multiplier of at least 1 the cut is all of the channels. *)
Theorem get_cut_threshold_set (data : list Q) (t m : Q) :
  (0 < t)%Q → (t < 1)%Q → data ≠ [] → (∃ v, v ∈ data ∧ (0 < v)%Q) →
  ∃ cut tw p peak,
    get_cut data t m = inr (cut, tw, p, peak) ∧
    np_argmax data = inr p ∧ data !! Z.to_nat p = Some peak ∧
    p ∈ np_where (λ v, Qltb (peak * t) v) data ∧
    ∀ (n : nat) (c : Q), data = replicate (S n) c →
      p = 0 ∧ peak = c ∧ tw = Z.of_nat n ∧
      ((1 <= m)%Q → cut = np_arange 0 (Z.of_nat (S n))).
Proof.
  intros Ht0 Ht1 Hne Hpos.
  destruct (get_cut_positive data t m Hne Hpos Ht1)
    as (cut & tw & p & peak & Hcut & Hp & Hpk & Hmax & Hin).
  exists cut, tw, p, peak. split_and!; try done.
  intros n c ->.
  pose proof (positive_peak _ _ Hpos Hmax) as Hc.
  destruct (get_cut_inv _ _ _ _ _ _ _ Hcut)
    as (first & last_ & _ & _ & Hrange & Hfirst & Hlast & -> & ->).
  destruct (threshold_inds_around_peak _ _ _ _ _ _ Hp Hpk Hfirst Hlast)
    as (Hf0 & Hfp & Hpl & Hln).
  rewrite length_replicate in *.
  assert (peak = c) as ->.
  { apply lookup_replicate in Hpk as [-> _]. done. }
  assert (p = 0) as ->.
  { destruct (np_argmax_spec _ _ Hp) as (k & pk & -> & Hk & _ & Hstrict).
    destruct k as [|k]; [done|].
    apply lookup_replicate in Hk as [-> _].
    assert (c < c)%Q; [|lra].
    apply (Hstrict 0%nat); [lia|done]. }
  assert (first = 0) as -> by lia.
  assert (last_ = Z.of_nat n) as ->.
  { apply where_from_last in Hlast as [_ Hmax'].
    assert (Z.of_nat n ≤ last_); [|lia]. apply Hmax'.
    apply where_from_spec. exists n, c. split; [lia|]. split.
    - apply lookup_replicate. split; [done|lia].
    - apply Qltb_lt. nra. }
  split_and!; try done; [lia|].
  intros Hm.
  assert (cut_ind_min 0 0 m = 0) as ->.
  { destruct (cut_bounds 1 0 0 0 m) as [? _]; [lia|lia|lia|lra|lia]. }
  assert (cut_ind_max (Z.of_nat (S n)) 0 (Z.of_nat n) m = Z.of_nat (S n)) as ->; [|done].
  unfold cut_ind_max, py_min.
  destruct (Qltb _ (inject_Z (Z.of_nat (S n)))) eqn:E; [|apply py_round_Z].
  apply Qltb_lt in E.
  rewrite Z.sub_0_r, Nat2Z.inj_succ, <- Z.add_1_r, inject_Z_plus in E.
  assert (0 <= inject_Z (Z.of_nat n))%Q by (rewrite <- (Zle_Qle 0); lia).
  change (inject_Z 0) with 0%Q in E. change (inject_Z 1) with 1%Q in E. nra.
Qed.

(** On an array of zeros no channel is above the threshold and [get_cut]
    raises [IndexError]; on a flat positive array the threshold width is
    the whole width and the cut has every channel. *)
Lemma get_cut_degenerate :
  np_where (λ v, Qltb (0 * THRESHOLD_LEVEL) v) [0; 0; 0]%Q = [] ∧
  get_cut [0; 0; 0]%Q THRESHOLD_LEVEL CUT_WIDTH_MULT
    = inl (IndexError "index out of bounds") ∧
  get_cut [3; 3; 3]%Q THRESHOLD_LEVEL CUT_WIDTH_MULT = inr ([0; 1; 2], 2, 0, 3%Q).
Proof. split_and!; vm_compute; reflexivity. Qed.

(** ** The monad: running, store preservation, agreement *)

Lemma bind_run {A B} (m : M A) (f : A → M B) (h : heap) :
  (m ≫= f) h =
  match m h with
  | (h1, ev1, inl e) => (h1, ev1, inl e)
  | (h1, ev1, inr a) => match f a h1 with (h2, ev2, r) => (h2, ev1 ++ ev2, r) end
  end.
Proof. reflexivity. Qed.

Lemma bind_inr {A B} (m : M A) (f : A → M B) (h : heap) (b : B) :
  result_of ((m ≫= f) h) = inr b →
  ∃ a, result_of (m h) = inr a ∧ result_of (f a (heap_of (m h))) = inr b.
Proof.
  rewrite bind_run. unfold result_of, heap_of.
  destruct (m h) as [[h1 ev1] [e|a]]; [done|]. cbn.
  destruct (f a h1) as [[h2 ev2] r] eqn:E. cbn. intros ->. exists a. by rewrite E.
Qed.

Lemma bind_heap {A B} (m : M A) (f : A → M B) (h : heap) :
  heap_of ((m ≫= f) h) =
  match result_of (m h) with
  | inl _ => heap_of (m h)
  | inr a => heap_of (f a (heap_of (m h)))
  end.
Proof.
  rewrite bind_run. unfold result_of, heap_of.
  destruct (m h) as [[h1 ev1] [e|a]]; [done|]. cbn.
  by destruct (f a h1) as [[h2 ev2] r].
Qed.

Lemma bind_result {A B} (m : M A) (f : A → M B) (h : heap) :
  result_of ((m ≫= f) h) =
  match result_of (m h) with
  | inl e => inl e
  | inr a => result_of (f a (heap_of (m h)))
  end.
Proof.
  rewrite bind_run. unfold result_of, heap_of.
  destruct (m h) as [[h1 ev1] [e|a]]; [done|]. cbn.
  by destruct (f a h1) as [[h2 ev2] r].
Qed.

Lemma bind_events {A B} (m : M A) (f : A → M B) (h : heap) :
  events_of ((m ≫= f) h) =
  match result_of (m h) with
  | inl _ => events_of (m h)
  | inr a => events_of (m h) ++ events_of (f a (heap_of (m h)))
  end.
Proof.
  rewrite bind_run. unfold result_of, heap_of, events_of.
  destruct (m h) as [[h1 ev1] [e|a]]; [done|]. cbn.
  by destruct (f a h1) as [[h2 ev2] r].
Qed.

(** *** Read-only computations *)

Lemma readonly_ret {A} (a : A) : readonly (mret a).
Proof. by intros h. Qed.

Lemma readonly_raise {A} (e : exn) : readonly (@raise A e).
Proof. by intros h. Qed.

Lemma readonly_lift {A} (r : res A) : readonly (lift r).
Proof. by intros h. Qed.

Lemma readonly_emit (ev : event) : readonly (emit ev).
Proof. by intros h. Qed.

Lemma readonly_read (l : loc) : readonly (read l).
Proof. intros h. unfold read. by destruct (h !! l). Qed.

Lemma readonly_bind {A B} (m : M A) (f : A → M B) :
  readonly m → (∀ a, readonly (f a)) → readonly (m ≫= f).
Proof.
  intros Hm Hf h. rewrite bind_heap, Hm. destruct (result_of (m h)); [done|apply Hf].
Qed.

Lemma readonly_when (b : bool) (m : M unit) : readonly m → readonly (when b m).
Proof. destruct b; [done|intros _; apply readonly_ret]. Qed.

Lemma readonly_mapM {A B} (f : A → M B) (l : list A) :
  (∀ a, readonly (f a)) → readonly (mapM f l).
Proof.
  intros Hf. induction l as [|a l IH]; [apply readonly_ret|].
  cbn [mapM]. apply readonly_bind; [apply Hf|intros b].
  apply readonly_bind; [apply IH|intros bs; apply readonly_ret].
Qed.

Ltac readonly_step :=
  first
    [ apply readonly_ret | apply readonly_raise | apply readonly_lift
    | apply readonly_emit | apply readonly_read
    | apply readonly_when
    | apply readonly_mapM; intro
    | apply readonly_bind; [|intro]
    | progress cbv zeta
    | match goal with
      | |- readonly (match ?x with _ => _ end) => destruct x
      end ].

Lemma readonly_fit_odr func x y sx sy p0 debug :
  readonly (fit_odr func x y sx sy p0 debug).
Proof. unfold fit_odr. repeat readonly_step. Qed.

Lemma readonly_fit_mca_gaussian mca inds cnts peak peak_ind tw :
  readonly (fit_mca_gaussian mca inds cnts peak peak_ind tw).
Proof.
  unfold fit_mca_gaussian. repeat first [apply readonly_fit_odr | readonly_step].
Qed.

Lemma readonly_draw_cut ax cut peak : readonly (draw_cut ax cut peak).
Proof. unfold draw_cut. repeat readonly_step. Qed.

Lemma readonly_plot_gaussians mca ax fits : readonly (plot_gaussians mca ax fits).
Proof. unfold plot_gaussians. repeat readonly_step. Qed.

Lemma readonly_fit_fe mca ax t m secondary subtracted vlines :
  readonly (fit_fe mca ax t m secondary subtracted vlines).
Proof.
  unfold fit_fe.
  repeat first [ apply readonly_fit_mca_gaussian | apply readonly_draw_cut
               | apply readonly_plot_gaussians | readonly_step ].
Qed.

Lemma readonly_fit_manual mca ax min_ind max_ind subtracted vlines :
  readonly (fit_manual mca ax min_ind max_ind subtracted vlines).
Proof.
  unfold fit_manual.
  repeat first [ apply readonly_fit_mca_gaussian | apply readonly_draw_cut
               | apply readonly_plot_gaussians | readonly_step ].
Qed.

(** The copy, its zeroing and its reading, run on a store that has the
    array: the store gets one new array, the zeroed copy. *)
Lemma copy_block_run {A} (l : loc) (k : Z) (g : list Q → M A) (h : heap) (c : list Q) :
  h !! l = Some c →
  (filtered ← np_copy l; np_zero_to filtered k;; f ← read filtered; g f) h =
  g (zero_to c k) (<[fresh (dom h) := zero_to c k]> h).
Proof.
  intros Hc. unfold np_copy, np_zero_to.
  unfold mbind, M_mbind, M_bind, read, alloc, write.
  rewrite Hc. cbv zeta. rewrite lookup_insert_eq.
  rewrite lookup_insert_eq, insert_insert_eq, lookup_insert_eq. cbn [app].
  by destruct (g _ _) as [[h2 ev2] r].
Qed.

(** ** The two-stage fitter *)

Lemma np_any_bool_isinf (cov : matrix) :
  np_any_bool (np_isinf cov) = true ↔ any_inf cov.
Proof.
  unfold np_any_bool, np_isinf, any_inf. rewrite existsb_exists. split.
  - intros (bs & Hbs & Hex). apply in_map_iff in Hbs as (row & <- & Hrow).
    apply existsb_exists in Hex as (b & Hb & Hid).
    apply in_map_iff in Hb as (e & <- & He).
    exists row, e. rewrite <- !list_elem_of_In in *. split_and!; try done.
    destruct e; cbn in Hid; try done; auto.
  - intros (row & e & Hrow & He & Hinf).
    exists (map isinf row). split.
    + apply in_map_iff. exists row. by rewrite <- list_elem_of_In.
    + apply existsb_exists. exists (isinf e). split.
      * apply in_map_iff. exists e. by rewrite <- list_elem_of_In.
      * by destruct Hinf as [-> | ->].
Qed.

Lemma np_any_all_zero (cov : matrix) :
  np_any cov = false ↔ all_zero cov.
Proof.
  unfold np_any, np_any_bool, all_zero.
  rewrite <- not_true_iff_false, existsb_exists. split.
  - intros Hno row e Hrow He.
    destruct e as [q| | |].
    + exists q. split; [done|]. destruct (Qeq_bool q 0) eqn:E.
      * by apply Qeq_bool_iff.
      * exfalso. apply Hno. exists (map truthy row). split.
        { apply in_map_iff. exists row. by rewrite <- list_elem_of_In. }
        apply existsb_exists. exists true. split; [|done].
        apply in_map_iff. exists (Fin q). rewrite <- list_elem_of_In. cbn. by rewrite E.
    + exfalso. apply Hno. exists (map truthy row). split.
      { apply in_map_iff. exists row. by rewrite <- list_elem_of_In. }
      apply existsb_exists. exists true. split; [|done].
      apply in_map_iff. exists PosInf. by rewrite <- list_elem_of_In.
    + exfalso. apply Hno. exists (map truthy row). split.
      { apply in_map_iff. exists row. by rewrite <- list_elem_of_In. }
      apply existsb_exists. exists true. split; [|done].
      apply in_map_iff. exists NegInf. by rewrite <- list_elem_of_In.
    + exfalso. apply Hno. exists (map truthy row). split.
      { apply in_map_iff. exists row. by rewrite <- list_elem_of_In. }
      apply existsb_exists. exists true. split; [|done].
      apply in_map_iff. exists NaN. by rewrite <- list_elem_of_In.
  - intros Hall (bs & Hbs & Hex).
    apply in_map_iff in Hbs as (row & <- & Hrow).
    apply existsb_exists in Hex as (b & Hb & Hid).
    apply in_map_iff in Hb as (e & <- & He).
    apply list_elem_of_In in Hrow. apply list_elem_of_In in He.
    destruct (Hall row e Hrow He) as (q & -> & Hq).
    cbn in Hid. apply Qeq_bool_iff in Hq. unfold id in Hid. by rewrite Hq in Hid.
Qed.

(** The run of [fit_odr] once both solvers have returned. *)
Lemma fit_odr_run func x y std_x std_y p0 debug h seed out :
  curve_fit func x y p0 std_y = inr seed →
  odr_run func x y std_x std_y seed.1 = inr out →
  fit_odr func x y std_x std_y p0 debug h =
    (h,
     CurveFit func x y p0 std_y ::
     (if np_any_bool (np_isinf seed.2) then [Printed lsq_warning] else []) ++
     OdrRun func x y std_x std_y seed.1 ::
     (if debug then [OdrPPrint] else []) ++
     (if negb (np_any (cov_beta out)) then [Printed odr_warning] else []),
     if negb (np_any (cov_beta out)) then inr (seed.1, seed.2)
     else inr (beta out, cov_beta out)).
Proof.
  intros Hcf Hodr. unfold fit_odr.
  unfold mbind, M_mbind, M_bind, emit, lift, when, mret, M_mret, M_ret.
  rewrite Hcf. cbn [library].
  destruct (np_any_bool (np_isinf seed.2)); cbn [app]; rewrite Hodr; cbn [library];
    destruct debug; cbn [app]; destruct (negb (np_any (cov_beta out))); reflexivity.
Qed.

(** The events of [fit_odr] once the seed fit has returned. *)
Lemma fit_odr_seed_events func x y std_x std_y p0 debug h seed :
  curve_fit func x y p0 std_y = inr seed →
  ∃ rest,
    events_of (fit_odr func x y std_x std_y p0 debug h) =
      CurveFit func x y p0 std_y ::
      (if np_any_bool (np_isinf seed.2) then [Printed lsq_warning] else []) ++
      OdrRun func x y std_x std_y seed.1 :: rest ∧
    Printed lsq_warning ∉ rest.
Proof.
  intros Hcf.
  destruct (odr_run func x y std_x std_y seed.1) as [msg|out] eqn:Hodr.
  - exists []. split; [|by intros ?%elem_of_nil].
    unfold fit_odr.
    unfold mbind, M_mbind, M_bind, emit, lift, when, mret, M_mret, M_ret.
    rewrite Hcf. cbn [library].
    destruct (np_any_bool (np_isinf seed.2)); cbn [app]; rewrite Hodr; reflexivity.
  - rewrite (fit_odr_run _ _ _ _ _ _ _ _ _ _ Hcf Hodr). eexists. split; [reflexivity|].
    unfold lsq_warning, odr_warning.
    destruct debug, (negb (np_any (cov_beta out))); cbn [app]; intros H;
      repeat (apply elem_of_cons in H as [?|H]; [discriminate|]);
      by apply elem_of_nil in H.
Qed.

(** C3.  When the seed fit returns and the refinement returns a
    covariance matrix whose entries are all zero, [fit_odr] returns the
    seed parameters with the seed covariance, the last thing it did was to
    print the fallback warning, and it raised nothing. *)
Theorem fit_odr_fallback func x y std_x std_y p0 debug h seed out :
  curve_fit func x y p0 std_y = inr seed →
  odr_run func x y std_x std_y seed.1 = inr out →
  all_zero (cov_beta out) →
  ∃ evs,
    fit_odr func x y std_x std_y p0 debug h =
      (h, evs ++ [Printed odr_warning], inr (seed.1, seed.2)).
Proof.
  intros Hcf Hodr Hzero%np_any_all_zero.
  rewrite (fit_odr_run _ _ _ _ _ _ _ _ _ _ Hcf Hodr), Hzero. cbn [negb].
  exists (CurveFit func x y p0 std_y ::
          (if np_any_bool (np_isinf seed.2) then [Printed lsq_warning] else []) ++
          OdrRun func x y std_x std_y seed.1 :: (if debug then [OdrPPrint] else [])).
  f_equal. f_equal. cbn [app]. f_equal. rewrite <- !app_assoc. reflexivity.
Qed.

(** C8, as the code has it.  Once the seed fit has returned: when some
    entry of the seed covariance is infinite, the warning is printed right
    after the seed fit and the refinement is then started from the seed
    parameters; when no entry is infinite (each is finite or NaN), the
    refinement is started from the seed parameters and the warning is
    printed nowhere. *)
Theorem fit_odr_lsq_warning func x y std_x std_y p0 debug h seed :
  curve_fit func x y p0 std_y = inr seed →
  (any_inf seed.2 →
   ∃ rest, events_of (fit_odr func x y std_x std_y p0 debug h) =
             CurveFit func x y p0 std_y :: Printed lsq_warning ::
             OdrRun func x y std_x std_y seed.1 :: rest) ∧
  (¬ any_inf seed.2 →
   (∃ rest, events_of (fit_odr func x y std_x std_y p0 debug h) =
              CurveFit func x y p0 std_y ::
              OdrRun func x y std_x std_y seed.1 :: rest) ∧
   Printed lsq_warning ∉ events_of (fit_odr func x y std_x std_y p0 debug h)).
Proof.
  intros Hcf.
  destruct (fit_odr_seed_events func x y std_x std_y p0 debug h seed Hcf)
    as (rest & -> & Hrest).
  split.
  - intros Hinf%np_any_bool_isinf. rewrite Hinf. by exists rest.
  - intros Hfin. rewrite <- np_any_bool_isinf, not_true_iff_false in Hfin.
    rewrite Hfin. cbn [app]. split; [by exists rest|].
    intros [?|[?|?]%elem_of_cons]%elem_of_cons; done.
Qed.

(** ** The Gaussian fit of a window *)

(** [fit_odr] returns, or raises what a solver raised. *)
Lemma fit_odr_result func x y std_x std_y p0 debug h :
  (∃ fit, result_of (fit_odr func x y std_x std_y p0 debug h) = inr fit) ∨
  (∃ msg, result_of (fit_odr func x y std_x std_y p0 debug h) = inl (LibraryError msg)).
Proof.
  destruct (curve_fit func x y p0 std_y) as [msg|seed] eqn:Hcf.
  - right. exists msg. unfold fit_odr.
    unfold mbind, M_mbind, M_bind, emit, lift. by rewrite Hcf.
  - destruct (odr_run func x y std_x std_y seed.1) as [msg|out] eqn:Hodr.
    + right. exists msg. unfold fit_odr.
      unfold mbind, M_mbind, M_bind, emit, lift, when, mret, M_mret, M_ret.
      rewrite Hcf. cbn [library].
      destruct (np_any_bool (np_isinf seed.2)); by rewrite Hodr.
    + left. rewrite (fit_odr_run _ _ _ _ _ _ _ _ _ _ Hcf Hodr).
      destruct (negb (np_any (cov_beta out))); by eexists.
Qed.

Lemma fit_mca_gaussian_run mca inds cnts peak peak_ind tw h ldx liy dx iy sy :
  diff_nonlin mca = Some ldx → int_nonlin mca = Some liy →
  h !! ldx = Some dx → h !! liy = Some iy → np_mul iy cnts = inr sy →
  fit_mca_gaussian mca inds cnts peak peak_ind tw h =
  fit_odr gaussian_scaled (inject_Z <$> inds) cnts (Some dx) (Some sy)
    (Some [peak; inject_Z peak_ind; ((4 # 10) * inject_Z tw)%Q]) false h.
Proof.
  intros Hd Hi Hdx Hiy Hsy. unfold fit_mca_gaussian. rewrite Hd, Hi.
  unfold mbind at 1 2 3. unfold M_mbind, M_bind, read, lift.
  rewrite Hdx, Hiy, Hsy.
  by destruct (fit_odr _ _ _ _ _ _ _ h) as [[h2 ev2] r].
Qed.

(** C4.  When the differential or the integral nonlinearity of the
    spectrum is absent, [fit_mca_gaussian] raises its [ValueError]
    ("The MCA measurement should have nonlinearities configured", the
    configuration error of the specification) with no event emitted, so
    before any solver call, and with the store untouched; when both are
    present it does not raise that error. *)
Theorem fit_mca_gaussian_precondition mca inds cnts peak peak_ind tw h :
  (diff_nonlin mca = None ∨ int_nonlin mca = None →
   fit_mca_gaussian mca inds cnts peak peak_ind tw h = (h, [], inl nonlin_error)) ∧
  (is_Some (diff_nonlin mca) → is_Some (int_nonlin mca) →
   result_of (fit_mca_gaussian mca inds cnts peak peak_ind tw h) ≠ inl nonlin_error).
Proof.
  split.
  - unfold fit_mca_gaussian.
    intros [-> | ->]; [done|]. by destruct (diff_nonlin mca).
  - intros [ldx Hd] [liy Hi]. unfold fit_mca_gaussian. rewrite Hd, Hi.
    unfold mbind at 1 2 3. unfold M_mbind, M_bind, read, lift, nonlin_error.
    destruct (h !! ldx) as [dx|]; [|done].
    destruct (h !! liy) as [iy|]; [|done].
    destruct (np_mul iy cnts) as [e|sy] eqn:Hmul.
    { unfold np_mul in Hmul. destruct (decide _); [done|].
      destruct iy as [|? [|? ?]], cnts as [|? [|? ?]]; simplify_eq; done. }
    match goal with
    | |- context [fit_odr ?f ?x ?y ?sx ?sy ?p0 ?d ?h] =>
        destruct (fit_odr_result f x y sx sy p0 d h) as [[fit Hr]|[msg Hr]];
        destruct (fit_odr f x y sx sy p0 d h) as [[h2 ev2] r]
    end; cbn in Hr |- *; by rewrite Hr.
Qed.

(** C7.  On a spectrum that has both nonlinearity arrays (and with a
    window that the integral nonlinearity can be multiplied with),
    [fit_mca_gaussian] is the call of [fit_odr] with the scaled Gaussian,
    the initial guess [(peak, peak_ind, 0.4 * threshold_width)], [std_x] the
    differential nonlinearity and [std_y] the product of the integral
    nonlinearity and the windowed counts, which is the pointwise product
    when the two have the same length.  The seed fit is called with that
    guess and that [std_y], and the refinement, when it is reached, with
    that [std_x] and [std_y]. *)
Theorem fit_mca_gaussian_call mca inds cnts peak peak_ind tw h ldx liy dx iy sy :
  diff_nonlin mca = Some ldx → int_nonlin mca = Some liy →
  h !! ldx = Some dx → h !! liy = Some iy → np_mul iy cnts = inr sy →
  let x := inject_Z <$> inds in
  let p0 := Some [peak; inject_Z peak_ind; ((4 # 10) * inject_Z tw)%Q] in
  fit_mca_gaussian mca inds cnts peak peak_ind tw h =
    fit_odr gaussian_scaled x cnts (Some dx) (Some sy) p0 false h ∧
  (length iy = length cnts → sy = zip_with Qmult iy cnts) ∧
  (∃ rest, events_of (fit_mca_gaussian mca inds cnts peak peak_ind tw h) =
             CurveFit gaussian_scaled x cnts p0 (Some sy) :: rest) ∧
  (∀ seed, curve_fit gaussian_scaled x cnts p0 (Some sy) = inr seed →
     OdrRun gaussian_scaled x cnts (Some dx) (Some sy) seed.1
       ∈ events_of (fit_mca_gaussian mca inds cnts peak peak_ind tw h)).
Proof.
  intros Hd Hi Hdx Hiy Hsy x p0.
  rewrite (fit_mca_gaussian_run _ _ _ _ _ _ _ _ _ _ _ _ Hd Hi Hdx Hiy Hsy).
  fold x p0. split_and!.
  - reflexivity.
  - intros Hlen. unfold np_mul in Hsy. rewrite decide_True in Hsy by done. congruence.
  - unfold fit_odr. rewrite bind_events. cbn. by eexists.
  - intros seed Hcf.
    destruct (fit_odr_seed_events gaussian_scaled x cnts (Some dx) (Some sy) p0 false h
                seed Hcf) as (rest & -> & _).
    apply elem_of_cons. right. apply elem_of_app. right. by left.
Qed.

(** ** Store preservation *)

Lemma readonly_frame {A} (m : M A) : readonly m → frame m.
Proof. intros Hm h. by rewrite Hm. Qed.

Lemma frame_bind {A B} (m : M A) (f : A → M B) :
  frame m → (∀ a, frame (f a)) → frame (m ≫= f).
Proof.
  intros Hm Hf h. rewrite bind_heap. destruct (result_of (m h)); [apply Hm|].
  etrans; [apply Hm|apply Hf].
Qed.

Lemma triple_frame {A} (m : M A) :
  (∀ h0, triple h0 m (λ _, True) (λ _, True)) → frame m.
Proof. intros Hm h. by apply (Hm h h). Qed.

Lemma triple_ret {A} h0 (a : A) Ev (Post : A → Prop) :
  Post a → triple h0 (mret a) Ev Post.
Proof.
  intros Ha h Hh. split_and!; [done|constructor|]. by intros ? [= <-].
Qed.

Lemma triple_raise {A} h0 (e : exn) Ev (Post : A → Prop) :
  triple h0 (raise e) Ev Post.
Proof. intros h Hh. split_and!; [done|constructor|done]. Qed.

Lemma triple_lift {A} h0 (r : res A) Ev :
  triple h0 (lift r) Ev (λ a, r = inr a).
Proof. intros h Hh. split_and!; [done|constructor|done]. Qed.

Lemma triple_emit h0 (ev : event) (Ev : event → Prop) :
  Ev ev → triple h0 (emit ev) Ev (λ _, True).
Proof. intros Hev h Hh. split_and!; [done|by repeat constructor|done]. Qed.

Lemma triple_read h0 (l : loc) Ev :
  triple h0 (read l) Ev (λ a, ∀ c, h0 !! l = Some c → a = c).
Proof.
  intros h Hh. unfold read. destruct (h !! l) as [a|] eqn:E;
    (split_and!; [done|constructor|]); [|done].
  intros ? [= <-] c Hc. apply (lookup_weaken _ h) in Hc; [|exact Hh].
  pose proof (eq_trans (eq_sym E) Hc) as Heq. by injection Heq.
Qed.

Lemma triple_alloc h0 (a : list Q) Ev :
  triple h0 (alloc a) Ev (λ l, h0 !! l = None).
Proof.
  intros h Hh. unfold alloc. cbn.
  assert (h !! fresh (dom h) = None) as Hfresh.
  { apply not_elem_of_dom, is_fresh. }
  split_and!; [|constructor|].
  - etrans; [done|]. by apply insert_subseteq.
  - intros ? [= <-]. destruct (h0 !! fresh (dom h)) eqn:E; [|done].
    apply (lookup_weaken _ h) in E; [|exact Hh].
    pose proof (eq_trans (eq_sym E) Hfresh) as Hbad. discriminate Hbad.
Qed.

Lemma triple_write h0 (l : loc) (a : list Q) Ev :
  h0 !! l = None → triple h0 (write l a) Ev (λ _, True).
Proof.
  intros Hl h Hh. unfold write. destruct (h !! l) eqn:E;
    (split_and!; [|constructor|done]); [|done].
  cbn. apply map_subseteq_spec. intros i x Hi.
  rewrite lookup_insert_ne; [by eapply lookup_weaken|].
  intros ->. pose proof (eq_trans (eq_sym Hl) Hi) as Hbad. discriminate Hbad.
Qed.

Lemma triple_bind {A B} h0 (m : M A) (f : A → M B) Ev (Q : A → Prop) (Post : B → Prop) :
  triple h0 m Ev Q → (∀ a, Q a → triple h0 (f a) Ev Post) →
  triple h0 (m ≫= f) Ev Post.
Proof.
  intros Hm Hf h Hh. destruct (Hm h Hh) as (Hh1 & Hev1 & Hq).
  rewrite bind_heap, bind_events, bind_result.
  destruct (result_of (m h)) as [e|a]; [done|].
  destruct (Hf a (Hq a eq_refl) _ Hh1) as (Hh2 & Hev2 & Hpost).
  split_and!; [done| |done]. by apply Forall_app.
Qed.

Lemma triple_weaken {A} h0 (m : M A) Ev (Q Post : A → Prop) :
  triple h0 m Ev Q → (∀ a, Q a → Post a) → triple h0 m Ev Post.
Proof.
  intros Hm HQ h Hh. destruct (Hm h Hh) as (? & ? & Hq). split_and!; [done..|].
  intros a Ha. by apply HQ, Hq.
Qed.

Lemma triple_when h0 (b : bool) (m : M unit) Ev :
  triple h0 m Ev (λ _, True) → triple h0 (when b m) Ev (λ _, True).
Proof. destruct b; [done|]. intros _. by apply triple_ret. Qed.

Lemma triple_np_copy h0 (l : loc) Ev :
  triple h0 (np_copy l) Ev (λ l', h0 !! l' = None).
Proof.
  unfold np_copy. eapply triple_bind; [apply triple_read|].
  intros a _. apply triple_alloc.
Qed.

Lemma triple_np_zero_to h0 (l : loc) (k : Z) Ev :
  h0 !! l = None → triple h0 (np_zero_to l k) Ev (λ _, True).
Proof.
  intros Hl. unfold np_zero_to. eapply triple_bind; [apply triple_read|].
  intros a _. by apply triple_write.
Qed.

Section Events.
Variable h0 : heap.
Variable Ev : event → Prop.
Hypothesis Ev_other : ∀ ev, ¬ is_curve_fit ev → Ev ev.

Lemma triple_draw_cut ax cut peak :
  triple h0 (draw_cut ax cut peak) Ev (λ _, True).
Proof.
  unfold draw_cut.
  eapply triple_bind; [apply triple_lift|intros c0 _].
  eapply triple_bind; [apply triple_lift|intros c1 _].
  apply triple_emit, Ev_other. by intros [].
Qed.

Lemma triple_fit_odr func x y std_x std_y p0 debug :
  Ev (CurveFit func x y p0 std_y) →
  triple h0 (fit_odr func x y std_x std_y p0 debug) Ev (λ _, True).
Proof.
  intros Hcf. unfold fit_odr.
  eapply triple_bind; [by apply triple_emit|intros _ _].
  eapply triple_bind; [apply triple_lift|intros fit _].
  eapply triple_bind.
  { apply triple_when, triple_emit, Ev_other. by intros []. }
  intros _ _.
  eapply triple_bind; [apply triple_emit, Ev_other; by intros []|intros _ _].
  eapply triple_bind; [apply triple_lift|intros out _].
  eapply triple_bind.
  { apply triple_when, triple_emit, Ev_other. by intros []. }
  intros _ _. cbv zeta.
  destruct (negb _); [|by apply triple_ret].
  eapply triple_bind; [apply triple_emit, Ev_other; by intros []|intros _ _].
  by apply triple_ret.
Qed.

Lemma triple_fit_mca_gaussian mca inds cnts peak peak_ind tw :
  (∀ p0 sigma, Ev (CurveFit gaussian_scaled (inject_Z <$> inds) cnts p0 sigma)) →
  triple h0 (fit_mca_gaussian mca inds cnts peak peak_ind tw) Ev (λ _, True).
Proof.
  intros Hcf. unfold fit_mca_gaussian.
  destruct (diff_nonlin mca), (int_nonlin mca); try apply triple_raise.
  eapply triple_bind; [apply triple_read|intros dx _].
  eapply triple_bind; [apply triple_read|intros iy _].
  eapply triple_bind; [apply triple_lift|intros sy _].
  apply triple_fit_odr, Hcf.
Qed.
End Events.

(** [fit_am] keeps the arrays of the store it is given, and its seed fit
    is made on a window of the counts as that store has them. *)
Lemma triple_fit_am h0 mca ax t m subtracted vlines :
  triple h0 (fit_am mca ax t m subtracted vlines)
    (window_of h0 (source mca subtracted)) (λ _, True).
Proof.
  assert (∀ ev, ¬ is_curve_fit ev → window_of h0 (source mca subtracted) ev) as Hother.
  { intros [] H; try done; by destruct H. }
  unfold fit_am. cbv zeta.
  eapply triple_bind; [apply triple_read|intros c _].
  eapply triple_bind; [apply triple_lift|intros peak _].
  eapply triple_bind; [apply triple_lift|intros a0 _].
  eapply triple_bind; [apply triple_lift|intros a1 _].
  eapply triple_bind; [apply triple_np_copy|intros filtered Hfresh].
  eapply triple_bind; [by apply triple_np_zero_to|intros _ _].
  eapply triple_bind; [apply triple_read|intros f _].
  eapply triple_bind; [apply triple_lift|intros [[[cut tw] p] pk] _].
  eapply triple_bind; [by apply triple_when, triple_draw_cut|intros _ _].
  eapply triple_bind; [apply triple_read|intros c' Hc'].
  eapply triple_bind; [apply triple_lift|intros window Hwindow].
  eapply triple_bind.
  { apply triple_fit_mca_gaussian; [done|].
    intros p0 sigma c0 Hc0. exists cut. split; [done|]. by rewrite <- (Hc' _ Hc0). }
  intros fit _.
  eapply triple_bind; [apply triple_read|intros ch _].
  eapply triple_bind; [apply triple_emit, Hother; by intros []|intros _ _].
  by apply triple_ret.
Qed.

Lemma read_some (l : loc) (h : heap) (c : list Q) :
  h !! l = Some c → read l h = (h, [], inr c).
Proof. unfold read. by intros ->. Qed.

Lemma read_none (l : loc) (h : heap) :
  h !! l = None → read l h = (h, [], inl UnboundArray).
Proof. unfold read. by intros ->. Qed.

(** [fit_am] changes the store by at most one new array: the copy of the
    counts with its first channels zeroed. *)
Lemma fit_am_heap mca ax t m subtracted vlines h :
  heap_of (fit_am mca ax t m subtracted vlines h) = h ∨
  ∃ c k, h !! source mca subtracted = Some c ∧
    heap_of (fit_am mca ax t m subtracted vlines h) = <[fresh (dom h) := zero_to c k]> h.
Proof.
  unfold fit_am. cbv zeta.
  rewrite bind_heap.
  destruct (h !! source mca subtracted) as [c|] eqn:Hc.
  2: { left. by rewrite (read_none _ _ Hc). }
  rewrite (read_some _ _ _ Hc). cbn [result_of heap_of fst snd].
  rewrite bind_heap. cbn [result_of heap_of lift fst snd].
  destruct (np_max c) as [e|peak]; [by left|].
  rewrite bind_heap. cbn [result_of heap_of lift fst snd].
  destruct (py_index _ 0) as [e|a0]; [by left|].
  rewrite bind_heap. cbn [result_of heap_of lift fst snd].
  destruct (py_index _ (-1)) as [e|a1]; [by left|].
  right. exists c, ((a0 + a1) `div` 2). split; [done|].
  match goal with
  | |- heap_of ((np_copy ?l ≫= (λ filtered, np_zero_to filtered ?k ≫=
                                  (λ _, read filtered ≫= ?g))) ?h) = _ =>
      rewrite (copy_block_run l k g h c Hc);
      assert (∀ f, readonly (g f)) as Hg
  end.
  { intros f.
    repeat first [ apply readonly_fit_mca_gaussian | apply readonly_draw_cut
                 | readonly_step ]. }
  apply Hg.
Qed.

(** C10.  [fit_fe] and [fit_manual] return the store they were given, and
    [fit_am] returns a store in which every array of the given one is
    there with its contents: the counts, the nonlinearity arrays and a
    subtracted array are unchanged by the three fits, whether they return
    or raise.  The only change [fit_am] makes to the store is one new
    array, the copy of the counts whose first channels it zeroes, and each
    seed fit that [fit_am] makes has for [y] the counts of the given store
    at the indices of the cut. *)
Theorem fits_keep_spectrum mca ax t m secondary min_ind max_ind subtracted vlines h :
  heap_of (fit_fe mca ax t m secondary subtracted vlines h) = h ∧
  heap_of (fit_manual mca ax min_ind max_ind subtracted vlines h) = h ∧
  h ⊆ heap_of (fit_am mca ax t m subtracted vlines h) ∧
  (heap_of (fit_am mca ax t m subtracted vlines h) = h ∨
   ∃ c k, h !! source mca subtracted = Some c ∧
     heap_of (fit_am mca ax t m subtracted vlines h) = <[fresh (dom h) := zero_to c k]> h) ∧
  ∀ func x y p0 sigma,
    CurveFit func x y p0 sigma ∈ events_of (fit_am mca ax t m subtracted vlines h) →
    ∀ c, h !! source mca subtracted = Some c →
      ∃ cut, x = inject_Z <$> cut ∧ np_take c cut = inr y.
Proof.
  split_and!.
  - apply readonly_fit_fe.
  - apply readonly_fit_manual.
  - by apply (triple_fit_am h mca ax t m subtracted vlines h).
  - apply fit_am_heap.
  - intros func x y p0 sigma Hin.
    destruct (triple_fit_am h mca ax t m subtracted vlines h) as (_ & Hev & _); [done|].
    rewrite Forall_forall in Hev. apply (Hev _ Hin).
Qed.

(** ** Agreement: what a fit reads decides what it returns *)

Lemma agree_ret {A} L (a : A) : agree L (mret a) (mret a).
Proof. by intros h1 h2 HR. Qed.

Lemma agree_raise {A} L (e : exn) : agree L (@raise A e) (raise e).
Proof. by intros h1 h2 HR. Qed.

Lemma agree_lift {A} L (r : res A) : agree L (lift r) (lift r).
Proof. by intros h1 h2 HR. Qed.

Lemma agree_emit L (ev1 ev2 : event) : agree L (emit ev1) (emit ev2).
Proof. by intros h1 h2 HR. Qed.

Lemma agree_read L (l : loc) : l ∈ L → agree L (read l) (read l).
Proof.
  intros Hl h1 h2 HR. destruct (HR l Hl) as [[c Hc] Heq].
  unfold read. rewrite <- Heq, Hc. by split.
Qed.

Lemma agree_bind {A B} L (m1 m2 : M A) (f1 f2 : A → M B) :
  agree L m1 m2 → (∀ a, agree L (f1 a) (f2 a)) → agree L (m1 ≫= f1) (m2 ≫= f2).
Proof.
  intros Hm Hf h1 h2 HR. destruct (Hm h1 h2 HR) as [Hr HR'].
  rewrite !bind_result, !bind_heap, <- Hr.
  destruct (result_of (m1 h1)) as [e|a]; [done|]. by apply Hf.
Qed.

Lemma agree_when L (b : bool) (m1 m2 : M unit) :
  agree L m1 m2 → agree L (when b m1) (when b m2).
Proof. destruct b; [done|]. intros _. apply agree_ret. Qed.

Lemma agree_copy_block {A} L (l : loc) (k : Z) (g1 g2 : list Q → M A) :
  l ∈ L → (∀ f, agree L (g1 f) (g2 f)) →
  agree L (filtered ← np_copy l; np_zero_to filtered k;; f ← read filtered; g1 f)
          (filtered ← np_copy l; np_zero_to filtered k;; f ← read filtered; g2 f).
Proof.
  intros Hl Hg h1 h2 HR. destruct (HR l Hl) as [[c Hc1] Heq].
  assert (h2 !! l = Some c) as Hc2 by (by rewrite <- Heq).
  rewrite (copy_block_run l k g1 h1 c Hc1), (copy_block_run l k g2 h2 c Hc2).
  apply Hg. intros l0 Hl0. destruct (HR l0 Hl0) as [[c0 Hc0] Heq0].
  assert (h2 !! l0 = Some c0) as Hc0' by (by rewrite <- Heq0).
  assert (fresh (dom h1) ≠ l0) as Hne1.
  { intros <-. apply (is_fresh (dom h1)), elem_of_dom. by eexists. }
  assert (fresh (dom h2) ≠ l0) as Hne2.
  { intros <-. apply (is_fresh (dom h2)), elem_of_dom. by eexists. }
  rewrite !lookup_insert_ne by done. by split; [eexists|rewrite Hc0, Hc0'].
Qed.

Ltac agree_step :=
  first
    [ apply agree_ret | apply agree_raise | apply agree_lift
    | apply agree_emit
    | apply agree_when
    | apply agree_bind; [|intro]
    | progress cbv zeta
    | match goal with
      | |- agree _ (match ?x with _ => _ end) _ => destruct x
      end ].

Lemma agree_fit_odr L func x y sx sy p0 debug :
  agree L (fit_odr func x y sx sy p0 debug) (fit_odr func x y sx sy p0 debug).
Proof. unfold fit_odr. repeat agree_step. Qed.

Lemma agree_draw_cut L ax1 ax2 cut peak :
  agree L (draw_cut ax1 cut peak) (draw_cut ax2 cut peak).
Proof. unfold draw_cut. repeat agree_step. Qed.

Section Spectrum.
Variable L : list loc.
Variable mca : MeasMCA.
Hypothesis mca_in : ∀ l, l ∈ mca_locs mca → l ∈ L.

Lemma counts_in : counts mca ∈ L.
Proof. apply mca_in. unfold mca_locs. by left. Qed.

Lemma channels_in : channels mca ∈ L.
Proof. apply mca_in. unfold mca_locs. right. by left. Qed.

Lemma diff_nonlin_in l : diff_nonlin mca = Some l → l ∈ L.
Proof.
  intros H. apply mca_in. unfold mca_locs. rewrite H.
  right. right. apply elem_of_app. left. by left.
Qed.

Lemma int_nonlin_in l : int_nonlin mca = Some l → l ∈ L.
Proof.
  intros H. apply mca_in. unfold mca_locs. rewrite H.
  right. right. apply elem_of_app. right. by left.
Qed.

Lemma agree_fit_mca_gaussian inds cnts peak peak_ind tw :
  agree L (fit_mca_gaussian mca inds cnts peak peak_ind tw)
          (fit_mca_gaussian mca inds cnts peak peak_ind tw).
Proof.
  unfold fit_mca_gaussian.
  destruct (diff_nonlin mca) as [ldx|] eqn:Hd; [|apply agree_raise].
  destruct (int_nonlin mca) as [liy|] eqn:Hi; [|apply agree_raise].
  apply agree_bind; [by apply agree_read, diff_nonlin_in|intros dx].
  apply agree_bind; [by apply agree_read, int_nonlin_in|intros iy].
  apply agree_bind; [apply agree_lift|intros sy].
  apply agree_fit_odr.
Qed.

Lemma agree_plot_gaussians ax1 ax2 fits :
  agree L (plot_gaussians mca ax1 fits) (plot_gaussians mca ax2 fits).
Proof.
  unfold plot_gaussians.
  apply agree_bind; [apply agree_read, channels_in|intros ch].
  repeat agree_step.
Qed.

(** The result of [fit_am] on a spectrum is decided by the arrays of
    the spectrum, whatever the subplot and the rest of the store. *)
Lemma agree_fit_am ax1 ax2 t m vlines :
  agree L (fit_am mca ax1 t m None vlines) (fit_am mca ax2 t m None vlines).
Proof.
  unfold fit_am. cbn [source]. cbv zeta.
  apply agree_bind; [apply agree_read, counts_in|intros c].
  apply agree_bind; [apply agree_lift|intros peak].
  apply agree_bind; [apply agree_lift|intros a0].
  apply agree_bind; [apply agree_lift|intros a1].
  apply agree_copy_block; [apply counts_in|intros f].
  apply agree_bind; [apply agree_lift|intros [[[cut tw] p] pk]].
  apply agree_bind; [apply agree_when, agree_draw_cut|intros _].
  apply agree_bind; [apply agree_read, counts_in|intros c'].
  apply agree_bind; [apply agree_lift|intros window].
  apply agree_bind; [apply agree_fit_mca_gaussian|intros fit].
  apply agree_bind; [apply agree_read, channels_in|intros ch].
  repeat agree_step.
Qed.

Lemma agree_fit_fe ax1 ax2 t m secondary vlines :
  agree L (fit_fe mca ax1 t m secondary None vlines)
          (fit_fe mca ax2 t m secondary None vlines).
Proof.
  unfold fit_fe. cbn [source]. cbv zeta.
  apply agree_bind; [apply agree_read, counts_in|intros c].
  apply agree_bind; [apply agree_lift|intros [[[cut tw] p] pk]].
  apply agree_bind; [apply agree_lift|intros window].
  apply agree_bind; [apply agree_fit_mca_gaussian|intros fit].
  destruct (negb secondary).
  { apply agree_bind; [apply agree_plot_gaussians|intros _]. apply agree_ret. }
  apply agree_bind; [apply agree_read, counts_in|intros c'].
  apply agree_bind; [apply agree_lift|intros left].
  apply agree_bind; [apply agree_lift|intros [[[cut2 tw2] p2] pk2]].
  apply agree_bind; [apply agree_when, agree_draw_cut|intros _].
  apply agree_bind; [apply agree_lift|intros window2].
  apply agree_bind; [apply agree_fit_mca_gaussian|intros fit2].
  apply agree_bind; [apply agree_plot_gaussians|intros _]. apply agree_ret.
Qed.
End Spectrum.

(** ** The HV scans *)

Lemma frame_fit_am mca ax t m subtracted vlines :
  frame (fit_am mca ax t m subtracted vlines).
Proof. intros h. by apply (triple_fit_am h mca ax t m subtracted vlines h). Qed.

Lemma readonly_label_axes num_plots num_plots_x i axes_flat :
  readonly (label_axes num_plots num_plots_x i axes_flat).
Proof.
  revert i. induction axes_flat as [|ax rest IH]; intros i; cbn [label_axes].
  - apply readonly_ret.
  - repeat first [apply IH | readonly_step].
Qed.

Lemma readonly_create_subplot_grid num_plots :
  readonly (create_subplot_grid num_plots).
Proof.
  unfold create_subplot_grid. repeat first [apply readonly_label_axes | readonly_step].
Qed.

Lemma readonly_scan_limits mcas : readonly (scan_limits mcas).
Proof. unfold scan_limits. repeat readonly_step. Qed.

Lemma readonly_scan_axes axes voltages gains max_ch ymax i mca :
  readonly (scan_axes axes voltages gains max_ch ymax i mca).
Proof. unfold scan_axes. repeat readonly_step. Qed.

Lemma same_on_extends (L : list loc) (h0 h : heap) :
  (∀ l, l ∈ L → is_Some (h0 !! l)) → h0 ⊆ h → same_on L h0 h.
Proof.
  intros HL Hsub l Hl. split; [by apply HL|].
  destruct (HL l Hl) as [c Hc]. rewrite Hc. symmetry. by eapply lookup_weaken.
Qed.

Lemma same_on_sym (L : list loc) (h1 h2 : heap) : same_on L h1 h2 → same_on L h2 h1.
Proof. intros H l Hl. destruct (H l Hl) as [Hs Heq]. split; [by rewrite <- Heq|done]. Qed.

Lemma same_on_trans (L : list loc) (h1 h2 h3 : heap) :
  same_on L h1 h2 → same_on L h2 h3 → same_on L h1 h3.
Proof.
  intros H12 H23 l Hl. destruct (H12 l Hl) as [Hs Heq], (H23 l Hl) as [_ Heq'].
  split; [done|by rewrite Heq].
Qed.

Lemma bind_inr_intro {A B} (m : M A) (f : A → M B) (h : heap) (a : A) (b : B) :
  result_of (m h) = inr a → result_of (f a (heap_of (m h))) = inr b →
  result_of ((m ≫= f) h) = inr b.
Proof. intros Ha Hb. by rewrite bind_result, Ha. Qed.

(** The result of a read-only loop over a list is the loop over the
    results. *)
Lemma mapM_result {A B} (f : A → M B) (l : list A) (h : heap) :
  (∀ a, readonly (f a)) → result_of (mapM f l h) = mapM (λ a, result_of (f a h)) l.
Proof.
  intros Hf. induction l as [|a l IH]; [done|].
  cbn [mapM]. rewrite bind_result, Hf.
  destruct (result_of (f a h)) as [e|b]; [done|].
  rewrite bind_result, (readonly_mapM f l Hf), IH. cbn.
  by destruct (mapM _ l).
Qed.

Lemma res_mapM_inv {A B} (F : A → res B) (l : list A) (bs : list B) :
  mapM F l = inr bs → length bs = length l ∧ ∀ a, a ∈ l → ∃ b, F a = inr b.
Proof.
  revert bs. induction l as [|a l IH]; intros bs H.
  - injection H as <-. split; [done|]. by intros a Ha%elem_of_nil.
  - cbn in H. destruct (F a) as [e|b] eqn:Ea; [done|]. cbn in H.
    destruct (mapM F l) as [e|bs'] eqn:El; [done|]. cbn in H. injection H as <-.
    destruct (IH bs' eq_refl) as [Hlen Hall]. split; [cbn; lia|].
    intros a' [->|Ha']%elem_of_cons; [by eexists|by apply Hall].
Qed.

Lemma res_mapM_intro {A B} (F : A → res B) (l : list A) :
  (∀ a, a ∈ l → ∃ b, F a = inr b) → ∃ bs, mapM F l = inr bs ∧ length bs = length l.
Proof.
  induction l as [|a l IH]; intros H; [by exists []|].
  destruct (H a) as [b Hb]; [by left|].
  destruct IH as (bs & Hbs & Hlen); [intros a' Ha'; apply H; by right|].
  exists (b :: bs). cbn. rewrite Hb. cbn. rewrite Hbs. cbn. split; [done|lia].
Qed.

Lemma np_max_returns (data : list Q) : data ≠ [] ↔ ∃ v, np_max data = inr v.
Proof.
  destruct data; split; try done.
  - by intros [v Hv].
  - intros _. by eexists.
Qed.

(** The limits are found for a collection whenever they are found for a
    permutation of it. *)
Lemma scan_limits_permuted mcas mcas' h lim :
  mcas ≡ₚ mcas' → result_of (scan_limits mcas h) = inr lim →
  ∃ lim', result_of (scan_limits mcas' h) = inr lim'.
Proof.
  intros Hperm Hres. unfold scan_limits in *.
  assert (∀ a : MeasMCA, readonly (c ← read (counts a); lift (np_max c))) as Hf
    by (intros; repeat readonly_step).
  assert (∀ a : MeasMCA, readonly (ch ← read (channels a); lift (py_index ch (-1)))) as Hg
    by (intros; repeat readonly_step).
  apply bind_inr in Hres as (heights & Hheights & Hres).
  rewrite (readonly_mapM _ _ Hf) in Hres.
  apply bind_inr in Hres as (mph & Hmph & Hres). cbn [heap_of lift fst] in Hres. cbn in Hmph.
  apply bind_inr in Hres as (lasts & Hlasts & Hres).
  rewrite (readonly_mapM _ _ Hg) in Hres.
  apply bind_inr in Hres as (max_ch & Hmax_ch & _). cbn in Hmax_ch.
  rewrite mapM_result in Hheights, Hlasts by done.
  apply res_mapM_inv in Hheights as [Hlen1 Hall1].
  apply res_mapM_inv in Hlasts as [Hlen2 Hall2].
  destruct (res_mapM_intro (λ a, result_of ((c ← read (counts a); lift (np_max c)) h)) mcas')
    as (heights' & Hheights' & Hlen1').
  { intros a Ha. apply Hall1. by rewrite Hperm. }
  destruct (res_mapM_intro
              (λ a, result_of ((ch ← read (channels a); lift (py_index ch (-1))) h)) mcas')
    as (lasts' & Hlasts' & Hlen2').
  { intros a Ha. apply Hall2. by rewrite Hperm. }
  assert (length mcas' = length mcas) as Hlen by (by rewrite Hperm).
  assert (∃ v, np_max heights' = inr v) as [mph' Hmph'].
  { apply np_max_returns. intros ->. cbn in Hlen1'.
    assert (heights = []) as -> by (apply length_zero_iff_nil; lia). done. }
  assert (∃ v, np_max lasts' = inr v) as [max_ch' Hmax_ch'].
  { apply np_max_returns. intros ->. cbn in Hlen2'.
    assert (lasts = []) as -> by (apply length_zero_iff_nil; lia). done. }
  eexists.
  eapply bind_inr_intro; [by rewrite mapM_result|]. rewrite (readonly_mapM _ _ Hf).
  eapply bind_inr_intro; [exact Hmph'|]. cbn [heap_of lift fst].
  eapply bind_inr_intro; [by rewrite mapM_result|]. rewrite (readonly_mapM _ _ Hg).
  eapply bind_inr_intro; [exact Hmax_ch'|]. reflexivity.
Qed.

Lemma scan_axes_result axes voltages gains max_ch ymax j mca h :
  is_Some (h !! counts mca) →
  result_of (scan_axes axes voltages gains max_ch ymax j mca h) =
  scan_index axes voltages gains j.
Proof.
  intros [c Hc]. unfold scan_axes, scan_index.
  rewrite bind_result. cbn [result_of lift snd heap_of fst].
  destruct (py_index axes j) as [e|ax]; [done|]. cbn [mbind res_mbind res_bind].
  rewrite bind_result. unfold read at 1 2. rewrite Hc. cbn [result_of lift snd heap_of fst].
  rewrite bind_result. cbn [result_of emit snd heap_of fst].
  rewrite bind_result. cbn [result_of emit snd heap_of fst].
  rewrite bind_result. cbn [result_of lift snd heap_of fst].
  destruct (py_index voltages j) as [e|v]; [done|].
  rewrite bind_result. cbn [result_of lift snd heap_of fst].
  destruct (py_index gains j) as [e|g]; [done|]. reflexivity.
Qed.

Lemma stored_Permutation h mcas mcas' :
  mcas ≡ₚ mcas' → Forall (stored h) mcas → Forall (stored h) mcas'.
Proof. by intros <-. Qed.

(** The results of a scan are a function of the spectra, one by one. *)
Lemma results_fmap {A B} (P : A → B → Prop) (ok : A → Prop) (G : A → B)
    (l : list A) (k : list B) :
  (∀ a b, ok a → P a b → b = G a) → Forall ok l → Forall2 P l k → k = G <$> l.
Proof.
  intros HG Hok H. induction H as [|a b l k Hab _ IH]; [done|].
  apply Forall_cons in Hok as [Ha Hl]. cbn. f_equal; [by apply HG|by apply IH].
Qed.

Section Scan.
Context {A : Type}.
Variable fit : MeasMCA → Axes → M A.
Variable h : heap.
Variables banner title name : string.
Variables voltages gains : list Q.
Variable fig_titles : bool.
Hypothesis fit_frame : ∀ mca ax, frame (fit mca ax).
Hypothesis fit_agree : ∀ mca ax1 ax2, agree (mca_locs mca) (fit mca ax1) (fit mca ax2).

(** The single fit of a stored spectrum gives one result on all the stores
    that extend [h]. *)
Lemma fit_of_extends mca ax hk a :
  stored h mca → h ⊆ hk → result_of (fit mca ax hk) = inr a → fit_of fit h mca a.
Proof.
  intros Hs Hh Hfit ax' h' Hsame. rewrite <- Hfit.
  apply (fit_agree mca ax' ax).
  apply same_on_trans with h; [by apply same_on_sym|by apply same_on_extends].
Qed.

Lemma body_result axes max_ch ymax j mca hk :
  stored h mca → h ⊆ hk →
  result_of ((ax ← scan_axes axes voltages gains max_ch ymax j mca; fit mca ax) hk) =
  match scan_index axes voltages gains j with
  | inl e => inl e
  | inr ax => result_of (fit mca ax hk)
  end.
Proof.
  intros Hs Hh. rewrite bind_result, readonly_scan_axes, scan_axes_result; [done|].
  destruct (Hs (counts mca)) as [c Hc]; [by left|].
  exists c. by eapply lookup_weaken.
Qed.

Lemma body_frame axes max_ch ymax j mca :
  frame (ax ← scan_axes axes voltages gains max_ch ymax j mca; fit mca ax).
Proof.
  apply frame_bind; [apply readonly_frame, readonly_scan_axes|]. intros ax. apply fit_frame.
Qed.

(** What a returned loop says of each of its spectra. *)
Lemma scan_loop_inv axes max_ch ymax mcas i acc hk fits :
  Forall (stored h) mcas → h ⊆ hk →
  result_of (scan_loop
               (λ i mca, ax ← scan_axes axes voltages gains max_ch ymax i mca; fit mca ax)
               i mcas acc hk) = inr fits →
  ∃ new, fits = acc ++ new ∧ Forall2 (fit_of fit h) mcas new ∧
    ∀ k, (k < length mcas)%nat →
      ∃ ax, scan_index axes voltages gains (i + Z.of_nat k) = inr ax.
Proof.
  revert i acc hk. induction mcas as [|mca rest IH]; intros i acc hk Hok Hh Hres.
  - cbn in Hres. injection Hres as <-. exists []. rewrite app_nil_r.
    split_and!; [done|constructor|]. cbn. lia.
  - cbn [scan_loop] in Hres. apply bind_inr in Hres as (a & Ha & Hres).
    apply Forall_cons in Hok as [Hmca Hrest].
    rewrite body_result in Ha by done.
    destruct (scan_index axes voltages gains i) as [e|ax] eqn:Hidx; [done|].
    apply IH in Hres as (new & -> & Hnew & Hidxs); [|done|by etrans; [|apply body_frame]].
    exists (a :: new). rewrite <- app_assoc. split_and!; [done| |].
    + constructor; [|done]. by eapply fit_of_extends.
    + intros [|k] Hk; [rewrite Z.add_0_r; by eexists|].
      destruct (Hidxs k) as [ax' Hax']; [cbn in Hk; lia|].
      exists ax'. rewrite <- Hax'. f_equal. lia.
Qed.

(** The loop returns when each index is there and each single fit
    returns. *)
Lemma scan_loop_returns axes max_ch ymax mcas i acc hk :
  Forall (λ mca, stored h mca ∧ ∃ a, fit_of fit h mca a) mcas → h ⊆ hk →
  (∀ k, (k < length mcas)%nat →
     ∃ ax, scan_index axes voltages gains (i + Z.of_nat k) = inr ax) →
  ∃ fits,
    result_of (scan_loop
                 (λ i mca, ax ← scan_axes axes voltages gains max_ch ymax i mca; fit mca ax)
                 i mcas acc hk) = inr fits.
Proof.
  revert i acc hk. induction mcas as [|mca rest IH]; intros i acc hk Hok Hh Hidxs.
  - by eexists.
  - apply Forall_cons in Hok as [[Hmca [a Ha]] Hrest].
    destruct (Hidxs 0%nat) as [ax Hax]; [cbn; lia|]. rewrite Z.add_0_r in Hax.
    assert (result_of ((ax ← scan_axes axes voltages gains max_ch ymax i mca; fit mca ax) hk)
            = inr a) as Hbody.
    { rewrite body_result, Hax by done. apply Ha. by apply same_on_extends. }
    destruct (IH (i + 1) (acc ++ [a])
                (heap_of ((ax ← scan_axes axes voltages gains max_ch ymax i mca; fit mca ax) hk)))
      as [fits Hfits]; [done|by etrans; [|apply body_frame]| |].
    { intros k Hk. destruct (Hidxs (S k)) as [ax' Hax']; [cbn; lia|].
      exists ax'. rewrite <- Hax'. f_equal. lia. }
    exists fits. cbn [scan_loop]. by eapply bind_inr_intro.
Qed.

Lemma hv_scan_inv mcas fits :
  Forall (stored h) mcas →
  result_of (hv_scan banner title name fit mcas voltages gains fig_titles h) = inr fits →
  Forall2 (fit_of fit h) mcas fits ∧
  ∃ axes nx ny lim,
    result_of (create_subplot_grid (Z.of_nat (length mcas)) h) = inr (axes, nx, ny) ∧
    result_of (scan_limits mcas h) = inr lim ∧
    ∀ k, (k < length mcas)%nat →
      ∃ ax, scan_index axes voltages gains (Z.of_nat k) = inr ax.
Proof.
  intros Hok Hres. unfold hv_scan in Hres.
  apply bind_inr in Hres as (_ & _ & Hres). cbn [heap_of emit fst] in Hres.
  apply bind_inr in Hres as ([[axes nx] ny] & Hgrid & Hres).
  rewrite readonly_create_subplot_grid in Hres.
  apply bind_inr in Hres as (_ & _ & Hres).
  rewrite (readonly_when _ _ (readonly_emit _)) in Hres.
  apply bind_inr in Hres as ([max_ch ymax] & Hlim & Hres).
  rewrite readonly_scan_limits in Hres.
  apply bind_inr in Hres as (fits0 & Hloop & Hres).
  apply bind_inr in Hres as (_ & _ & Hres). cbn in Hres. injection Hres as <-.
  apply scan_loop_inv in Hloop as (new & -> & Hnew & Hidxs); [|done..].
  split; [done|]. by exists axes, nx, ny, (max_ch, ymax).
Qed.

(** When a scan returns, the scan of a permutation of the spectra returns
    too. *)
Lemma hv_scan_permuted mcas mcas' fits :
  Forall (stored h) mcas → mcas ≡ₚ mcas' →
  result_of (hv_scan banner title name fit mcas voltages gains fig_titles h) = inr fits →
  ∃ fits', result_of (hv_scan banner title name fit mcas' voltages gains fig_titles h)
           = inr fits'.
Proof.
  intros Hok Hperm Hres.
  destruct (hv_scan_inv _ _ Hok Hres)
    as (Hfits & axes & nx & ny & lim & Hgrid & Hlim & Hidxs).
  destruct (scan_limits_permuted _ _ _ _ Hperm Hlim) as [[max_ch' ymax'] Hlim'].
  assert (Forall (λ mca, stored h mca ∧ ∃ a, fit_of fit h mca a) mcas') as Hok'.
  { rewrite <- Hperm. apply Forall_forall. intros mca Hmca. split.
    - by eapply Forall_forall in Hok.
    - apply list_elem_of_lookup in Hmca as [k Hk].
      destruct (Forall2_lookup_l _ _ _ _ _ Hfits Hk) as (a & _ & Ha). by exists a. }
  destruct (scan_loop_returns axes max_ch' ymax' mcas' 0 [] h Hok') as [fits' Hfits'];
    [done| |].
  { intros k Hk. apply Hidxs. by rewrite Hperm. }
  exists fits'. unfold hv_scan.
  eapply bind_inr_intro; [reflexivity|]. cbn [heap_of emit fst].
  rewrite <- Hperm.
  eapply bind_inr_intro; [exact Hgrid|]. rewrite readonly_create_subplot_grid.
  eapply bind_inr_intro; [by destruct fig_titles|].
  rewrite (readonly_when _ _ (readonly_emit _)).
  eapply bind_inr_intro; [exact Hlim'|]. rewrite readonly_scan_limits.
  eapply bind_inr_intro; [exact Hfits'|]. reflexivity.
Qed.

(** The fits of a scan and of the scan of a permutation. *)
Lemma hv_scan_equivariant (ax : Axes) (default : A) mcas fits :
  Forall (stored h) mcas →
  result_of (hv_scan banner title name fit mcas voltages gains fig_titles h) = inr fits →
  Forall2 (fit_of fit h) mcas fits ∧
  ∀ mcas', mcas ≡ₚ mcas' →
    ∃ fits',
      result_of (hv_scan banner title name fit mcas' voltages gains fig_titles h) = inr fits' ∧
      Forall2 (fit_of fit h) mcas' fits' ∧ fits ≡ₚ fits'.
Proof.
  intros Hok Hres.
  destruct (hv_scan_inv _ _ Hok Hres) as [Hfits _]. split; [done|].
  intros mcas' Hperm.
  destruct (hv_scan_permuted _ _ _ Hok Hperm Hres) as [fits' Hres'].
  pose proof (stored_Permutation h _ _ Hperm Hok) as Hok'.
  destruct (hv_scan_inv _ _ Hok' Hres') as [Hfits' _].
  exists fits'. split_and!; [done..|].
  set (G := λ mca, match result_of (fit mca ax h) with inr a => a | inl _ => default end).
  assert (∀ mca a, stored h mca → fit_of fit h mca a → a = G mca) as HG.
  { intros mca a Hs Ha. unfold G. rewrite (Ha ax h); [done|].
    intros l Hl. split; [by apply Hs|done]. }
  rewrite (results_fmap _ _ G _ _ HG Hok Hfits).
  rewrite (results_fmap _ _ G _ _ HG Hok' Hfits').
  by apply fmap_Permutation.
Qed.

(** The single fit of a stored spectrum has one result. *)
Lemma fit_of_functional (ax : Axes) mca a b :
  stored h mca → fit_of fit h mca a → fit_of fit h mca b → a = b.
Proof.
  intros Hs Ha Hb.
  assert (same_on (mca_locs mca) h h) as Hsame by (intros l Hl; split; [by apply Hs|done]).
  specialize (Ha ax h Hsame). specialize (Hb ax h Hsame). congruence.
Qed.

(** The scan returns the single fits when the grid and the limits are
    there, each index is there, and each single fit returns. *)
Lemma hv_scan_returns (ax : Axes) mcas fits axes nx ny lim :
  Forall (stored h) mcas →
  result_of (create_subplot_grid (Z.of_nat (length mcas)) h) = inr (axes, nx, ny) →
  result_of (scan_limits mcas h) = inr lim →
  (∀ k, (k < length mcas)%nat →
     ∃ ax, scan_index axes voltages gains (Z.of_nat k) = inr ax) →
  Forall2 (fit_of fit h) mcas fits →
  result_of (hv_scan banner title name fit mcas voltages gains fig_titles h) = inr fits.
Proof.
  intros Hok Hgrid Hlim Hidxs Hfits. destruct lim as [max_ch ymax].
  assert (Forall (λ mca, stored h mca ∧ ∃ a, fit_of fit h mca a) mcas) as Hok'.
  { apply Forall_forall. intros mca Hmca. split.
    - by eapply Forall_forall in Hok.
    - apply list_elem_of_lookup in Hmca as [k Hk].
      destruct (Forall2_lookup_l _ _ _ _ _ Hfits Hk) as (a & _ & Ha). by exists a. }
  destruct (scan_loop_returns axes max_ch ymax mcas 0 [] h Hok') as [fits' Hfits'];
    [done|done|].
  assert (fits' = fits) as ->.
  { destruct (scan_loop_inv _ _ _ _ _ _ _ _ Hok (reflexivity h) Hfits')
      as (new & -> & Hnew & _). cbn [app].
    clear Hfits' Hok' Hidxs Hgrid Hlim. revert new Hnew.
    induction Hfits as [|mca a rest fits Ha _ IH]; intros new Hnew.
    - by apply Forall2_nil_inv_l in Hnew.
    - apply Forall2_cons_inv_l in Hnew as (b & new' & Hb & Hnew' & ->).
      apply Forall_cons in Hok as [Hs Hrest].
      f_equal; [by apply (fit_of_functional ax mca)|by apply IH]. }
  unfold hv_scan.
  eapply bind_inr_intro; [reflexivity|]. cbn [heap_of emit fst].
  eapply bind_inr_intro; [exact Hgrid|]. rewrite readonly_create_subplot_grid.
  eapply bind_inr_intro; [by destruct fig_titles|].
  rewrite (readonly_when _ _ (readonly_emit _)).
  eapply bind_inr_intro; [exact Hlim|]. rewrite readonly_scan_limits.
  eapply bind_inr_intro; [exact Hfits'|]. reflexivity.
Qed.
End Scan.

(** C9.  On a store that holds the spectra, an HV scan returns exactly
    the single fits of its spectra.  When it returns, it returns one fit
    for each spectrum, in the order of the spectra, and the fit of a
    spectrum is what the single fit ([fit_am] with the default threshold
    and multiplier, or the single-peak [fit_fe]) returns for that spectrum
    on any subplot and on any store that has the arrays of that spectrum
    with the same contents, whatever the other spectra are; the scan of a
    permutation of the spectra then returns too, with the fits permuted in
    the same way: aligned with its spectra, and the same multiset.  And it
    does return, with the list of the single fits, whenever the grid of
    subplots and the common limits are found, there is a subplot, a voltage
    and a gain for each index, and each single fit returns. *)
Theorem hv_scans_independent (ax : Axes) mcas voltages gains t m fig_titles vlines h :
  Forall (stored h) mcas →
  (∀ fits,
     result_of (fit_am_hv_scan mcas voltages gains fig_titles vlines h) = inr fits →
     Forall2 (am_fit_of h vlines) mcas fits ∧
     ∀ mcas', mcas ≡ₚ mcas' →
       ∃ fits',
         result_of (fit_am_hv_scan mcas' voltages gains fig_titles vlines h) = inr fits' ∧
         Forall2 (am_fit_of h vlines) mcas' fits' ∧ fits ≡ₚ fits') ∧
  (∀ fits,
     result_of (fit_fe_hv_scan mcas voltages gains t m fig_titles vlines h) = inr fits →
     Forall2 (fe_fit_of h vlines t m) mcas fits ∧
     ∀ mcas', mcas ≡ₚ mcas' →
       ∃ fits',
         result_of (fit_fe_hv_scan mcas' voltages gains t m fig_titles vlines h)
           = inr fits' ∧
         Forall2 (fe_fit_of h vlines t m) mcas' fits' ∧ fits ≡ₚ fits') ∧
  (∀ axes nx ny lim,
     result_of (create_subplot_grid (Z.of_nat (length mcas)) h) = inr (axes, nx, ny) →
     result_of (scan_limits mcas h) = inr lim →
     (∀ k, (k < length mcas)%nat →
        ∃ ax', scan_index axes voltages gains (Z.of_nat k) = inr ax') →
     (∀ fits, Forall2 (am_fit_of h vlines) mcas fits →
        result_of (fit_am_hv_scan mcas voltages gains fig_titles vlines h) = inr fits) ∧
     (∀ fits, Forall2 (fe_fit_of h vlines t m) mcas fits →
        result_of (fit_fe_hv_scan mcas voltages gains t m fig_titles vlines h) = inr fits)).
Proof.
  intros Hok. split_and!.
  - intros fits Hres.
    apply (hv_scan_equivariant
             (λ mca ax, fit_am mca ax THRESHOLD_LEVEL CUT_WIDTH_MULT None vlines) h
             "Fitting Am HV scan" "Am fits" "am_scan_fits" voltages gains fig_titles);
      try done.
    + intros mca ax'. apply frame_fit_am.
    + intros mca ax1 ax2. apply (agree_fit_am (mca_locs mca) mca (λ _ H, H)).
    + exact ([], []).
  - intros fits Hres.
    apply (hv_scan_equivariant
             (λ mca ax, fit_fe mca ax t m false None vlines) h
             "Fitting Fe HV scan" "Fe fits" "fe_scan_fits" voltages gains fig_titles);
      try done.
    + intros mca ax'. apply readonly_frame, readonly_fit_fe.
    + intros mca ax1 ax2. apply (agree_fit_fe (mca_locs mca) mca (λ _ H, H)).
    + exact (Single ([], [])).
  - intros axes nx ny lim Hgrid Hlim Hidxs. split.
    + intros fits Hfits.
      apply (hv_scan_returns
               (λ mca ax, fit_am mca ax THRESHOLD_LEVEL CUT_WIDTH_MULT None vlines) h
               "Fitting Am HV scan" "Am fits" "am_scan_fits" voltages gains fig_titles)
        with axes nx ny lim; try done.
      * intros mca ax'. apply frame_fit_am.
      * intros mca ax1 ax2. apply (agree_fit_am (mca_locs mca) mca (λ _ H, H)).
    + intros fits Hfits.
      apply (hv_scan_returns
               (λ mca ax, fit_fe mca ax t m false None vlines) h
               "Fitting Fe HV scan" "Fe fits" "fe_scan_fits" voltages gains fig_titles)
        with axes nx ny lim; try done.
      * intros mca ax'. apply readonly_frame, readonly_fit_fe.
      * intros mca ax1 ax2. apply (agree_fit_fe (mca_locs mca) mca (λ _ H, H)).
Qed.
(** ** The dual-peak fit *)

Lemma np_arange_head (a b x : Z) : head (np_arange a b) = Some x → x = a.
Proof.
  unfold np_arange, seqZ. destruct (Z.to_nat (b - a)); cbn; [done|].
  intros [= <-]. lia.
Qed.

Lemma read_inr (l : loc) (h : heap) (a c : list Q) :
  h !! l = Some c → result_of (read l h) = inr a → a = c.
Proof. unfold read. intros ->. by intros [= <-]. Qed.

(** X25.  The dual-peak fit above the guard.  When the primary cut starts
    at channel 10 or above, the secondary search is [get_cut] on the counts
    to the left of the primary cut, cut off 10 channels before its start;
    the two fits that [fit_fe] returns are those of the primary and of the
    secondary cut; and every index of the secondary cut is below the start
    of the primary cut minus 10, so none is in the primary cut. *)
Theorem fit_fe_secondary_cut mca ax t m subtracted vlines h c cut1 tw1 p1 pk1 c0 r :
  h !! source mca subtracted = Some c →
  get_cut c t m = inr (cut1, tw1, p1, pk1) →
  head cut1 = Some c0 → 10 ≤ c0 →
  result_of (fit_fe mca ax t m true subtracted vlines h) = inr r →
  ∃ cut2 tw2 p2 pk2 window1 window2 fit fit2,
    secondary_window c cut1 = inr (take (Z.to_nat (c0 - 10)) c) ∧
    get_cut (take (Z.to_nat (c0 - 10)) c) t m = inr (cut2, tw2, p2, pk2) ∧
    np_take c cut1 = inr window1 ∧ np_take c cut2 = inr window2 ∧
    result_of (fit_mca_gaussian mca cut1 window1 pk1 p1 tw1 h) = inr fit ∧
    result_of (fit_mca_gaussian mca cut2 window2 pk2 p2 tw2 h) = inr fit2 ∧
    r = Dual fit fit2 ∧
    (∀ i, i ∈ cut2 → 0 ≤ i < c0 - 10) ∧
    (∀ i, i ∈ cut2 → i ∉ cut1).
Proof.
  intros Hc Hcut1 Hhead Hc0 Hres. unfold fit_fe in Hres. cbv zeta in Hres.
  apply bind_inr in Hres as (c' & Hc' & Hres). rewrite readonly_read in Hres.
  apply (read_inr _ _ _ _ Hc) in Hc' as ->.
  apply bind_inr in Hres as (x & Hx & Hres). cbn [heap_of lift fst] in Hres.
  cbn in Hx. rewrite Hcut1 in Hx. injection Hx as <-.
  apply bind_inr in Hres as (window1 & Hw1 & Hres). cbn [heap_of lift fst] in Hres.
  cbn in Hw1.
  apply bind_inr in Hres as (fit & Hfit & Hres).
  rewrite readonly_fit_mca_gaussian in Hres. cbn [negb] in Hres.
  apply bind_inr in Hres as (c' & Hc' & Hres). rewrite readonly_read in Hres.
  apply (read_inr _ _ _ _ Hc) in Hc' as ->.
  apply bind_inr in Hres as (left & Hleft & Hres). cbn [heap_of lift fst] in Hres.
  cbn in Hleft.
  apply bind_inr in Hres as ([[[cut2 tw2] p2] pk2] & Hcut2 & Hres).
  cbn [heap_of lift fst] in Hres. cbn in Hcut2.
  apply bind_inr in Hres as (_ & _ & Hres).
  rewrite (readonly_when _ _ (readonly_draw_cut _ _ _)) in Hres.
  apply bind_inr in Hres as (window2 & Hw2 & Hres). cbn [heap_of lift fst] in Hres.
  cbn in Hw2.
  apply bind_inr in Hres as (fit2 & Hfit2 & Hres).
  rewrite readonly_fit_mca_gaussian in Hres.
  apply bind_inr in Hres as (_ & _ & Hres). cbn in Hres. injection Hres as <-.
  assert (left = take (Z.to_nat (c0 - 10)) c) as ->.
  { unfold secondary_window in Hleft. apply py_index_first in Hhead.
    rewrite Hhead in Hleft. cbn in Hleft. injection Hleft as <-.
    unfold py_slice_to. destruct (Z.ltb_spec (c0 - 10) 0); [lia|done]. }
  exists cut2, tw2, p2, pk2, window1, window2, fit, fit2.
  destruct (get_cut_within _ _ _ _ _ _ _ Hcut1) as (lo1 & hi1 & -> & _ & _).
  destruct (get_cut_within _ _ _ _ _ _ _ Hcut2) as (lo2 & hi2 & -> & Hlo2 & Hhi2).
  apply np_arange_head in Hhead as ->.
  rewrite length_take in Hhi2.
  assert (∀ i, i ∈ np_arange lo2 hi2 → 0 ≤ i < lo1 - 10) as Hleft'.
  { intros i Hi%np_arange_elem. lia. }
  split_and!; try done.
  intros i Hi Hi1%np_arange_elem. specialize (Hleft' i Hi). lia.
Qed.

(** Below channel 10 the stop of the slice is negative and Python counts
    it from the end: the window is then the counts without their last
    channels, not the channels to the left of the cut. *)
Example secondary_window_negative_stop :
  secondary_window [0; 0; 0; 9; 0; 0; 0; 0; 0; 0; 0; 0]%Q [3] = inr [0; 0; 0; 9; 0]%Q.
Proof. reflexivity. Qed.

(** ** More on the cut extractor *)

Lemma where_from_none (f : Q → bool) (l : list Q) (i : Z) :
  (∀ v, v ∈ l → f v = false) → where_from f l i = [].
Proof.
  revert i. induction l as [|v l IH]; intros i H; [done|].
  cbn [where_from]. rewrite (H v) by (by left). apply IH. intros w Hw. apply H. by right.
Qed.

(** No channel is above a threshold that the maximum does not exceed. *)
Lemma get_cut_below_threshold (data : list Q) (t m : Q) p peak :
  np_argmax data = inr p → data !! Z.to_nat p = Some peak → (peak <= peak * t)%Q →
  get_cut data t m = inl (IndexError "index out of bounds").
Proof.
  intros Hp Hpk Hle. unfold get_cut. rewrite Hp. cbn.
  destruct (np_argmax_spec _ _ Hp) as (k & pk & -> & Hk & Hmax & _).
  rewrite Nat2Z.id in Hpk. assert (pk = peak) as -> by congruence.
  assert (py_index data (Z.of_nat k) = inr peak) as ->.
  { apply py_index_nonneg; [lia|]. by rewrite Nat2Z.id. }
  cbn. unfold np_where. rewrite where_from_none.
  - by rewrite py_index_empty.
  - intros v Hv. apply Qltb_ge. specialize (Hmax v Hv). lra.
Qed.

(** X1.  The outcomes of [get_cut].  On the empty array it raises the
    [ValueError] of [np.argmax].  On a non-empty array, with [peak] the
    maximum: when [peak <= peak * threshold_level] no channel is above the
    threshold and [threshold_inds[-1]] raises [IndexError]; otherwise it
    returns, with the index and the value of the maximum. *)
Theorem get_cut_outcome (data : list Q) (t m : Q) :
  (data = [] →
   get_cut data t m = inl (ValueError "attempt to get argmax of an empty sequence")) ∧
  (data ≠ [] →
   ∃ p peak, np_argmax data = inr p ∧ data !! Z.to_nat p = Some peak ∧
     ((peak <= peak * t)%Q → get_cut data t m = inl (IndexError "index out of bounds")) ∧
     ((peak * t < peak)%Q → ∃ cut tw, get_cut data t m = inr (cut, tw, p, peak))).
Proof.
  split; [by intros ->|]. intros Hne.
  destruct (np_argmax_nonempty _ Hne) as [p Hp].
  destruct (np_argmax_spec _ _ Hp) as (k & peak & -> & Hk & Hmax & _).
  assert (data !! Z.to_nat (Z.of_nat k) = Some peak) as Hk' by (by rewrite Nat2Z.id).
  exists (Z.of_nat k), peak. split_and!; [done..| |].
  - intros Hle. by apply (get_cut_below_threshold data t m _ peak Hp Hk').
  - intros Hlt. apply (get_cut_returns data t m _ _ (Z.of_nat k) Hp Hk').
    apply where_from_spec. exists k, peak. split; [lia|]. split; [done|]. by apply Qltb_lt.
Qed.

(** X2.  A non-empty array without a positive value (an all-zero spectrum,
    say) makes [get_cut] raise [IndexError], for every threshold level in
    [0, 1] and every multiplier. *)
Theorem get_cut_nonpositive (data : list Q) (t m : Q) :
  data ≠ [] → (∀ v, v ∈ data → (v <= 0)%Q) → (0 <= t)%Q → (t <= 1)%Q →
  get_cut data t m = inl (IndexError "index out of bounds").
Proof.
  intros Hne Hnonpos Ht0 Ht1.
  destruct (np_argmax_nonempty _ Hne) as [p Hp].
  destruct (np_argmax_spec _ _ Hp) as (k & peak & -> & Hk & _).
  apply (get_cut_below_threshold data t m (Z.of_nat k) peak Hp).
  - by rewrite Nat2Z.id.
  - assert (peak <= 0)%Q by (apply Hnonpos; by eapply list_elem_of_lookup_2). nra.
Qed.

Lemma py_round_Qeq (x : Q) (z : Z) : (x == inject_Z z)%Q → py_round x = z.
Proof.
  intros Heq. apply Z.le_antisymm.
  - apply Z.le_trans with (py_round (inject_Z z)); [|by rewrite py_round_Z].
    apply py_round_mono. lra.
  - apply Z.le_trans with (py_round (inject_Z z)); [by rewrite py_round_Z|].
    apply py_round_mono. lra.
Qed.

Lemma cut_ind_min_exact (p first target : Z) (m : Q) :
  0 ≤ target →
  (inject_Z p - m * inject_Z (p - first) == inject_Z target)%Q →
  cut_ind_min p first m = target.
Proof.
  intros Ht Heq. unfold cut_ind_min. apply py_round_Qeq.
  assert (0 <= inject_Z target)%Q by (rewrite <- (Zle_Qle 0); done).
  unfold py_max0. destruct (Qltb 0 _) eqn:E; [done|]. apply Qltb_ge in E. lra.
Qed.

Lemma cut_ind_max_exact (size p last_ target : Z) (m : Q) :
  target ≤ size →
  (inject_Z p + m * inject_Z (last_ - p) + 1 == inject_Z target)%Q →
  cut_ind_max size p last_ m = target.
Proof.
  intros Ht Heq. unfold cut_ind_max. apply py_round_Qeq.
  assert (inject_Z target <= inject_Z size)%Q by (rewrite <- Zle_Qle; done).
  unfold py_min. destruct (Qltb _ (inject_Z size)) eqn:E; [done|]. apply Qltb_ge in E. lra.
Qed.

Lemma np_arange_singleton (p : Z) : np_arange p (p + 1) = [p].
Proof.
  unfold np_arange. replace (p + 1 - p) with 1 by lia.
  reflexivity.
Qed.

(** X3.  A single spike: when the maximum is above the threshold and every
    other channel is at or below it, the threshold width is 0 and the cut is
    the peak channel alone, whatever the multiplier. *)
Theorem get_cut_spike (data : list Q) (t m : Q) p peak :
  np_argmax data = inr p → data !! Z.to_nat p = Some peak → (peak * t < peak)%Q →
  (∀ i v, data !! i = Some v → Z.of_nat i ≠ p → (v <= peak * t)%Q) →
  get_cut data t m = inr ([p], 0, p, peak).
Proof.
  intros Hp Hpk Hlt Hothers.
  assert (∀ x, x ∈ np_where (λ v, Qltb (peak * t) v) data → x = p) as Honly.
  { intros x (i & v & -> & Hi & Hv)%where_from_spec. apply Qltb_lt in Hv.
    destruct (decide (Z.of_nat i = p)) as [Heq|Hne]; [lia|].
    specialize (Hothers i v Hi Hne). lra. }
  destruct (np_argmax_spec _ _ Hp) as (k & pk & -> & Hk & _).
  assert (Z.of_nat k ∈ np_where (λ v, Qltb (peak * t) v) data) as Hin.
  { apply where_from_spec. exists k, peak. split; [lia|]. rewrite Nat2Z.id in Hpk.
    split; [done|]. by apply Qltb_lt. }
  destruct (get_cut_returns data t m _ _ _ Hp Hpk Hin) as (cut & tw & Hcut).
  rewrite Hcut.
  destruct (get_cut_inv _ _ _ _ _ _ _ Hcut)
    as (first & last_ & _ & _ & Hrange & Hfirst & Hlast & -> & ->).
  apply where_from_head in Hfirst as [Hf _]. apply where_from_last in Hlast as [Hl _].
  apply Honly in Hf as ->. apply Honly in Hl as ->.
  rewrite (cut_ind_min_exact _ _ (Z.of_nat k)), (cut_ind_max_exact _ _ _ (Z.of_nat k + 1)).
  - rewrite np_arange_singleton, Z.sub_diag. done.
  - lia.
  - rewrite Z.sub_diag, inject_Z_plus. change (inject_Z 0) with 0%Q.
    change (inject_Z 1) with 1%Q. lra.
  - lia.
  - rewrite Z.sub_diag. change (inject_Z 0) with 0%Q. lra.
Qed.

(** X4.  With a multiplier of at least 1 the cut has every channel that is
    above the threshold. *)
Theorem get_cut_covers_threshold (data : list Q) (t m : Q) cut tw p peak :
  (1 <= m)%Q → get_cut data t m = inr (cut, tw, p, peak) →
  ∀ i, i ∈ np_where (λ v, Qltb (peak * t) v) data → i ∈ cut.
Proof.
  intros Hm Hcut i Hi.
  destruct (get_cut_inv _ _ _ _ _ _ _ Hcut)
    as (first & last_ & Hp & Hpk & Hrange & Hfirst & Hlast & -> & ->).
  destruct (threshold_inds_around_peak _ _ _ _ _ _ Hp Hpk Hfirst Hlast)
    as (Hf0 & Hfp & Hpl & Hln).
  apply where_from_head in Hfirst as [_ Hmin]. apply where_from_last in Hlast as [_ Hmax].
  specialize (Hmin i Hi). specialize (Hmax i Hi).
  assert (0 <= inject_Z (p - first))%Q as H1 by (rewrite <- (Zle_Qle 0); lia).
  assert (0 <= inject_Z (last_ - p))%Q as H2 by (rewrite <- (Zle_Qle 0); lia).
  assert (0 <= inject_Z first)%Q as H3 by (rewrite <- (Zle_Qle 0); lia).
  assert (inject_Z (last_ + 1) <= inject_Z (Z.of_nat (length data)))%Q as H4
    by (rewrite <- Zle_Qle; lia).
  pose proof (inject_Z_plus last_ 1) as E1. change (inject_Z 1) with 1%Q in E1.
  assert (inject_Z (p - first) == inject_Z p - inject_Z first)%Q as E2.
  { unfold Z.sub. rewrite inject_Z_plus, inject_Z_opp. lra. }
  assert (inject_Z (last_ - p) == inject_Z last_ - inject_Z p)%Q as E3.
  { unfold Z.sub. rewrite inject_Z_plus, inject_Z_opp. lra. }
  apply np_arange_elem. split.
  - apply Z.le_trans with first; [|done]. unfold cut_ind_min.
    apply Z.le_trans with (py_round (inject_Z first)); [|by rewrite py_round_Z].
    apply py_round_mono.
    destruct (py_max0_spec (inject_Z p - m * inject_Z (p - first))) as (_ & _ & [->| ->]);
      [nra|done].
  - apply Z.lt_le_trans with (last_ + 1); [lia|]. unfold cut_ind_max.
    apply Z.le_trans with (py_round (inject_Z (last_ + 1))); [by rewrite py_round_Z|].
    apply py_round_mono.
    destruct (py_min_spec (Z.of_nat (length data))
                (inject_Z p + m * inject_Z (last_ - p) + 1)) as (_ & _ & [->| ->]);
      [|done]. rewrite E1. nra.
Qed.

(** X5.  With the multiplier 1 the cut is the span of the channels above
    the threshold: it starts at the first of them and has
    [threshold_width + 1] channels. *)
Theorem get_cut_unit_multiplier (data : list Q) (t : Q) cut tw p peak :
  get_cut data t 1 = inr (cut, tw, p, peak) →
  ∃ first,
    head (np_where (λ v, Qltb (peak * t) v) data) = Some first ∧
    cut = np_arange first (first + tw + 1) ∧
    Z.of_nat (length cut) = tw + 1.
Proof.
  intros Hcut.
  destruct (get_cut_inv _ _ _ _ _ _ _ Hcut)
    as (first & last_ & Hp & Hpk & Hrange & Hfirst & Hlast & -> & ->).
  destruct (threshold_inds_around_peak _ _ _ _ _ _ Hp Hpk Hfirst Hlast)
    as (Hf0 & Hfp & Hpl & Hln).
  assert (inject_Z (p - first) == inject_Z p - inject_Z first)%Q as E2.
  { unfold Z.sub. rewrite inject_Z_plus, inject_Z_opp. lra. }
  assert (inject_Z (last_ - p) == inject_Z last_ - inject_Z p)%Q as E3.
  { unfold Z.sub. rewrite inject_Z_plus, inject_Z_opp. lra. }
  pose proof (inject_Z_plus last_ 1) as E1. change (inject_Z 1) with 1%Q in E1.
  exists first. split; [done|].
  rewrite (cut_ind_min_exact _ _ first), (cut_ind_max_exact _ _ _ (last_ + 1));
    [|lia|rewrite E1; lra|lia|lra].
  replace (first + (last_ - first) + 1) with (last_ + 1) by lia. split; [done|].
  unfold np_arange. rewrite length_seqZ. lia.
Qed.

Lemma np_argmax_take (data : list Q) (k : nat) (p : Z) :
  np_argmax data = inr p → p < Z.of_nat k → np_argmax (take k data) = inr p.
Proof.
  intros Hp Hk.
  destruct (np_argmax_spec _ _ Hp) as (j & pk & -> & Hj & Hmax & Hfirst).
  assert (take k data ≠ []) as Hne.
  { intros Hnil. assert (take k data !! j = Some pk) as H; [|by rewrite Hnil in H].
    rewrite lookup_take_lt by lia. done. }
  destruct (np_argmax_nonempty _ Hne) as [p' Hp']. rewrite Hp'. f_equal.
  destruct (np_argmax_spec _ _ Hp') as (j' & pk' & -> & Hj' & Hmax' & Hfirst').
  assert (j' < k)%nat as Hj'k.
  { apply lookup_lt_Some in Hj'. rewrite length_take in Hj'. lia. }
  rewrite lookup_take_lt in Hj' by done.
  destruct (Nat.lt_trichotomy j' j) as [Hlt|[->|Hgt]]; [|done|].
  - pose proof (Hfirst j' pk' Hlt Hj').
    assert (pk <= pk')%Q; [|lra]. apply Hmax'.
    apply list_elem_of_lookup. exists j. rewrite lookup_take_lt by lia. done.
  - assert (take k data !! j = Some pk) as Hjt by (rewrite lookup_take_lt by lia; done).
    pose proof (Hfirst' j pk Hgt Hjt).
    assert (pk' <= pk)%Q; [|lra]. apply Hmax. by eapply list_elem_of_lookup_2.
Qed.

Lemma where_from_take (f : Q → bool) (l : list Q) (k : nat) (i x : Z) :
  x ∈ where_from f (take k l) i ↔ x ∈ where_from f l i ∧ x < i + Z.of_nat k.
Proof.
  rewrite !where_from_spec. split.
  - intros (j & v & -> & Hj & Hv).
    assert (j < k)%nat.
    { apply lookup_lt_Some in Hj. rewrite length_take in Hj. lia. }
    rewrite lookup_take_lt in Hj by done. split; [by exists j, v|lia].
  - intros [(j & v & -> & Hj & Hv) Hlt]. exists j, v. split; [done|].
    rewrite lookup_take_lt by lia. done.
Qed.

(** ** More on the two-stage fitter and the Gaussian wrapper *)

(** X8.  The refined path: when both solvers return and some entry of the
    refinement covariance is not a zero, [fit_odr] returns the refined
    parameters and covariance, leaves the store as it is, and does not print
    the fallback warning. *)
Theorem fit_odr_refined func x y std_x std_y p0 debug h seed out :
  curve_fit func x y p0 std_y = inr seed →
  odr_run func x y std_x std_y seed.1 = inr out →
  ¬ all_zero (cov_beta out) →
  result_of (fit_odr func x y std_x std_y p0 debug h) = inr (beta out, cov_beta out) ∧
  heap_of (fit_odr func x y std_x std_y p0 debug h) = h ∧
  Printed odr_warning ∉ events_of (fit_odr func x y std_x std_y p0 debug h).
Proof.
  intros Hcf Hodr Hnz.
  rewrite <- np_any_all_zero, not_false_iff_true in Hnz.
  rewrite (fit_odr_run _ _ _ _ _ _ _ _ _ _ Hcf Hodr), Hnz. cbn [negb].
  split_and!; [done..|]. cbn [events_of fst snd]. unfold lsq_warning, odr_warning.
  destruct (np_any_bool _), debug; cbn [app]; intros H;
    repeat (apply elem_of_cons in H as [?|H]; [discriminate|]);
    by apply elem_of_nil in H.
Qed.

(** X9.  What [fit_odr] raises is what a solver raised.  When the seed fit
    raises, the refinement is not started; when the refinement raises, no
    fallback is made; and [fit_odr] raises in no other case. *)
Theorem fit_odr_raises func x y std_x std_y p0 debug h :
  (∀ msg, curve_fit func x y p0 std_y = inl msg →
     fit_odr func x y std_x std_y p0 debug h =
       (h, [CurveFit func x y p0 std_y], inl (LibraryError msg))) ∧
  (∀ seed msg, curve_fit func x y p0 std_y = inr seed →
     odr_run func x y std_x std_y seed.1 = inl msg →
     fit_odr func x y std_x std_y p0 debug h =
       (h,
        CurveFit func x y p0 std_y ::
        (if np_any_bool (np_isinf seed.2) then [Printed lsq_warning] else []) ++
        [OdrRun func x y std_x std_y seed.1],
        inl (LibraryError msg))) ∧
  (∀ e, result_of (fit_odr func x y std_x std_y p0 debug h) = inl e →
     ∃ msg, e = LibraryError msg ∧
       (curve_fit func x y p0 std_y = inl msg ∨
        ∃ seed, curve_fit func x y p0 std_y = inr seed ∧
                odr_run func x y std_x std_y seed.1 = inl msg)).
Proof.
  assert (∀ msg, curve_fit func x y p0 std_y = inl msg →
            fit_odr func x y std_x std_y p0 debug h =
              (h, [CurveFit func x y p0 std_y], inl (LibraryError msg))) as H1.
  { intros msg Hcf. unfold fit_odr. unfold mbind, M_mbind, M_bind, emit, lift.
    by rewrite Hcf. }
  assert (∀ seed msg, curve_fit func x y p0 std_y = inr seed →
            odr_run func x y std_x std_y seed.1 = inl msg →
            fit_odr func x y std_x std_y p0 debug h =
              (h,
               CurveFit func x y p0 std_y ::
               (if np_any_bool (np_isinf seed.2) then [Printed lsq_warning] else []) ++
               [OdrRun func x y std_x std_y seed.1],
               inl (LibraryError msg))) as H2.
  { intros seed msg Hcf Hodr. unfold fit_odr.
    unfold mbind, M_mbind, M_bind, emit, lift, when, mret, M_mret, M_ret.
    rewrite Hcf. cbn [library].
    destruct (np_any_bool (np_isinf seed.2)); cbn [app]; by rewrite Hodr. }
  split_and!; [done..|]. intros e He.
  destruct (curve_fit func x y p0 std_y) as [msg|seed] eqn:Hcf.
  - rewrite (H1 msg eq_refl) in He. injection He as <-. exists msg. by split; [|left].
  - destruct (odr_run func x y std_x std_y seed.1) as [msg|out] eqn:Hodr.
    + rewrite (H2 seed msg eq_refl Hodr) in He. injection He as <-.
      exists msg. split; [done|]. right. by exists seed.
    + rewrite (fit_odr_run _ _ _ _ _ _ _ _ _ _ Hcf Hodr) in He. cbn in He.
      by destruct (negb _).
Qed.

(** ** The manual fit *)

Lemma py_index_error {A} (l : list A) (i : Z) (e : exn) :
  py_index l i = inl e → e = IndexError "index out of bounds".
Proof. unfold py_index. destruct (if 0 <=? _ then _ else _); [done|]. by intros [= <-]. Qed.

Lemma py_index_above {A} (l : list A) (i : Z) :
  Z.of_nat (length l) ≤ i → py_index l i = inl (IndexError "index out of bounds").
Proof.
  intros Hi. unfold py_index. destruct (Z.ltb_spec i 0); [lia|].
  destruct (Z.leb_spec 0 i); [|done].
  rewrite lookup_ge_None_2; [done|lia].
Qed.

Lemma np_take_fails (c : list Q) (inds : list Z) (i : Z) :
  i ∈ inds → Z.of_nat (length c) ≤ i →
  np_take c inds = inl (IndexError "index out of bounds").
Proof.
  intros Hin Hi. induction inds as [|a inds IH]; [by apply elem_of_nil in Hin|].
  cbn [np_take]. destruct (py_index c a) as [e|v] eqn:Ha.
  - by rewrite (py_index_error _ _ _ Ha).
  - apply elem_of_cons in Hin as [->|Hin]; [by rewrite py_index_above in Ha|].
    cbn. by rewrite IH.
Qed.

(** An index range inside the array takes the slice. *)
Lemma np_take_seqZ (c : list Q) (n : nat) (a : Z) :
  0 ≤ a → a + Z.of_nat n ≤ Z.of_nat (length c) →
  np_take c (seqZ a (Z.of_nat n)) = inr (take n (drop (Z.to_nat a) c)).
Proof.
  revert a. induction n as [|n IH]; intros a Ha Hlen.
  - done.
  - rewrite seqZ_cons by lia. cbn [np_take].
    destruct (lookup_lt_is_Some_2 c (Z.to_nat a)) as [v Hv]; [lia|].
    assert (py_index c a = inr v) as -> by (by apply py_index_nonneg).
    cbn [mbind res_mbind res_bind].
    replace (Z.pred (Z.of_nat (S n))) with (Z.of_nat n) by lia.
    rewrite IH by lia. cbn.
    replace (Z.to_nat (Z.succ a)) with (S (Z.to_nat a)) by lia.
    rewrite (drop_S _ _ _ Hv). done.
Qed.

Lemma np_take_arange (c : list Q) (a b : Z) :
  0 ≤ a → a ≤ b → b ≤ Z.of_nat (length c) →
  np_take c (np_arange a b) = inr (take (Z.to_nat (b - a)) (drop (Z.to_nat a) c)).
Proof.
  intros Ha Hab Hb. unfold np_arange.
  rewrite <- (Z2Nat.id (b - a)) at 1 by lia. apply np_take_seqZ; lia.
Qed.

Section SeedEvents.
Variable h0 : heap.
Variable Ev : event → Prop.
Hypothesis Ev_other : ∀ ev, ¬ is_curve_fit ev → Ev ev.

Lemma triple_fit_mca_gaussian_seed mca inds cnts peak peak_ind tw :
  (∀ sigma, Ev (CurveFit gaussian_scaled (inject_Z <$> inds) cnts
                  (Some [peak; inject_Z peak_ind; ((4 # 10) * inject_Z tw)%Q]) sigma)) →
  triple h0 (fit_mca_gaussian mca inds cnts peak peak_ind tw) Ev (λ _, True).
Proof.
  intros Hcf. unfold fit_mca_gaussian.
  destruct (diff_nonlin mca), (int_nonlin mca); try apply triple_raise.
  eapply triple_bind; [apply triple_read|intros dx _].
  eapply triple_bind; [apply triple_read|intros iy _].
  eapply triple_bind; [apply triple_lift|intros sy _].
  by apply triple_fit_odr.
Qed.

Lemma triple_plot_gaussians mca ax fits :
  triple h0 (plot_gaussians mca ax fits) Ev (λ _, True).
Proof.
  unfold plot_gaussians.
  eapply triple_bind; [apply triple_read|intros ch _].
  eapply triple_bind; [apply triple_lift|intros ? _].
  apply triple_emit, Ev_other. by intros [].
Qed.
End SeedEvents.

(** X10.  An empty index range ([max_ind <= min_ind]) makes [fit_manual]
    raise the [ValueError] of [np.argmax], with nothing drawn, no solver
    called and the store as it was. *)
Theorem fit_manual_empty_range mca ax min_ind max_ind subtracted vlines h c :
  h !! source mca subtracted = Some c → max_ind ≤ min_ind →
  fit_manual mca ax min_ind max_ind subtracted vlines h =
    (h, [], inl (ValueError "attempt to get argmax of an empty sequence")).
Proof.
  intros Hc Hle. unfold fit_manual. cbv zeta.
  assert (np_arange min_ind max_ind = []) as ->.
  { unfold np_arange, seqZ. by replace (Z.to_nat (max_ind - min_ind)) with 0%nat by lia. }
  unfold mbind at 1 2 3. unfold M_mbind, M_bind. by rewrite (read_some _ _ _ Hc).
Qed.

(** X11.  A range that starts inside the counts and ends beyond their last
    channel makes [fit_manual] raise [IndexError] when it takes the window,
    with nothing drawn and no solver called. *)
Theorem fit_manual_out_of_range mca ax min_ind max_ind subtracted vlines h c :
  h !! source mca subtracted = Some c →
  0 ≤ min_ind → min_ind < max_ind → Z.of_nat (length c) < max_ind →
  fit_manual mca ax min_ind max_ind subtracted vlines h =
    (h, [], inl (IndexError "index out of bounds")).
Proof.
  intros Hc Hmin Hlt Hlen. unfold fit_manual. cbv zeta.
  unfold mbind at 1 2. unfold M_mbind, M_bind. rewrite (read_some _ _ _ Hc).
  rewrite (np_take_fails c _ (max_ind - 1)); [done| |lia].
  apply np_arange_elem. lia.
Qed.

(** X12.  A range inside the counts: every seed fit that [fit_manual] makes
    is the scaled Gaussian on the channels of the range with their counts,
    started at the highest count of the range, at the channel of that count
    (which is in the range) and at 0.4 times the width of the range. *)
Theorem fit_manual_seed mca ax min_ind max_ind subtracted vlines h c :
  h !! source mca subtracted = Some c →
  0 ≤ min_ind → min_ind < max_ind → max_ind ≤ Z.of_nat (length c) →
  Forall (manual_seed c min_ind max_ind)
    (events_of (fit_manual mca ax min_ind max_ind subtracted vlines h)).
Proof.
  intros Hc Hmin Hlt Hmax.
  assert (∀ ev, ¬ is_curve_fit ev → manual_seed c min_ind max_ind ev) as Hother.
  { intros [] H; try done; by destruct H. }
  cut (triple h (fit_manual mca ax min_ind max_ind subtracted vlines)
         (manual_seed c min_ind max_ind) (λ _, True)).
  { intros Ht. by destruct (Ht h) as (_ & Hev & _). }
  unfold fit_manual. cbv zeta.
  eapply triple_bind; [apply triple_read|intros c' Hc'].
  rewrite (Hc' _ Hc). clear c' Hc'.
  rewrite np_take_arange by lia.
  set (window := take (Z.to_nat (max_ind - min_ind)) (drop (Z.to_nat min_ind) c)).
  eapply triple_bind; [apply triple_lift|intros w [= <-]].
  eapply triple_bind; [apply triple_lift|intros am Ham].
  eapply triple_bind; [apply triple_lift|intros peak Hpeak].
  eapply triple_bind; [by apply triple_when, triple_draw_cut|intros _ _].
  eapply triple_bind; [apply triple_lift|intros w [= <-]].
  eapply triple_bind; [|intros fit _].
  - apply triple_fit_mca_gaussian_seed; [done|]. intros sigma.
    destruct (np_argmax_spec _ _ Ham) as (k & pk & -> & Hk & Hmaxw & _).
    assert (k < Z.to_nat (max_ind - min_ind))%nat as Hklt.
    { apply lookup_lt_Some in Hk. unfold window in Hk. rewrite length_take in Hk. lia. }
    apply py_index_nonneg in Hpeak; [|lia].
    split_and!; [done..|]. exists peak, (min_ind + Z.of_nat k).
    split_and!; [done|lia|lia|done|].
    assert (pk = peak) as ->; [|done].
    unfold window in Hk. rewrite lookup_take_lt, lookup_drop in Hk by done.
    replace (Z.to_nat (min_ind + Z.of_nat k)) with (Z.to_nat min_ind + k)%nat in Hpeak by lia.
    congruence.
  - eapply triple_bind; [by apply triple_plot_gaussians|intros _ _].
    by apply triple_ret.
Qed.

(** ** The Am fit *)

Lemma foldl_max_spec (l : list Q) (b : Q) :
  let r := foldl (λ best w, if Qltb best w then w else best) b l in
  r ∈ b :: l ∧ (b <= r)%Q ∧ ∀ v, v ∈ l → (v <= r)%Q.
Proof.
  revert b. induction l as [|w l IH]; intros b; cbn.
  - split_and!; [by left|lra|]. by intros v Hv%elem_of_nil.
  - destruct (Qltb b w) eqn:E.
    + apply Qltb_lt in E. destruct (IH w) as (Hin & Hle & Hall). split_and!.
      * by right.
      * lra.
      * intros v [->|Hv]%elem_of_cons; [done|by apply Hall].
    + apply Qltb_ge in E. destruct (IH b) as (Hin & Hle & Hall). split_and!.
      * apply elem_of_cons in Hin as [->|Hin]; [by left|by right; right].
      * done.
      * intros v [->|Hv]%elem_of_cons; [lra|by apply Hall].
Qed.

(** [np.max] gives an element that no element exceeds. *)
Lemma np_max_spec (c : list Q) (peak : Q) :
  np_max c = inr peak → peak ∈ c ∧ ∀ v, v ∈ c → (v <= peak)%Q.
Proof.
  destruct c as [|b l]; [done|]. cbn [np_max]. intros [= <-].
  destruct (foldl_max_spec l b) as (Hin & Hle & Hall). split; [done|].
  intros v [->|Hv]%elem_of_cons; [done|by apply Hall].
Qed.

(** X13.  Counts without a positive value: [fit_am] raises before it
    copies or draws anything and before any solver call, with the store as
    it was.  On empty counts it is the [ValueError] of [np.max]; otherwise,
    for a threshold level in [0, 1], no channel is above the threshold and
    [above_threshold[0]] raises [IndexError]. *)
Theorem fit_am_no_peak mca ax t m subtracted vlines h c :
  h !! source mca subtracted = Some c →
  (∀ v, v ∈ c → (v <= 0)%Q) → (0 <= t)%Q → (t <= 1)%Q →
  fit_am mca ax t m subtracted vlines h =
    (h, [],
     inl (match c with
          | [] => ValueError
                    "zero-size array to reduction operation maximum which has no identity"
          | _ => IndexError "index out of bounds"
          end)).
Proof.
  intros Hc Hnonpos Ht0 Ht1. unfold fit_am. cbv zeta.
  unfold mbind at 1 2. unfold M_mbind, M_bind. rewrite (read_some _ _ _ Hc).
  destruct c as [|b l]; [done|].
  destruct (np_max (b :: l)) as [e|peak] eqn:Hpeak; [done|].
  unfold lift at 1. destruct (np_max_spec _ _ Hpeak) as [Hin Hmax].
  unfold np_where. rewrite where_from_none.
  - unfold mbind. unfold M_mbind, M_bind, lift. by rewrite py_index_empty.
  - intros v Hv. apply Qltb_ge. specialize (Hmax v Hv).
    assert (peak <= 0)%Q by (by apply Hnonpos). nra.
Qed.

Lemma length_zero_to (c : list Q) (k : Z) : length (zero_to c k) = length c.
Proof.
  unfold zero_to. rewrite length_app, length_replicate, length_drop.
  assert (length (py_slice_to c k) ≤ length c)%nat; [|lia].
  unfold py_slice_to. rewrite length_take. lia.
Qed.

Lemma zero_to_lookup (c : list Q) (k : Z) (i : nat) :
  0 ≤ k → Z.of_nat i < k → (i < length c)%nat → zero_to c k !! i = Some 0%Q.
Proof.
  intros Hk Hi Hlen. unfold zero_to.
  assert (i < length (py_slice_to c k))%nat as Hlt.
  { unfold py_slice_to. destruct (Z.ltb_spec k 0); [lia|]. rewrite length_take. lia. }
  rewrite lookup_app_l by (by rewrite length_replicate).
  by apply lookup_replicate_2.
Qed.

(** The peak that [get_cut] finds in an array whose first [k] channels are
    zeroed is not among them. *)
Lemma get_cut_zero_to (c : list Q) (k : Z) (t m : Q) cut tw p pk :
  0 ≤ k → get_cut (zero_to c k) t m = inr (cut, tw, p, pk) → k ≤ p.
Proof.
  intros Hk Hcut.
  destruct (get_cut_inv _ _ _ _ _ _ _ Hcut)
    as (first & last_ & Hp & Hpk & Hrange & Hfirst & _).
  destruct (np_argmax_spec _ _ Hp) as (j & pk' & -> & Hj & Hmax & _).
  rewrite Nat2Z.id in Hpk. assert (pk' = pk) as -> by congruence.
  apply where_from_head in Hfirst as [(i & v & _ & Hi & Hv)%where_from_spec _].
  apply Qltb_lt in Hv.
  assert (v <= pk)%Q by (apply Hmax; by eapply list_elem_of_lookup_2).
  destruct (Z.le_gt_cases k (Z.of_nat j)) as [|Hlt]; [done|].
  rewrite length_zero_to in Hrange.
  rewrite zero_to_lookup in Hj by lia. injection Hj as <-. lra.
Qed.

Lemma triple_copy_block {A} h0 (l : loc) (k : Z) (g : list Q → M A) Ev
    (Post : A → Prop) (c : list Q) :
  h0 !! l = Some c → triple h0 (g (zero_to c k)) Ev Post →
  triple h0 (filtered ← np_copy l; np_zero_to filtered k;; f ← read filtered; g f) Ev Post.
Proof.
  intros Hc Hg h Hh.
  rewrite (copy_block_run l k g h c (lookup_weaken _ _ _ _ Hc Hh)).
  apply Hg. etrans; [done|]. apply insert_subseteq, not_elem_of_dom, is_fresh.
Qed.

(** X14.  [fit_am] fits the right-hand part of the spectrum: in every seed
    fit it makes, the centre it starts from is at or to the right of the
    midpoint of the first and the last channel above the threshold. *)
Theorem fit_am_seed_right mca ax t m subtracted vlines h c :
  h !! source mca subtracted = Some c →
  Forall (am_seed c t) (events_of (fit_am mca ax t m subtracted vlines h)).
Proof.
  intros Hc.
  assert (∀ ev, ¬ is_curve_fit ev → am_seed c t ev) as Hother.
  { intros [] H; try done; by destruct H. }
  cut (triple h (fit_am mca ax t m subtracted vlines) (am_seed c t) (λ _, True)).
  { intros Ht. by destruct (Ht h) as (_ & Hev & _). }
  unfold fit_am. cbv zeta.
  eapply triple_bind; [apply triple_read|intros c' Hc'].
  rewrite (Hc' _ Hc). clear c' Hc'.
  eapply triple_bind; [apply triple_lift|intros peak Hpeak].
  eapply triple_bind; [apply triple_lift|intros a0 Ha0].
  eapply triple_bind; [apply triple_lift|intros a1 Ha1].
  apply py_index_first in Ha0. apply py_index_last in Ha1.
  assert (0 ≤ (a0 + a1) `div` 2) as Hhalf.
  { destruct (where_from_head _ _ _ _ Ha0) as [(i0 & _ & -> & _)%where_from_spec _].
    destruct (where_from_last _ _ _ _ Ha1) as [(i1 & _ & -> & _)%where_from_spec _].
    apply Z.div_pos; lia. }
  eapply triple_copy_block; [exact Hc|].
  eapply triple_bind; [apply triple_lift|intros [[[cut tw] p] pk] Hcut].
  apply get_cut_zero_to in Hcut; [|done].
  eapply triple_bind; [by apply triple_when, triple_draw_cut|intros _ _].
  eapply triple_bind; [apply triple_read|intros c' _].
  eapply triple_bind; [apply triple_lift|intros window _].
  eapply triple_bind; [|intros fit _].
  - apply triple_fit_mca_gaussian_seed; [done|]. intros sigma.
    by exists peak, a0, a1, pk, p, ((4 # 10) * inject_Z tw)%Q.
  - eapply triple_bind; [apply triple_read|intros ch _].
    eapply triple_bind; [apply triple_emit, Hother; by intros []|intros _ _].
    by apply triple_ret.
Qed.

(** ** The Fe fit *)

Lemma plot_gaussians_result mca ax fits h :
  result_of (plot_gaussians mca ax fits h) =
  match h !! channels mca with
  | Some _ =>
      match mapM (λ fit : fit_result, py_index fit.1 0) fits with
      | inr _ => inr tt
      | inl e => inl e
      end
  | None => inl UnboundArray
  end.
Proof.
  unfold plot_gaussians. rewrite bind_result. unfold read.
  destruct (h !! channels mca) as [ch|]; [|done]. cbn [result_of heap_of fst snd].
  rewrite bind_result. cbn [result_of heap_of lift fst snd].
  by destruct (mapM _ fits).
Qed.

(** X15.  The primary fit does not depend on the secondary one: when the
    dual-peak fit returns, it returns a pair, and the single-peak fit of the
    same spectrum returns the first fit of the pair. *)
Theorem fit_fe_primary mca ax t m subtracted vlines h r :
  result_of (fit_fe mca ax t m true subtracted vlines h) = inr r →
  ∃ fit fit2,
    r = Dual fit fit2 ∧
    result_of (fit_fe mca ax t m false subtracted vlines h) = inr (Single fit).
Proof.
  intros Hres. unfold fit_fe in *. cbv zeta in *.
  apply bind_inr in Hres as (c & Hc & Hres). rewrite readonly_read in Hres.
  apply bind_inr in Hres as ([[[cut tw] p] pk] & Hcut & Hres).
  cbn [heap_of lift fst] in Hres.
  apply bind_inr in Hres as (window & Hw & Hres). cbn [heap_of lift fst] in Hres.
  apply bind_inr in Hres as (fit & Hfit & Hres).
  rewrite readonly_fit_mca_gaussian in Hres. cbn [negb] in Hres.
  apply bind_inr in Hres as (c' & _ & Hres). rewrite readonly_read in Hres.
  apply bind_inr in Hres as (left & _ & Hres). cbn [heap_of lift fst] in Hres.
  apply bind_inr in Hres as ([[[cut2 tw2] p2] pk2] & _ & Hres).
  cbn [heap_of lift fst] in Hres.
  apply bind_inr in Hres as (_ & _ & Hres).
  rewrite (readonly_when _ _ (readonly_draw_cut _ _ _)) in Hres.
  apply bind_inr in Hres as (window2 & _ & Hres). cbn [heap_of lift fst] in Hres.
  apply bind_inr in Hres as (fit2 & _ & Hres).
  rewrite readonly_fit_mca_gaussian in Hres.
  apply bind_inr in Hres as ([] & Hplot & Hres). cbn in Hres. injection Hres as <-.
  exists fit, fit2. split; [done|].
  eapply bind_inr_intro; [exact Hc|]. rewrite readonly_read.
  eapply bind_inr_intro; [exact Hcut|]. cbn [heap_of lift fst].
  eapply bind_inr_intro; [exact Hw|]. cbn [heap_of lift fst].
  eapply bind_inr_intro; [exact Hfit|]. rewrite readonly_fit_mca_gaussian. cbn [negb].
  eapply bind_inr_intro; [|reflexivity].
  rewrite plot_gaussians_result in *.
  destruct (h !! channels mca); [|done]. cbn in *.
  by destruct (py_index fit.1 0).
Qed.

(** X16.  A primary cut that starts at channel 10 leaves the secondary
    search an empty window: once the primary fit has returned, the dual-peak
    fit raises the [ValueError] of [np.argmax]. *)
Theorem fit_fe_empty_window mca ax t m subtracted vlines h c cut1 tw1 p1 pk1 window fit :
  h !! source mca subtracted = Some c →
  get_cut c t m = inr (cut1, tw1, p1, pk1) → head cut1 = Some 10 →
  np_take c cut1 = inr window →
  result_of (fit_mca_gaussian mca cut1 window pk1 p1 tw1 h) = inr fit →
  result_of (fit_fe mca ax t m true subtracted vlines h) =
    inl (ValueError "attempt to get argmax of an empty sequence").
Proof.
  intros Hc Hcut Hhead Hw Hfit. unfold fit_fe. cbv zeta.
  rewrite bind_result, (read_some _ _ _ Hc). cbn [result_of heap_of fst snd].
  rewrite bind_result. cbn [result_of heap_of lift fst snd]. rewrite Hcut.
  rewrite bind_result. cbn [result_of heap_of lift fst snd]. rewrite Hw.
  rewrite bind_result, Hfit, readonly_fit_mca_gaussian. cbn [negb].
  rewrite bind_result, (read_some _ _ _ Hc). cbn [result_of heap_of fst snd].
  rewrite bind_result. cbn [result_of heap_of lift fst snd].
  unfold secondary_window. apply py_index_first in Hhead. rewrite Hhead. reflexivity.
Qed.

(** X17.  A primary cut that starts below channel 10: the stop of the
    slice is negative, the window is the counts without their last
    [10 - c0] channels, and when the primary peak is inside it the
    secondary search finds the primary peak again.  Its cut starts at the
    channel where the primary cut starts, and (for a multiplier that is not
    negative) both cuts have the peak channel. *)
Theorem secondary_refinds_primary (c : list Q) (t m : Q) cut1 tw1 p1 pk1 c0 :
  get_cut c t m = inr (cut1, tw1, p1, pk1) → head cut1 = Some c0 →
  c0 < 10 → p1 < Z.of_nat (length c) + c0 - 10 →
  let window := take (Z.to_nat (Z.of_nat (length c) + c0 - 10)) c in
  ∃ cut2 tw2 hi2,
    secondary_window c cut1 = inr window ∧
    get_cut window t m = inr (cut2, tw2, p1, pk1) ∧
    cut2 = np_arange c0 hi2 ∧
    ((0 <= m)%Q → p1 ∈ cut1 ∧ p1 ∈ cut2).
Proof.
  intros Hcut1 Hhead Hc0 Hp1 window.
  destruct (get_cut_inv _ _ _ _ _ _ _ Hcut1)
    as (first & last_ & Hp & Hpk & Hrange & Hfirst & Hlast & -> & ->).
  destruct (threshold_inds_around_peak _ _ _ _ _ _ Hp Hpk Hfirst Hlast)
    as (Hf0 & Hfp & Hpl & Hln).
  set (k := Z.to_nat (Z.of_nat (length c) + c0 - 10)) in *.
  assert (secondary_window c
            (np_arange (cut_ind_min p1 first m)
               (cut_ind_max (Z.of_nat (length c)) p1 last_ m)) = inr window) as Hwin.
  { unfold secondary_window. apply py_index_first in Hhead. rewrite Hhead. cbn.
    unfold py_slice_to. destruct (Z.ltb_spec (c0 - 10) 0); [|lia].
    unfold window, k. do 2 f_equal. lia. }
  pose proof (np_arange_head _ _ _ Hhead) as ->.
  assert (np_argmax window = inr p1) as Hp' by (apply np_argmax_take; [done|lia]).
  assert (window !! Z.to_nat p1 = Some pk1) as Hpk'.
  { unfold window. rewrite lookup_take_lt by lia. done. }
  destruct (where_from_head _ _ _ _ Hfirst) as [Hfin Hfmin].
  assert (first ∈ np_where (λ v, Qltb (pk1 * t) v) window) as Hfin'.
  { apply where_from_take. split; [done|lia]. }
  destruct (get_cut_returns window t m _ _ _ Hp' Hpk' Hfin') as (cut2 & tw2 & Hcut2).
  destruct (get_cut_inv _ _ _ _ _ _ _ Hcut2)
    as (first' & last' & _ & _ & Hrange' & Hfirst' & Hlast' & -> & ->).
  destruct (threshold_inds_around_peak _ _ _ _ _ _ Hp' Hpk' Hfirst' Hlast')
    as (Hf0' & Hfp' & Hpl' & Hln').
  assert (first' = first) as ->.
  { destruct (where_from_head _ _ _ _ Hfirst') as [Hin' Hmin'].
    apply where_from_take in Hin' as [Hin' _].
    specialize (Hfmin _ Hin'). specialize (Hmin' _ Hfin'). lia. }
  eexists _, _, _. split_and!; [done..|].
  intros Hm.
  destruct (cut_bounds (Z.of_nat (length c)) p1 first last_ m Hfp Hpl Hrange Hm).
  destruct (cut_bounds (Z.of_nat (length window)) p1 first last' m Hfp' Hpl' Hrange' Hm).
  split; apply np_arange_elem; lia.
Qed.

(** ** The subplot grid and the scans, once more *)

(** X19.  The grid that [create_subplot_grid] asks for: when it returns,
    the number of columns is the integer square root of the number of plots,
    which is then at least 1, and the number of rows is the least one that
    gives room for every plot; the axes it returns are those of
    [plt.subplots], flattened. *)
Theorem create_subplot_grid_shape num_plots h axes num_plots_x num_plots_y :
  result_of (create_subplot_grid num_plots h) = inr (axes, num_plots_x, num_plots_y) →
  0 < num_plots_x ∧
  num_plots_x * num_plots_x ≤ num_plots < (num_plots_x + 1) * (num_plots_x + 1) ∧
  num_plots_x * (num_plots_y - 1) < num_plots ≤ num_plots_x * num_plots_y ∧
  ∃ grid, subplots num_plots_y num_plots_x = inr grid ∧ flatten_axes grid = inr axes.
Proof.
  unfold create_subplot_grid. cbv zeta.
  destruct (Z.eqb_spec (Z.sqrt num_plots) 0) as [|Hne]; [done|]. intros Hres.
  apply bind_inr in Hres as (grid & Hgrid & Hres). cbn [heap_of lift fst] in Hres.
  apply bind_inr in Hres as (flat & Hflat & Hres). cbn [heap_of lift fst] in Hres.
  apply bind_inr in Hres as (_ & _ & Hres).
  apply bind_inr in Hres as (_ & _ & Hres). cbn in Hres.
  injection Hres as <- <- <-.
  assert (0 < num_plots) as Hpos.
  { destruct (Z.lt_trichotomy num_plots 0) as [?|[->|?]]; [|done..].
    by rewrite Z.sqrt_neg in Hne. }
  pose proof (Z.sqrt_spec num_plots ltac:(lia)) as Hsqrt.
  pose proof (Z.sqrt_nonneg num_plots) as Hs0.
  set (s := Z.sqrt num_plots) in *.
  assert (0 < s) as Hs by lia.
  pose proof (Z.div_mod (num_plots + s - 1) s ltac:(lia)) as Hdm.
  pose proof (Z.mod_pos_bound (num_plots + s - 1) s Hs) as Hmod.
  unfold Z.succ in Hsqrt.
  split_and!; [done|lia|lia|nia|nia|].
  exists grid. cbn in Hgrid, Hflat. split; [|done].
  unfold library in Hgrid. destruct (subplots _ _) as [msg|g]; [done|]. by injection Hgrid as ->.
Qed.

(** X20.  An empty collection: each scan prints its banner and raises
    [ZeroDivisionError] when it sizes the grid, before any spectrum is read;
    the store is as it was. *)
Theorem hv_scans_empty voltages gains t m fig_titles vlines h :
  fit_am_hv_scan [] voltages gains fig_titles vlines h =
    (h, [Printed "Fitting Am HV scan"], inl ZeroDivisionError) ∧
  fit_fe_hv_scan [] voltages gains t m fig_titles vlines h =
    (h, [Printed "Fitting Fe HV scan"], inl ZeroDivisionError).
Proof. split; reflexivity. Qed.

Lemma py_index_inr_length {A} (l : list A) (k : nat) (a : A) :
  py_index l (Z.of_nat k) = inr a → (k < length l)%nat.
Proof.
  intros H. apply py_index_nonneg in H; [|lia]. rewrite Nat2Z.id in H.
  by apply lookup_lt_Some in H.
Qed.

Lemma create_subplot_grid_pos num_plots h r :
  result_of (create_subplot_grid num_plots h) = inr r → 0 < num_plots.
Proof.
  unfold create_subplot_grid. cbv zeta.
  destruct (Z.eqb_spec (Z.sqrt num_plots) 0) as [|Hne]; [done|]. intros _.
  destruct (Z.lt_trichotomy num_plots 0) as [?|[->|?]]; [|done..].
  by rewrite Z.sqrt_neg in Hne.
Qed.

(** What a scan that returns was given. *)
Lemma hv_scan_lengths {A} (fit : MeasMCA → Axes → M A) banner title name
    mcas voltages gains fig_titles h fits :
  (∀ mca ax, frame (fit mca ax)) →
  (∀ mca ax1 ax2, agree (mca_locs mca) (fit mca ax1) (fit mca ax2)) →
  Forall (stored h) mcas →
  result_of (hv_scan banner title name fit mcas voltages gains fig_titles h) = inr fits →
  length fits = length mcas ∧
  (1 ≤ length mcas)%nat ∧
  (length mcas ≤ length voltages)%nat ∧ (length mcas ≤ length gains)%nat.
Proof.
  intros Hframe Hagree Hok Hres.
  destruct (hv_scan_inv fit h banner title name voltages gains fig_titles Hframe Hagree
              mcas fits Hok Hres)
    as (Hfits & axes & nx & ny & lim & Hgrid & _ & Hidxs).
  apply create_subplot_grid_pos in Hgrid.
  split; [symmetry; by eapply Forall2_length|]. split; [lia|].
  destruct (Hidxs (length mcas - 1)%nat) as [ax Hax]; [lia|].
  unfold scan_index in Hax.
  destruct (py_index axes _) as [e|ax']; [done|]. cbn in Hax.
  destruct (py_index voltages _) as [e|v] eqn:Hv; [done|]. cbn in Hax.
  destruct (py_index gains _) as [e|g] eqn:Hg; [done|].
  apply py_index_inr_length in Hv, Hg. lia.
Qed.

(** X21.  A scan that returns was given at least one spectrum and at least
    as many voltages and gains as spectra, and it returns as many fits as
    spectra. *)
Theorem hv_scans_lengths mcas voltages gains t m fig_titles vlines h :
  Forall (stored h) mcas →
  (∀ fits,
     result_of (fit_am_hv_scan mcas voltages gains fig_titles vlines h) = inr fits →
     length fits = length mcas ∧ (1 ≤ length mcas)%nat ∧
     (length mcas ≤ length voltages)%nat ∧ (length mcas ≤ length gains)%nat) ∧
  (∀ fits,
     result_of (fit_fe_hv_scan mcas voltages gains t m fig_titles vlines h) = inr fits →
     length fits = length mcas ∧ (1 ≤ length mcas)%nat ∧
     (length mcas ≤ length voltages)%nat ∧ (length mcas ≤ length gains)%nat).
Proof.
  intros Hok. split; intros fits Hres.
  - apply (hv_scan_lengths
             (λ mca ax, fit_am mca ax THRESHOLD_LEVEL CUT_WIDTH_MULT None vlines)
             "Fitting Am HV scan" "Am fits" "am_scan_fits" mcas voltages gains fig_titles h);
      try done.
    + intros mca ax'. apply frame_fit_am.
    + intros mca ax1 ax2. apply (agree_fit_am (mca_locs mca) mca (λ _ H, H)).
  - apply (hv_scan_lengths
             (λ mca ax, fit_fe mca ax t m false None vlines)
             "Fitting Fe HV scan" "Fe fits" "fe_scan_fits" mcas voltages gains fig_titles h);
      try done.
    + intros mca ax'. apply readonly_frame, readonly_fit_fe.
    + intros mca ax1 ax2. apply (agree_fit_fe (mca_locs mca) mca (λ _ H, H)).
Qed.

Lemma fit_fe_single_shape mca ax t m subtracted vlines h r :
  result_of (fit_fe mca ax t m false subtracted vlines h) = inr r → ∃ fit, r = Single fit.
Proof.
  unfold fit_fe. cbv zeta. intros Hres.
  apply bind_inr in Hres as (c & _ & Hres).
  apply bind_inr in Hres as ([[[cut tw] p] pk] & _ & Hres).
  apply bind_inr in Hres as (window & _ & Hres).
  apply bind_inr in Hres as (fit & _ & Hres). cbn [negb] in Hres.
  apply bind_inr in Hres as (_ & _ & Hres). cbn in Hres. injection Hres as <-.
  by exists fit.
Qed.

(** X22.  The Fe scan makes single-peak fits only: each fit it returns is a
    single fit, never a pair. *)
Theorem fit_fe_hv_scan_single (ax : Axes) mcas voltages gains t m fig_titles vlines h fits :
  Forall (stored h) mcas →
  result_of (fit_fe_hv_scan mcas voltages gains t m fig_titles vlines h) = inr fits →
  Forall (λ r, ∃ fit, r = Single fit) fits.
Proof.
  intros Hok Hres.
  destruct (hv_scan_inv (λ mca ax, fit_fe mca ax t m false None vlines) h
              "Fitting Fe HV scan" "Fe fits" "fe_scan_fits" voltages gains fig_titles
              (λ mca ax', readonly_frame _ (readonly_fit_fe mca ax' t m false None vlines))
              (λ mca ax1 ax2, agree_fit_fe (mca_locs mca) mca (λ _ H, H) ax1 ax2 t m false
                                vlines)
              mcas fits Hok Hres) as [Hfits _].
  clear Hres. induction Hfits as [|mca r mcas fits Hr _ IH]; [constructor|].
  apply Forall_cons in Hok as [Hmca Hok]. constructor; [|by apply IH].
  apply (fit_fe_single_shape mca ax t m None vlines h).
  apply Hr. intros l Hl. split; [by apply Hmca|done].
Qed.

Lemma readonly_scan_loop {A} (body : Z → MeasMCA → M A) mcas i acc :
  (∀ j mca, readonly (body j mca)) → readonly (scan_loop body i mcas acc).
Proof.
  intros Hbody. revert i acc. induction mcas as [|mca rest IH]; intros i acc.
  - apply readonly_ret.
  - cbn [scan_loop]. apply readonly_bind; [apply Hbody|]. intros a. apply IH.
Qed.

Lemma frame_scan_loop {A} (body : Z → MeasMCA → M A) mcas i acc :
  (∀ j mca, frame (body j mca)) → frame (scan_loop body i mcas acc).
Proof.
  intros Hbody. revert i acc. induction mcas as [|mca rest IH]; intros i acc.
  - apply readonly_frame, readonly_ret.
  - cbn [scan_loop]. apply frame_bind; [apply Hbody|]. intros a. apply IH.
Qed.

(** X23.  The scans keep the spectra: the Fe scan returns the store it was
    given, and the Am scan returns a store in which every array of the given
    one is there with its contents, whether they return or raise. *)
Theorem hv_scans_keep_store mcas voltages gains t m fig_titles vlines h :
  heap_of (fit_fe_hv_scan mcas voltages gains t m fig_titles vlines h) = h ∧
  h ⊆ heap_of (fit_am_hv_scan mcas voltages gains fig_titles vlines h).
Proof.
  split.
  - apply (readonly_bind _ _ (readonly_emit _)). intros _.
    apply readonly_bind; [apply readonly_create_subplot_grid|]. intros [[axes nx] ny].
    apply readonly_bind; [apply readonly_when, readonly_emit|]. intros _.
    apply readonly_bind; [apply readonly_scan_limits|]. intros [max_ch ymax].
    apply readonly_bind.
    + apply readonly_scan_loop. intros j mca.
      apply readonly_bind; [apply readonly_scan_axes|]. intros ax. apply readonly_fit_fe.
    + intros fits. repeat readonly_step.
  - apply (frame_bind _ _ (readonly_frame _ (readonly_emit _))). intros _.
    apply frame_bind; [apply readonly_frame, readonly_create_subplot_grid|].
    intros [[axes nx] ny].
    apply frame_bind; [apply readonly_frame, readonly_when, readonly_emit|]. intros _.
    apply frame_bind; [apply readonly_frame, readonly_scan_limits|]. intros [max_ch ymax].
    apply frame_bind.
    + apply frame_scan_loop. intros j mca.
      apply frame_bind; [apply readonly_frame, readonly_scan_axes|]. intros ax.
      apply frame_fit_am.
    + intros fits. apply readonly_frame. repeat readonly_step.
Qed.

(** ** The threshold width, the missing nonlinearities, the squeezed grid *)

(** X7.  The threshold width that [get_cut] returns is the distance from
    the first to the last channel above the threshold: it is at least 0 and
    less than the length, the peak and every channel above the threshold lie
    between the first such channel and that channel plus the width. *)
Theorem get_cut_threshold_width (data : list Q) (t m : Q) cut tw p peak :
  get_cut data t m = inr (cut, tw, p, peak) →
  0 ≤ tw < Z.of_nat (length data) ∧
  ∃ first,
    head (np_where (λ v, Qltb (peak * t) v) data) = Some first ∧
    last (np_where (λ v, Qltb (peak * t) v) data) = Some (first + tw) ∧
    first ≤ p ≤ first + tw ∧
    ∀ i, i ∈ np_where (λ v, Qltb (peak * t) v) data → first ≤ i ≤ first + tw.
Proof.
  intros Hcut.
  destruct (get_cut_inv _ _ _ _ _ _ _ Hcut)
    as (first & last_ & Hp & Hpk & Hrange & Hfirst & Hlast & -> & _).
  destruct (threshold_inds_around_peak _ _ _ _ _ _ Hp Hpk Hfirst Hlast)
    as (Hf0 & Hfp & Hpl & Hln).
  split; [lia|]. exists first.
  replace (first + (last_ - first)) with last_ by lia.
  split_and!; [done|done|lia|lia|].
  intros i Hi.
  apply where_from_head in Hfirst as [_ Hmin]. apply where_from_last in Hlast as [_ Hmax].
  specialize (Hmin i Hi). specialize (Hmax i Hi). lia.
Qed.

Section NoSolver.
Variable h0 : heap.

Lemma triple_draw_cut_quiet ax cut peak (Post : unit → Prop) :
  (∀ u, Post u) →
  triple h0 (draw_cut ax cut peak) (λ ev, ¬ is_solver_call ev) Post.
Proof.
  intros HP. unfold draw_cut.
  eapply triple_bind; [apply triple_lift|intros c0 _].
  eapply triple_bind; [apply triple_lift|intros c1 _].
  eapply triple_weaken; [apply triple_emit; by intros []|done].
Qed.

Lemma triple_fit_mca_gaussian_missing mca inds cnts peak peak_ind tw Ev :
  diff_nonlin mca = None ∨ int_nonlin mca = None →
  triple h0 (fit_mca_gaussian mca inds cnts peak peak_ind tw) Ev (λ _, False).
Proof.
  intros Hmiss. unfold fit_mca_gaussian.
  destruct Hmiss as [-> | ->]; [apply triple_raise|].
  destruct (diff_nonlin mca); apply triple_raise.
Qed.
End NoSolver.

(** X18.  Without the nonlinearities no fit is made: on a spectrum that
    lacks the differential or the integral nonlinearity, [fit_am], [fit_fe]
    and [fit_manual] call no solver and never return a fit. *)
Theorem fits_need_nonlinearities mca ax t m secondary min_ind max_ind subtracted vlines h :
  diff_nonlin mca = None ∨ int_nonlin mca = None →
  (Forall (λ ev, ¬ is_solver_call ev) (events_of (fit_am mca ax t m subtracted vlines h)) ∧
   ∀ fit, result_of (fit_am mca ax t m subtracted vlines h) ≠ inr fit) ∧
  (Forall (λ ev, ¬ is_solver_call ev)
     (events_of (fit_fe mca ax t m secondary subtracted vlines h)) ∧
   ∀ fit, result_of (fit_fe mca ax t m secondary subtracted vlines h) ≠ inr fit) ∧
  (Forall (λ ev, ¬ is_solver_call ev)
     (events_of (fit_manual mca ax min_ind max_ind subtracted vlines h)) ∧
   ∀ fit, result_of (fit_manual mca ax min_ind max_ind subtracted vlines h) ≠ inr fit).
Proof.
  intros Hmiss.
  assert (∀ A (f : M A), triple h f (λ ev, ¬ is_solver_call ev) (λ _, False) →
            Forall (λ ev, ¬ is_solver_call ev) (events_of (f h)) ∧
            ∀ a, result_of (f h) ≠ inr a) as Huse.
  { intros A f Ht. destruct (Ht h) as (_ & Hev & Hpost); [done|].
    split; [done|]. intros a Ha. exact (Hpost a Ha). }
  split; [|split]; apply Huse.
  - unfold fit_am. cbv zeta.
    eapply triple_bind; [apply triple_read|intros c _].
    eapply triple_bind; [apply triple_lift|intros peak _].
    eapply triple_bind; [apply triple_lift|intros a0 _].
    eapply triple_bind; [apply triple_lift|intros a1 _].
    eapply triple_bind; [apply triple_np_copy|intros filtered Hfresh].
    eapply triple_bind; [by apply triple_np_zero_to|intros _ _].
    eapply triple_bind; [apply triple_read|intros f _].
    eapply triple_bind; [apply triple_lift|intros [[[cut tw] p] pk] _].
    eapply triple_bind; [apply triple_when, triple_draw_cut_quiet; done|intros _ _].
    eapply triple_bind; [apply triple_read|intros c' _].
    eapply triple_bind; [apply triple_lift|intros window _].
    eapply triple_bind; [by apply triple_fit_mca_gaussian_missing|intros fit []].
  - unfold fit_fe. cbv zeta.
    eapply triple_bind; [apply triple_read|intros c _].
    eapply triple_bind; [apply triple_lift|intros [[[cut tw] p] pk] _].
    eapply triple_bind; [apply triple_lift|intros window _].
    eapply triple_bind; [by apply triple_fit_mca_gaussian_missing|intros fit []].
  - unfold fit_manual. cbv zeta.
    eapply triple_bind; [apply triple_read|intros c _].
    eapply triple_bind; [apply triple_lift|intros window _].
    eapply triple_bind; [apply triple_lift|intros am _].
    eapply triple_bind; [apply triple_lift|intros peak _].
    eapply triple_bind; [apply triple_when, triple_draw_cut_quiet; done|intros _ _].
    eapply triple_bind; [apply triple_lift|intros window' _].
    eapply triple_bind; [by apply triple_fit_mca_gaussian_missing|intros fit []].
Qed.

(** X24.  When [plt.subplots] gives a single Axes or a row of Axes instead
    of a grid, the flattening of the axes raises [TypeError]: each scan has
    then printed its banner and nothing else, has read no spectrum, and the
    store is as it was. *)
Theorem hv_scans_squeezed mcas voltages gains t m fig_titles vlines h grid :
  mcas ≠ [] →
  subplots ((Z.of_nat (length mcas) + Z.sqrt (Z.of_nat (length mcas)) - 1)
              `div` Z.sqrt (Z.of_nat (length mcas)))
           (Z.sqrt (Z.of_nat (length mcas))) = inr grid →
  (∀ rows, grid ≠ AxesGrid rows) → grid ≠ AxesRow [] →
  fit_am_hv_scan mcas voltages gains fig_titles vlines h =
    (h, [Printed "Fitting Am HV scan"], inl (TypeError "'Axes' object is not iterable")) ∧
  fit_fe_hv_scan mcas voltages gains t m fig_titles vlines h =
    (h, [Printed "Fitting Fe HV scan"], inl (TypeError "'Axes' object is not iterable")).
Proof.
  intros Hne Hsub Hgrid Hrow.
  set (n := Z.of_nat (length mcas)) in *.
  assert ((Z.sqrt n =? 0) = false) as Hs.
  { apply Z.eqb_neq. assert (1 ≤ n) as Hn by (unfold n; destruct mcas; [done|cbn [length]; lia]).
    intros E. pose proof (Z.sqrt_spec n ltac:(lia)) as Hq. cbv zeta in Hq.
    rewrite E in Hq. lia. }
  assert (flatten_axes grid = inl (TypeError "'Axes' object is not iterable")) as Hflat.
  { destruct grid as [a|[|a row]|rows]; try done. by destruct (Hgrid rows). }
  split.
  - unfold fit_am_hv_scan, create_subplot_grid. fold n. cbv zeta. rewrite Hs.
    unfold mbind at 1 2 3. unfold M_mbind, M_bind, emit, lift.
    rewrite Hsub. cbn [library]. unfold mbind at 1. unfold M_mbind, M_bind.
    by rewrite Hflat.
  - unfold fit_fe_hv_scan, create_subplot_grid. fold n. cbv zeta. rewrite Hs.
    unfold mbind at 1 2 3. unfold M_mbind, M_bind, emit, lift.
    rewrite Hsub. cbn [library]. unfold mbind at 1. unfold M_mbind, M_bind.
    by rewrite Hflat.
Qed.

End Fitting.

Arguments heap_of {model Axes A} x.
Arguments events_of {model Axes A} x.
Arguments result_of {model Axes A} x.
Arguments Printed {model Axes} s.
Arguments CurveFit {model Axes} func x y p0 sigma.
Arguments OdrRun {model Axes} func x y sx sy beta0.

(** ** The theorems at sample inputs *)

Lemma get_cut_containment_witness :
  ∃ cut tw p peak lo hi,
    get_cut [10; 5; 2; 1]%Q THRESHOLD_LEVEL CUT_WIDTH_MULT = inr (cut, tw, p, peak) ∧
    np_argmax [10; 5; 2; 1]%Q = inr p ∧ [10; 5; 2; 1]%Q !! Z.to_nat p = Some peak ∧
    (∀ v, v ∈ [10; 5; 2; 1]%Q → (v <= peak)%Q) ∧
    cut = np_arange lo hi ∧ 0 ≤ lo ∧ lo < hi ∧ hi ≤ Z.of_nat (length [10; 5; 2; 1]%Q) ∧
    cut ≠ [] ∧
    (∀ i, i ∈ cut → 0 ≤ i < Z.of_nat (length [10; 5; 2; 1]%Q)) ∧
    p ∈ cut.
Proof.
  apply (get_cut_containment [10; 5; 2; 1]%Q THRESHOLD_LEVEL CUT_WIDTH_MULT).
  - discriminate.
  - exists 10%Q. split; [left|reflexivity].
  - reflexivity.
  - reflexivity.
  - reflexivity.
Defined.

Lemma get_cut_threshold_set_witness :
  ∃ cut tw p peak,
    get_cut [3; 3; 3]%Q THRESHOLD_LEVEL CUT_WIDTH_MULT = inr (cut, tw, p, peak) ∧
    np_argmax [3; 3; 3]%Q = inr p ∧ [3; 3; 3]%Q !! Z.to_nat p = Some peak ∧
    p ∈ np_where (λ v, Qltb (peak * THRESHOLD_LEVEL) v) [3; 3; 3]%Q ∧
    ∀ (n : nat) (c : Q), [3; 3; 3]%Q = replicate (S n) c →
      p = 0 ∧ peak = c ∧ tw = Z.of_nat n ∧
      ((1 <= CUT_WIDTH_MULT)%Q → cut = np_arange 0 (Z.of_nat (S n))).
Proof.
  apply (get_cut_threshold_set [3; 3; 3]%Q THRESHOLD_LEVEL CUT_WIDTH_MULT).
  - reflexivity.
  - reflexivity.
  - discriminate.
  - exists 3%Q. split; [left|reflexivity].
Defined.

Lemma get_cut_widening_witness :
  ∃ cut2,
    get_cut [1; 6; 10; 6; 1; 0; 0]%Q THRESHOLD_LEVEL CUT_WIDTH_MULT
      = inr (cut2, 2, 2, 10%Q) ∧
    ∀ i, i ∈ [1; 2; 3] → i ∈ cut2.
Proof.
  apply (get_cut_widening [1; 6; 10; 6; 1; 0; 0]%Q THRESHOLD_LEVEL 1 CUT_WIDTH_MULT).
  - vm_compute. discriminate.
  - vm_compute. reflexivity.
Defined.

Lemma fit_odr_fallback_witness :
  ∃ evs,
    fit_odr unit unit sample_curve_fit zero_odr tt [1; 2; 3]%Q [4; 9; 4]%Q
      None None None false ∅ =
    (∅, evs ++ [Printed odr_warning], inr (sample_seed.1, sample_seed.2)).
Proof.
  apply (fit_odr_fallback unit unit sample_curve_fit zero_odr tt [1; 2; 3]%Q [4; 9; 4]%Q
           None None None false ∅ sample_seed
           {| beta := [Fin 99; Fin 80; Fin 5]; cov_beta := [[Fin 0; Fin 0]; [Fin 0; Fin 0]] |}).
  - reflexivity.
  - reflexivity.
  - apply np_any_all_zero. reflexivity.
Defined.

(** A seed covariance with a NaN and no infinity: the entry is not finite,
    and the warning is not printed. *)
Lemma fit_odr_nan_silent :
  nan_curve_fit tt [1; 2; 3]%Q [4; 9; 4]%Q None None
    = inr ([Fin 100; Fin 80; Fin 5], [[NaN]]) ∧
  events_of (fit_odr unit unit nan_curve_fit sample_odr tt [1; 2; 3]%Q [4; 9; 4]%Q
               None None None false ∅) =
    [CurveFit tt [1; 2; 3]%Q [4; 9; 4]%Q None None;
     OdrRun tt [1; 2; 3]%Q [4; 9; 4]%Q None None [Fin 100; Fin 80; Fin 5]].
Proof. split; reflexivity. Qed.

Lemma fit_odr_lsq_warning_witness :
  ∃ rest,
    events_of (fit_odr unit unit inf_curve_fit sample_odr tt [1; 2; 3]%Q [4; 9; 4]%Q
                 None None None false ∅) =
      CurveFit tt [1; 2; 3]%Q [4; 9; 4]%Q None None ::
      Printed lsq_warning ::
      OdrRun tt [1; 2; 3]%Q [4; 9; 4]%Q None None [Fin 100; Fin 80; Fin 5] :: rest.
Proof.
  apply (fit_odr_lsq_warning unit unit inf_curve_fit sample_odr tt [1; 2; 3]%Q [4; 9; 4]%Q
           None None None false ∅ ([Fin 100; Fin 80; Fin 5], [[PosInf]])).
  - reflexivity.
  - exists [PosInf], PosInf. split; [left|]. split; [left|]. by left.
Defined.

Lemma fit_mca_gaussian_precondition_witness :
  fit_mca_gaussian unit tt unit sample_curve_fit sample_odr bare_mca [1; 2] [3; 4]%Q 4%Q 1 1
    sample_heap = (sample_heap, [], inl nonlin_error) ∧
  result_of (fit_mca_gaussian unit tt unit sample_curve_fit sample_odr sample_mca
               [1; 2] [3; 4]%Q 4%Q 1 1 sample_heap) ≠ inl nonlin_error.
Proof.
  split.
  - apply (fit_mca_gaussian_precondition unit tt unit sample_curve_fit sample_odr bare_mca).
    left. reflexivity.
  - apply (fit_mca_gaussian_precondition unit tt unit sample_curve_fit sample_odr sample_mca).
    + exists 3%positive. reflexivity.
    + exists 4%positive. reflexivity.
Defined.

Lemma fit_mca_gaussian_call_witness :
  fit_mca_gaussian unit tt unit sample_curve_fit sample_odr sample_mca
    [1; 2] [3; 4]%Q 4%Q 1 1 sample_heap =
  fit_odr unit unit sample_curve_fit sample_odr tt (inject_Z <$> [1; 2]) [3; 4]%Q
    (Some [6 # 1000]%Q) (Some (zip_with Qmult [2 # 10000; 2 # 10000] [3; 4])%Q)
    (Some [4; inject_Z 1; (4 # 10) * inject_Z 1]%Q) false sample_heap.
Proof.
  refine (proj1 (fit_mca_gaussian_call unit tt unit sample_curve_fit sample_odr sample_mca
                   [1; 2] [3; 4]%Q 4%Q 1 1 sample_heap 3%positive 4%positive
                   [6 # 1000]%Q [2 # 10000]%Q _ _ _ _ _ _)); reflexivity.
Defined.

(** The sample spectrum: the primary cut is [72, 90), the secondary search
    looks at the first 62 channels and its cut is [12, 30). *)
Example two_peaks_cuts :
  get_cut two_peaks THRESHOLD_LEVEL CUT_WIDTH_MULT = inr (np_arange 72 90, 10, 80, 100%Q) ∧
  get_cut (take 62 two_peaks) THRESHOLD_LEVEL CUT_WIDTH_MULT
    = inr (np_arange 12 30, 10, 20, 40%Q).
Proof. split; vm_compute; reflexivity. Qed.

Lemma fit_fe_secondary_cut_witness :
  ∃ cut2 tw2 p2 pk2,
    get_cut (take 62 two_peaks) THRESHOLD_LEVEL CUT_WIDTH_MULT = inr (cut2, tw2, p2, pk2) ∧
    ∀ i, i ∈ cut2 → i ∉ np_arange 72 90.
Proof.
  destruct (fit_fe_secondary_cut unit tt unit sample_curve_fit sample_odr sample_mca tt
              THRESHOLD_LEVEL CUT_WIDTH_MULT None true sample_heap two_peaks
              (np_arange 72 90) 10 80 100%Q 72
              (Dual ([Fin 99; Fin 80; Fin 5], [[Fin 1]]) ([Fin 99; Fin 80; Fin 5], [[Fin 1]])))
    as (cut2 & tw2 & p2 & pk2 & w1 & w2 & f1 & f2 & ? & Hcut2 & ? & ? & ? & ? & ? & ? & Hout).
  - reflexivity.
  - vm_compute. reflexivity.
  - reflexivity.
  - vm_compute. discriminate.
  - vm_compute. reflexivity.
  - exists cut2, tw2, p2, pk2. split; [exact Hcut2|exact Hout].
Defined.

Lemma fits_keep_spectrum_witness :
  heap_of (fit_fe unit tt unit sample_curve_fit sample_odr sample_mca tt
             THRESHOLD_LEVEL CUT_WIDTH_MULT true None true sample_heap) = sample_heap ∧
  heap_of (fit_manual unit tt unit sample_curve_fit sample_odr sample_mca tt
             70 90 None true sample_heap) = sample_heap ∧
  sample_heap ⊆ heap_of (fit_am unit tt unit sample_curve_fit sample_odr sample_mca tt
                           THRESHOLD_LEVEL CUT_WIDTH_MULT None true sample_heap).
Proof.
  destruct (fits_keep_spectrum unit tt unit sample_curve_fit sample_odr sample_mca tt
              THRESHOLD_LEVEL CUT_WIDTH_MULT true 70 90 None true sample_heap)
    as (H1 & H2 & H3 & _ & _).
  split_and!; [exact H1|exact H2|exact H3].
Defined.

Lemma sample_stored :
  stored sample_heap sample_mca.
Proof.
  intros l Hl. unfold mca_locs in Hl. cbn in Hl.
  repeat (apply elem_of_cons in Hl as [->|Hl]; [eexists; reflexivity|]).
  by apply elem_of_nil in Hl.
Qed.

(** The scan of four copies of the sample spectrum returns four fits. *)
Example fit_am_hv_scan_sample :
  result_of (fit_am_hv_scan unit tt unit sample_subplots sample_curve_fit sample_odr
               [sample_mca; sample_mca; sample_mca; sample_mca]
               [1400; 1500; 1600; 1700]%Q [1; 1; 2; 2]%Q true true sample_heap) =
  inr (replicate 4 ([Fin 99; Fin 80; Fin 5], [[Fin 1]])).
Proof. vm_compute. reflexivity. Qed.

Lemma scan_heap_stored mca :
  mca ∈ scan_mcas → stored scan_heap mca.
Proof.
  intros Hmca l Hl. unfold scan_mcas in Hmca.
  repeat (apply elem_of_cons in Hmca as [->|Hmca];
          [unfold mca_locs in Hl; cbn in Hl;
           repeat (apply elem_of_cons in Hl as [->|Hl]; [eexists; reflexivity|]);
           by apply elem_of_nil in Hl|]).
  by apply elem_of_nil in Hmca.
Qed.

Lemma hv_scans_independent_witness :
  (result_of (fit_am_hv_scan unit tt unit squeezed_subplots echo_curve_fit echo_odr
                scan_mcas [1400; 1500; 1600; 1700]%Q [1; 1; 2; 2]%Q true true scan_heap)
     = inr scan_am_fits ∧
   Forall2 (am_fit_of unit tt unit echo_curve_fit echo_odr scan_heap true)
     scan_mcas scan_am_fits ∧
   (∃ fits',
      result_of (fit_am_hv_scan unit tt unit squeezed_subplots echo_curve_fit echo_odr
                   (reverse scan_mcas) [1400; 1500; 1600; 1700]%Q [1; 1; 2; 2]%Q
                   true true scan_heap) = inr fits' ∧
      Forall2 (am_fit_of unit tt unit echo_curve_fit echo_odr scan_heap true)
        (reverse scan_mcas) fits' ∧
      scan_am_fits ≡ₚ fits') ∧
   result_of (fit_am_hv_scan unit tt unit squeezed_subplots echo_curve_fit echo_odr
                [mca_at 6; mca_at 6; mca_at 5; mca_at 7]
                [1400; 1500; 1600; 1700]%Q [1; 1; 2; 2]%Q true true scan_heap)
     = inr [([Fin 60; Fin 30; Fin ((4 # 10) * 2)], [[Fin 4]]);
            ([Fin 60; Fin 30; Fin ((4 # 10) * 2)], [[Fin 4]]);
            ([Fin 60; Fin 50; Fin ((4 # 10) * 2)], [[Fin 4]]);
            ([Fin 60; Fin 65; Fin ((4 # 10) * 2)], [[Fin 4]])]) ∧
  (result_of (fit_fe_hv_scan unit tt unit squeezed_subplots echo_curve_fit echo_odr
                scan_mcas [1400; 1500; 1600; 1700]%Q [1; 1; 2; 2]%Q
                THRESHOLD_LEVEL CUT_WIDTH_MULT true true scan_heap)
     = inr scan_fe_fits ∧
   Forall2 (fe_fit_of unit tt unit echo_curve_fit echo_odr scan_heap true
              THRESHOLD_LEVEL CUT_WIDTH_MULT)
     scan_mcas scan_fe_fits ∧
   (∃ fits',
      result_of (fit_fe_hv_scan unit tt unit squeezed_subplots echo_curve_fit echo_odr
                   (reverse scan_mcas) [1400; 1500; 1600; 1700]%Q [1; 1; 2; 2]%Q
                   THRESHOLD_LEVEL CUT_WIDTH_MULT true true scan_heap) = inr fits' ∧
      Forall2 (fe_fit_of unit tt unit echo_curve_fit echo_odr scan_heap true
                 THRESHOLD_LEVEL CUT_WIDTH_MULT)
        (reverse scan_mcas) fits' ∧
      scan_fe_fits ≡ₚ fits') ∧
   result_of (fit_fe_hv_scan unit tt unit squeezed_subplots echo_curve_fit echo_odr
                [mca_at 6; mca_at 6; mca_at 5; mca_at 7]
                [1400; 1500; 1600; 1700]%Q [1; 1; 2; 2]%Q
                THRESHOLD_LEVEL CUT_WIDTH_MULT true true scan_heap)
     = inr [Single ([Fin 60; Fin 30; Fin ((4 # 10) * 4)], [[Fin 7]]);
            Single ([Fin 60; Fin 30; Fin ((4 # 10) * 4)], [[Fin 7]]);
            Single ([Fin 60; Fin 50; Fin ((4 # 10) * 4)], [[Fin 7]]);
            Single ([Fin 60; Fin 65; Fin ((4 # 10) * 4)], [[Fin 7]])]).
Proof.
  destruct (hv_scans_independent unit tt unit squeezed_subplots echo_curve_fit echo_odr tt
              scan_mcas [1400; 1500; 1600; 1700]%Q [1; 1; 2; 2]%Q
              THRESHOLD_LEVEL CUT_WIDTH_MULT true true scan_heap) as (Ham & Hfe & _).
  { apply Forall_forall, scan_heap_stored. }
  destruct (Ham scan_am_fits) as [Ham2 Hamp]; [vm_compute; reflexivity|].
  destruct (Hfe scan_fe_fits) as [Hfe2 Hfep]; [vm_compute; reflexivity|].
  destruct (hv_scans_independent unit tt unit squeezed_subplots echo_curve_fit echo_odr tt
              [mca_at 6; mca_at 6; mca_at 5; mca_at 7]
              [1400; 1500; 1600; 1700]%Q [1; 1; 2; 2]%Q
              THRESHOLD_LEVEL CUT_WIDTH_MULT true true scan_heap) as (_ & _ & Hret).
  { apply Forall_forall. intros mca Hmca. apply scan_heap_stored. unfold scan_mcas.
    repeat (apply elem_of_cons in Hmca as [->|Hmca]; [rewrite !elem_of_cons; tauto|]).
    by apply elem_of_nil in Hmca. }
  destruct (Hret [tt; tt; tt; tt] 2 2 (99, 100)%Q) as [Hret_am Hret_fe].
  { vm_compute. reflexivity. }
  { vm_compute. reflexivity. }
  { intros k Hk. exists tt. destruct k as [|[|[|[|k]]]]; [reflexivity..|].
    exfalso. cbn in Hk. lia. }
  assert (Ham2' := Ham2). assert (Hfe2' := Hfe2). unfold scan_mcas, scan_am_fits in Ham2'.
  unfold scan_mcas, scan_fe_fits in Hfe2'.
  apply Forall2_cons in Ham2' as [_ Ham2']. apply Forall2_cons in Ham2' as [Ha5 Ham2'].
  apply Forall2_cons in Ham2' as [Ha6 Ham2']. apply Forall2_cons in Ham2' as [Ha7 _].
  apply Forall2_cons in Hfe2' as [_ Hfe2']. apply Forall2_cons in Hfe2' as [Hf5 Hfe2'].
  apply Forall2_cons in Hfe2' as [Hf6 Hfe2']. apply Forall2_cons in Hfe2' as [Hf7 _].
  split; split_and!.
  - vm_compute. reflexivity.
  - exact Ham2.
  - apply Hamp. symmetry. apply reverse_Permutation.
  - apply Hret_am. repeat (constructor; [assumption|]). constructor.
  - vm_compute. reflexivity.
  - exact Hfe2.
  - apply Hfep. symmetry. apply reverse_Permutation.
  - apply Hret_fe. repeat (constructor; [assumption|]). constructor.
Defined.

(** C6.  A spectrum whose highest peak is close to the left end (peaks at
    channels 8 and 80).  The primary cut starts at channel 0, so the stop
    [cut_inds[0] - 10] of the slice is -10 and the window of the secondary
    search is the counts without their last 10 channels, not the channels
    to the left of the primary cut.  The window has the primary peak: the
    secondary cut is the primary cut, and [fit_fe] fits the primary peak
    twice. *)
Example fit_fe_low_primary :
  get_cut low_primary THRESHOLD_LEVEL CUT_WIDTH_MULT = inr (np_arange 0 18, 10, 8, 100%Q) ∧
  secondary_window low_primary (np_arange 0 18) = inr (take 90 low_primary) ∧
  get_cut (take 90 low_primary) THRESHOLD_LEVEL CUT_WIDTH_MULT
    = inr (np_arange 0 18, 10, 8, 100%Q) ∧
  ¬ (∀ i, i ∈ np_arange 0 18 → i ∉ np_arange 0 18) ∧
  result_of (fit_fe unit tt unit echo_curve_fit echo_odr sample_mca tt
               THRESHOLD_LEVEL CUT_WIDTH_MULT true None true
               (<[1%positive := low_primary]> sample_heap)) =
  inr (Dual ([Fin 100; Fin 8; Fin ((4 # 10) * 10)], [[Fin 18]])
            ([Fin 100; Fin 8; Fin ((4 # 10) * 10)], [[Fin 18]])).
Proof.
  split_and!; try (vm_compute; reflexivity).
  intros H. apply (H 8); apply np_arange_elem; lia.
Qed.

(** ** The further theorems at sample inputs *)

Lemma get_cut_nonpositive_witness :
  get_cut [0; 0; 0]%Q THRESHOLD_LEVEL CUT_WIDTH_MULT = inl (IndexError "index out of bounds").
Proof.
  apply (get_cut_nonpositive [0; 0; 0]%Q THRESHOLD_LEVEL CUT_WIDTH_MULT).
  - discriminate.
  - intros v Hv.
    repeat (apply elem_of_cons in Hv as [->|Hv]; [vm_compute; discriminate|]).
    by apply elem_of_nil in Hv.
  - vm_compute. discriminate.
  - vm_compute. discriminate.
Defined.

Lemma get_cut_spike_witness :
  get_cut [0; 0; 9; 0]%Q THRESHOLD_LEVEL CUT_WIDTH_MULT = inr ([2], 0, 2, 9%Q).
Proof.
  apply (get_cut_spike [0; 0; 9; 0]%Q THRESHOLD_LEVEL CUT_WIDTH_MULT 2 9%Q).
  - reflexivity.
  - reflexivity.
  - vm_compute. reflexivity.
  - intros i v Hv Hi.
    destruct i as [|[|[|[|i]]]]; try discriminate Hv; try (by destruct Hi);
      injection Hv as <-; vm_compute; discriminate.
Defined.

Lemma get_cut_covers_threshold_witness :
  get_cut [1; 6; 10; 6; 1; 0; 0]%Q THRESHOLD_LEVEL CUT_WIDTH_MULT
    = inr (np_arange 0 5, 2, 2, 10%Q) ∧
  ∀ i, i ∈ np_where (λ v, Qltb (10 * THRESHOLD_LEVEL) v) [1; 6; 10; 6; 1; 0; 0]%Q →
       i ∈ np_arange 0 5.
Proof.
  split; [vm_compute; reflexivity|].
  apply (get_cut_covers_threshold [1; 6; 10; 6; 1; 0; 0]%Q THRESHOLD_LEVEL CUT_WIDTH_MULT
           (np_arange 0 5) 2 2 10%Q).
  - vm_compute. discriminate.
  - vm_compute. reflexivity.
Defined.

Lemma get_cut_unit_multiplier_witness :
  ∃ first,
    head (np_where (λ v, Qltb (10 * THRESHOLD_LEVEL) v) [1; 6; 10; 6; 1; 0; 0]%Q) = Some first ∧
    np_arange 1 4 = np_arange first (first + 2 + 1) ∧
    Z.of_nat (length (np_arange 1 4)) = 2 + 1.
Proof.
  apply (get_cut_unit_multiplier [1; 6; 10; 6; 1; 0; 0]%Q THRESHOLD_LEVEL (np_arange 1 4) 2 2 10%Q).
  vm_compute. reflexivity.
Defined.

Lemma get_cut_threshold_width_witness :
  0 ≤ 2 < Z.of_nat (length [1; 6; 10; 6; 1; 0; 0]%Q) ∧
  ∃ first,
    head (np_where (λ v, Qltb (10 * THRESHOLD_LEVEL) v) [1; 6; 10; 6; 1; 0; 0]%Q) = Some first ∧
    last (np_where (λ v, Qltb (10 * THRESHOLD_LEVEL) v) [1; 6; 10; 6; 1; 0; 0]%Q)
      = Some (first + 2) ∧
    first ≤ 2 ≤ first + 2 ∧
    ∀ i, i ∈ np_where (λ v, Qltb (10 * THRESHOLD_LEVEL) v) [1; 6; 10; 6; 1; 0; 0]%Q →
         first ≤ i ≤ first + 2.
Proof.
  apply (get_cut_threshold_width [1; 6; 10; 6; 1; 0; 0]%Q THRESHOLD_LEVEL CUT_WIDTH_MULT
           (np_arange 0 5) 2 2 10%Q).
  vm_compute. reflexivity.
Defined.

Lemma fit_odr_refined_witness :
  result_of (fit_odr unit unit sample_curve_fit sample_odr tt [1; 2; 3]%Q [4; 9; 4]%Q
               None None None false ∅) = inr ([Fin 99; Fin 80; Fin 5], [[Fin 1]]) ∧
  heap_of (fit_odr unit unit sample_curve_fit sample_odr tt [1; 2; 3]%Q [4; 9; 4]%Q
             None None None false ∅) = ∅ ∧
  Printed odr_warning ∉
    events_of (fit_odr unit unit sample_curve_fit sample_odr tt [1; 2; 3]%Q [4; 9; 4]%Q
                 None None None false ∅).
Proof.
  apply (fit_odr_refined unit unit sample_curve_fit sample_odr tt [1; 2; 3]%Q [4; 9; 4]%Q
           None None None false ∅ sample_seed
           {| beta := [Fin 99; Fin 80; Fin 5]; cov_beta := [[Fin 1]] |}).
  - reflexivity.
  - reflexivity.
  - intros Hz. apply np_any_all_zero in Hz. discriminate Hz.
Defined.

Lemma fit_manual_empty_range_witness :
  fit_manual unit tt unit sample_curve_fit sample_odr sample_mca tt 90 70 None true sample_heap =
  (sample_heap, [], inl (ValueError "attempt to get argmax of an empty sequence")).
Proof.
  apply (fit_manual_empty_range unit tt unit sample_curve_fit sample_odr sample_mca tt 90 70
           None true sample_heap two_peaks).
  - reflexivity.
  - lia.
Defined.

Lemma fit_manual_out_of_range_witness :
  fit_manual unit tt unit sample_curve_fit sample_odr sample_mca tt 90 120 None true sample_heap =
  (sample_heap, [], inl (IndexError "index out of bounds")).
Proof.
  apply (fit_manual_out_of_range unit tt unit sample_curve_fit sample_odr sample_mca tt 90 120
           None true sample_heap two_peaks).
  - reflexivity.
  - lia.
  - lia.
  - vm_compute. reflexivity.
Defined.

Lemma fit_manual_seed_witness :
  Forall (manual_seed unit tt unit two_peaks 70 90)
    (events_of (fit_manual unit tt unit sample_curve_fit sample_odr sample_mca tt 70 90
                  None true sample_heap)).
Proof.
  apply (fit_manual_seed unit tt unit sample_curve_fit sample_odr sample_mca tt 70 90
           None true sample_heap two_peaks).
  - reflexivity.
  - lia.
  - lia.
  - vm_compute. discriminate.
Defined.

Lemma fit_am_no_peak_witness :
  fit_am unit tt unit sample_curve_fit sample_odr sample_mca tt THRESHOLD_LEVEL CUT_WIDTH_MULT
    None true (<[1%positive := [0; 0; 0]%Q]> sample_heap) =
  (<[1%positive := [0; 0; 0]%Q]> sample_heap, [], inl (IndexError "index out of bounds")).
Proof.
  apply (fit_am_no_peak unit tt unit sample_curve_fit sample_odr sample_mca tt
           THRESHOLD_LEVEL CUT_WIDTH_MULT None true
           (<[1%positive := [0; 0; 0]%Q]> sample_heap) [0; 0; 0]%Q).
  - reflexivity.
  - intros v Hv.
    repeat (apply elem_of_cons in Hv as [->|Hv]; [vm_compute; discriminate|]).
    by apply elem_of_nil in Hv.
  - vm_compute. discriminate.
  - vm_compute. discriminate.
Defined.

Lemma fit_am_seed_right_witness :
  Forall (am_seed unit unit two_peaks THRESHOLD_LEVEL)
    (events_of (fit_am unit tt unit sample_curve_fit sample_odr sample_mca tt
                  THRESHOLD_LEVEL CUT_WIDTH_MULT None true sample_heap)).
Proof.
  apply (fit_am_seed_right unit tt unit sample_curve_fit sample_odr sample_mca tt
           THRESHOLD_LEVEL CUT_WIDTH_MULT None true sample_heap two_peaks).
  reflexivity.
Defined.

Lemma fit_fe_primary_witness :
  ∃ fit fit2,
    Dual ([Fin 99; Fin 80; Fin 5], [[Fin 1]]) ([Fin 99; Fin 80; Fin 5], [[Fin 1]])
      = Dual fit fit2 ∧
    result_of (fit_fe unit tt unit sample_curve_fit sample_odr sample_mca tt
                 THRESHOLD_LEVEL CUT_WIDTH_MULT false None true sample_heap) = inr (Single fit).
Proof.
  apply (fit_fe_primary unit tt unit sample_curve_fit sample_odr sample_mca tt
           THRESHOLD_LEVEL CUT_WIDTH_MULT None true sample_heap).
  vm_compute. reflexivity.
Defined.

Lemma fit_fe_empty_window_witness :
  result_of (fit_fe unit tt unit sample_curve_fit sample_odr sample_mca tt
               THRESHOLD_LEVEL CUT_WIDTH_MULT true None true
               (<[1%positive := near_left]> sample_heap)) =
  inl (ValueError "attempt to get argmax of an empty sequence").
Proof.
  apply (fit_fe_empty_window unit tt unit sample_curve_fit sample_odr sample_mca tt
           THRESHOLD_LEVEL CUT_WIDTH_MULT None true
           (<[1%positive := near_left]> sample_heap) near_left
           (np_arange 10 15) 2 12 10%Q [0; 6; 10; 6; 0]%Q
           ([Fin 99; Fin 80; Fin 5], [[Fin 1]])).
  - reflexivity.
  - vm_compute. reflexivity.
  - reflexivity.
  - vm_compute. reflexivity.
  - vm_compute. reflexivity.
Defined.

Lemma secondary_refinds_primary_witness :
  ∃ cut2 tw2 hi2,
    secondary_window [0; 0; 0; 9; 0; 0; 0; 0; 0; 0; 0; 0]%Q [3]
      = inr (take 5 [0; 0; 0; 9; 0; 0; 0; 0; 0; 0; 0; 0]%Q) ∧
    get_cut (take 5 [0; 0; 0; 9; 0; 0; 0; 0; 0; 0; 0; 0]%Q) THRESHOLD_LEVEL CUT_WIDTH_MULT
      = inr (cut2, tw2, 3, 9%Q) ∧
    cut2 = np_arange 3 hi2 ∧
    ((0 <= CUT_WIDTH_MULT)%Q → 3 ∈ [3] ∧ 3 ∈ cut2).
Proof.
  apply (secondary_refinds_primary [0; 0; 0; 9; 0; 0; 0; 0; 0; 0; 0; 0]%Q
           THRESHOLD_LEVEL CUT_WIDTH_MULT [3] 0 3 9%Q 3).
  - vm_compute. reflexivity.
  - reflexivity.
  - lia.
  - vm_compute. reflexivity.
Defined.

Lemma fits_need_nonlinearities_witness :
  (Forall (λ ev, ¬ is_solver_call unit unit ev)
     (events_of (fit_am unit tt unit sample_curve_fit sample_odr bare_mca tt
                   THRESHOLD_LEVEL CUT_WIDTH_MULT None true sample_heap)) ∧
   ∀ fit, result_of (fit_am unit tt unit sample_curve_fit sample_odr bare_mca tt
                       THRESHOLD_LEVEL CUT_WIDTH_MULT None true sample_heap) ≠ inr fit) ∧
  (Forall (λ ev, ¬ is_solver_call unit unit ev)
     (events_of (fit_fe unit tt unit sample_curve_fit sample_odr bare_mca tt
                   THRESHOLD_LEVEL CUT_WIDTH_MULT true None true sample_heap)) ∧
   ∀ fit, result_of (fit_fe unit tt unit sample_curve_fit sample_odr bare_mca tt
                       THRESHOLD_LEVEL CUT_WIDTH_MULT true None true sample_heap) ≠ inr fit) ∧
  (Forall (λ ev, ¬ is_solver_call unit unit ev)
     (events_of (fit_manual unit tt unit sample_curve_fit sample_odr bare_mca tt 70 90
                   None true sample_heap)) ∧
   ∀ fit, result_of (fit_manual unit tt unit sample_curve_fit sample_odr bare_mca tt 70 90
                       None true sample_heap) ≠ inr fit).
Proof.
  apply (fits_need_nonlinearities unit tt unit sample_curve_fit sample_odr bare_mca tt
           THRESHOLD_LEVEL CUT_WIDTH_MULT true 70 90 None true sample_heap).
  left. reflexivity.
Defined.

Lemma create_subplot_grid_shape_witness :
  0 < 2 ∧ 2 * 2 ≤ 5 < (2 + 1) * (2 + 1) ∧ 2 * (3 - 1) < 5 ≤ 2 * 3 ∧
  ∃ grid, sample_subplots 3 2 = inr grid ∧ flatten_axes unit grid = inr (replicate 6 tt).
Proof.
  apply (create_subplot_grid_shape unit unit sample_subplots 5 sample_heap (replicate 6 tt) 2 3).
  vm_compute. reflexivity.
Defined.

Lemma hv_scans_lengths_witness :
  length (replicate 4 (([Fin 99; Fin 80; Fin 5], [[Fin 1]]) : fit_result)) =
    length [sample_mca; sample_mca; sample_mca; sample_mca] ∧
  (1 ≤ length [sample_mca; sample_mca; sample_mca; sample_mca])%nat ∧
  (length [sample_mca; sample_mca; sample_mca; sample_mca]
     ≤ length [1400; 1500; 1600; 1700]%Q)%nat ∧
  (length [sample_mca; sample_mca; sample_mca; sample_mca] ≤ length [1; 1; 2; 2]%Q)%nat.
Proof.
  refine (proj1 (hv_scans_lengths unit tt unit sample_subplots sample_curve_fit sample_odr
                   [sample_mca; sample_mca; sample_mca; sample_mca]
                   [1400; 1500; 1600; 1700]%Q [1; 1; 2; 2]%Q THRESHOLD_LEVEL CUT_WIDTH_MULT
                   true true sample_heap _) _ fit_am_hv_scan_sample).
  repeat (constructor; [apply sample_stored|]). constructor.
Defined.

Lemma fit_fe_hv_scan_single_witness :
  Forall (λ r, ∃ fit, r = Single fit)
    (replicate 4 (Single ([Fin 99; Fin 80; Fin 5], [[Fin 1]]))).
Proof.
  apply (fit_fe_hv_scan_single unit tt unit sample_subplots sample_curve_fit sample_odr tt
           [sample_mca; sample_mca; sample_mca; sample_mca]
           [1400; 1500; 1600; 1700]%Q [1; 1; 2; 2]%Q THRESHOLD_LEVEL CUT_WIDTH_MULT
           true true sample_heap).
  - repeat (constructor; [apply sample_stored|]). constructor.
  - vm_compute. reflexivity.
Defined.

Lemma hv_scans_squeezed_witness :
  fit_am_hv_scan unit tt unit squeezed_subplots sample_curve_fit sample_odr
    [sample_mca] [1400]%Q [1]%Q true true sample_heap =
    (sample_heap, [Printed "Fitting Am HV scan"],
     inl (TypeError "'Axes' object is not iterable")) ∧
  fit_fe_hv_scan unit tt unit squeezed_subplots sample_curve_fit sample_odr
    [sample_mca] [1400]%Q [1]%Q THRESHOLD_LEVEL CUT_WIDTH_MULT true true sample_heap =
    (sample_heap, [Printed "Fitting Fe HV scan"],
     inl (TypeError "'Axes' object is not iterable")).
Proof.
  apply (hv_scans_squeezed unit tt unit squeezed_subplots sample_curve_fit sample_odr
           [sample_mca] [1400]%Q [1]%Q THRESHOLD_LEVEL CUT_WIDTH_MULT true true sample_heap
           (OneAxes tt)).
  - discriminate.
  - reflexivity.
  - intros rows. discriminate.
  - discriminate.
Defined.
